(** * flame-limit: rate-limiting strategies, stores and orchestrator

    A shallow embedding of the JavaScript sources

      - [strategies/MemoryStore], [strategies/FixedWindow],
        [strategies/TokenBucket], [strategies/SlidingWindow],
      - [RedisStore.js] (constructor),
      - [flame-limit.js] (orchestrator, path weights) and the earlier
        single-file middleware,

    with the properties of the specification stated and proved over it.

    Conventions.  JavaScript numbers that the code keeps integral (counts,
    weights, limits, millisecond timestamps) are [Z]; [Math.floor (a / b)] on
    them is [Z.div], which rounds towards minus infinity for either sign of
    the divisor.  Numbers that are fractional by construction (the token
    bucket's [tokens] and [refillRate], the sliding window's [timeRatio]) are
    doubles: the rational [Q] a double denotes, with every [+], [-], [*]
    and [/] on them rounded as IEEE 754 prescribes ([Double] below).
    [Date.now ()] is the parameter [now] of each method; the reading that
    [MemoryStore.set] takes when a [consume] calls it is the same instant as
    the one [consume] took.  An [async] method is its synchronous body: every
    [await] in the sources is on a store call that is modelled as a
    function. *)

From Stdlib Require Import ZArith QArith Qround Qminmax Qpower Lia Lqa Ascii.
From stdpp Require Import base option strings pretty gmap.

Local Open Scope Z_scope.

(** ** JavaScript helpers *)

(** [x || d] on an optional number: [undefined] and [0] are falsy. *)
Definition js_or (x : option Z) (d : Z) : Z :=
  match x with
  | Some v => if v =? 0 then d else v
  | None => d
  end.

(** The object every [consume] returns.  The sliding window adds
    [currentCount] and [previousCount]; the other strategies leave them
    out. *)
Record Decision := mkDecision {
  limited : bool;
  remaining : Z;
  resetTime : Z;
  consumed : Z;
  currentCount : option Z;
  previousCount : option Z
}.

(** Constructor options shared by the three strategies
    ([options.limit], [options.windowMs]). *)
Record StrategyOptions := mkStrategyOptions {
  opt_limit : option Z;
  opt_windowMs : option Z
}.

(** ** Numbers

    A JavaScript number is an IEEE 754 double.  A finite double is
    modelled by the rational it denotes, and an arithmetic operation by
    the exact result rounded to the nearest number with 53 significant
    bits, ties to the even significand, which is what the standard
    prescribes for [+], [-], [*] and [/].  [Math.floor], [Math.ceil],
    [Math.min], [Math.max] and the comparisons are exact.  The exponent
    range is left unbounded: the model agrees with a double for results
    between 2^-1022 and 2^1024 in magnitude, and keeps 53 bits outside,
    where a double is subnormal or overflows.  An integer of the model
    enters the arithmetic as the double nearest to it ([ofZ]), which is
    the integer itself up to 2^53.  A division by zero, Infinity or NaN
    in JavaScript, is 0 as in [Q]; it does not arise for a strategy
    built by its constructor, whose [windowMs] and [refillRate] are not
    zero. *)

Module Double.

(** The integer nearest to [y]; of two that are equally near, the even
    one. *)
Definition nearestEven (y : Q) : Z :=
  let f := Qfloor y in
  match (y - inject_Z f ?= 1 # 2)%Q with
  | Lt => f
  | Gt => f + 1
  | Eq => if Z.even f then f else f + 1
  end.

(** The exponent of the last of the 53 significant bits of a positive
    [x]: the [e] with [2 ^ (52 + e) <= x < 2 ^ (53 + e)]. *)
Definition exponent (x : Q) : Z :=
  let k := Z.log2 (Qnum x) - Z.log2 (Zpos (Qden x)) - 52 in
  if Qle_bool (Qpower 2 (52 + k)) x then k else k - 1.

Definition roundPositive (x : Q) : Q :=
  let e := exponent x in
  Qred (inject_Z (nearestEven (x / Qpower 2 e)) * Qpower 2 e).

(** Rounding to nearest, ties to even. *)
Definition round (x : Q) : Q :=
  match Qnum x with
  | Z0 => 0%Q
  | Zpos _ => roundPositive x
  | Zneg _ => (- roundPositive (- x))%Q
  end.

(** The number an integer is. *)
Definition ofZ (z : Z) : Q := round (inject_Z z).

Definition add (a b : Q) : Q := round (a + b).
Definition sub (a b : Q) : Q := round (a - b).
Definition mul (a b : Q) : Q := round (a * b).
Definition div (a b : Q) : Q := round (a / b).

End Double.

Arguments Double.round : simpl never.
Arguments Double.ofZ : simpl never.
Arguments Double.add : simpl never.
Arguments Double.sub : simpl never.
Arguments Double.mul : simpl never.
Arguments Double.div : simpl never.

(** ** Data model *)

(** The record of the fixed and sliding windows, stored under
    [identity:windowStart]. *)
Record CounterRecord := mkRecord { count : Z; cr_resetTime : Z }.

(** The bucket of the token strategy, stored under [identity:token]. *)
Record TokenBucket := mkBucket { tokens : Q; lastRefill : Z; tb_resetTime : Z }.

(** ** strategies/MemoryStore *)

Module MemoryStore.

(** A stored object: the value the strategy wrote, and the [_expireAt]
    field that [set] adds to that very object. *)
Record entry (V : Type) := Entry { obj : V; _expireAt : Z }.
Arguments Entry {V} _ _.
Arguments obj {V} _.
Arguments _expireAt {V} _.

(** [this.keyPrefix] and [this.store] (a [Map]).  The timer [gcTimer] only
    schedules [gc]; [gc] is a separate step here. *)
Record t (V : Type) := Make { keyPrefix : string; store : gmap string (entry V) }.
Arguments Make {V} _ _.
Arguments keyPrefix {V} _.
Arguments store {V} _.

Section Methods.
Context {V : Type}.

Definition new (keyPrefix : string) : t V := Make keyPrefix ∅.

Definition prefixedKey (self : t V) (key : string) : string :=
  keyPrefix self +:+ key.

(** [get] returns the stored object itself; it reads no clock. *)
Definition get (self : t V) (key : string) : option (entry V) :=
  store self !! prefixedKey self key.

Definition set (self : t V) (key : string) (value : V) (ttl now : Z) : t V :=
  Make (keyPrefix self)
       (<[prefixedKey self key := Entry value (now + ttl)]> (store self)).

Definition del (self : t V) (key : string) : t V :=
  Make (keyPrefix self) (delete (prefixedKey self key) (store self)).

Definition reset (self : t V) : t V := Make (keyPrefix self) ∅.

(** [value._expireAt && value._expireAt <= now] *)
Definition expired (now : Z) (e : entry V) : bool :=
  negb (_expireAt e =? 0) && (_expireAt e <=? now).

Definition gc (self : t V) (now : Z) : t V :=
  Make (keyPrefix self)
       (filter (λ kv, expired now kv.2 = false) (store self)).

(** The object [get] returns is the one held by the map, not a copy, so
    an assignment to one of its fields by the caller changes the map's
    content without any call of [set].  [assign self key value] is
    that assignment for the object read under [key]: its own fields
    become [value], its [_expireAt] stays.  When [key] is absent
    the caller holds a fresh object that no map refers to, and
    nothing changes. *)
Definition assign (self : t V) (key : string) (value : V) : t V :=
  Make (keyPrefix self)
       (alter (λ e, Entry value (_expireAt e)) (prefixedKey self key) (store self)).

End Methods.
End MemoryStore.

(** ** strategies/FixedWindow *)

Module FixedWindowStrategy.

(** [this.limit], [this.windowMs]; [this.store] is the store passed in
    and returned by each method. *)
Record t := Make { limit : Z; windowMs : Z }.

Definition new (options : StrategyOptions) : t :=
  Make (js_or (opt_limit options) 100) (js_or (opt_windowMs options) 60000).

Definition windowStart (self : t) (now : Z) : Z :=
  now / windowMs self * windowMs self.

Definition storeKey (self : t) (key : string) (now : Z) : string :=
  key +:+ ":" +:+ pretty (windowStart self now).

(** The record a call starts from: the stored one of the current
    window, or a zero count. *)
Definition loaded (self : t) (key : string) (now : Z)
    (store : MemoryStore.t CounterRecord) : CounterRecord :=
  match MemoryStore.get store (storeKey self key now) with
  | Some e => MemoryStore.obj e
  | None => mkRecord 0 (windowStart self now + windowMs self)
  end.

Definition consume (self : t) (key : string) (weight now : Z)
    (store : MemoryStore.t CounterRecord)
  : Decision * MemoryStore.t CounterRecord :=
  let windowStart := windowStart self now in
  let windowEnd := windowStart + windowMs self in
  let storeKey := storeKey self key now in
  let record :=
    match MemoryStore.get store storeKey with
    | Some e => MemoryStore.obj e
    | None => mkRecord 0 windowEnd
    end in
  let newCount := count record + weight in
  let remaining := Z.max 0 (limit self - newCount) in
  let limited := limit self <? newCount in
  let '(record, store) :=
    if negb limited then
      let record := mkRecord newCount (cr_resetTime record) in
      let store := MemoryStore.assign store storeKey record in
      (record, MemoryStore.set store storeKey record (windowMs self) now)
    else (record, store) in
  (mkDecision limited remaining (cr_resetTime record)
              (if limited then 0 else weight) None None,
   store).

Definition resetKey (self : t) (key : string) (now : Z)
    (store : MemoryStore.t CounterRecord) : MemoryStore.t CounterRecord :=
  MemoryStore.del store (storeKey self key now).

Definition resetAll (store : MemoryStore.t CounterRecord)
  : MemoryStore.t CounterRecord :=
  MemoryStore.reset store.

End FixedWindowStrategy.

(** ** strategies/TokenBucket *)

Module TokenBucketStrategy.

Record t := Make { limit : Z; windowMs : Z; refillRate : Q }.

Definition new (options : StrategyOptions) : t :=
  let limit := js_or (opt_limit options) 100 in
  let windowMs := js_or (opt_windowMs options) 60000 in
  Make limit windowMs (Double.div (Double.ofZ limit) (Double.ofZ windowMs)).

Definition storeKey (key : string) : string := key +:+ ":token".

(** [a < b] on numbers. *)
Definition Qlt_bool (a b : Q) : bool := negb (Qle_bool b a).

(** The bucket a call starts from: the stored one, or a full one. *)
Definition loaded (self : t) (key : string) (now : Z)
    (store : MemoryStore.t TokenBucket) : TokenBucket :=
  match MemoryStore.get store (storeKey key) with
  | Some e => MemoryStore.obj e
  | None => mkBucket (Double.ofZ (limit self)) now (now + windowMs self)
  end.

(** The refill step of [consume] ([if (elapsed > 0) { ... }]) as a
    function of the bucket. *)
Definition refill (self : t) (bucket : TokenBucket) (now : Z) : TokenBucket :=
  let elapsed := now - lastRefill bucket in
  if 0 <? elapsed then
    let tokensToAdd := Double.mul (Double.ofZ elapsed) (refillRate self) in
    mkBucket (Qmin (Double.ofZ (limit self)) (Double.add (tokens bucket) tokensToAdd))
             now (tb_resetTime bucket)
  else bucket.

(** The store after the refill step: the two assignments reach the
    map only through the stored object, and only when time has passed. *)
Definition afterRefill (self : t) (key : string) (now : Z)
    (store : MemoryStore.t TokenBucket) : MemoryStore.t TokenBucket :=
  if 0 <? now - lastRefill (loaded self key now store)
  then MemoryStore.assign store (storeKey key)
         (refill self (loaded self key now store) now)
  else store.

Definition consume (self : t) (key : string) (weight now : Z)
    (store : MemoryStore.t TokenBucket)
  : Decision * MemoryStore.t TokenBucket :=
  let storeKey := storeKey key in
  let bucket :=
    match MemoryStore.get store storeKey with
    | Some e => MemoryStore.obj e
    | None => mkBucket (Double.ofZ (limit self)) now (now + windowMs self)
    end in
  let elapsed := now - lastRefill bucket in
  let '(bucket, store) :=
    if 0 <? elapsed then
      let tokensToAdd := Double.mul (Double.ofZ elapsed) (refillRate self) in
      let bucket :=
        mkBucket (Qmin (Double.ofZ (limit self)) (Double.add (tokens bucket) tokensToAdd))
                 now (tb_resetTime bucket) in
      (bucket, MemoryStore.assign store storeKey bucket)
    else (bucket, store) in
  let remaining := Qmax 0 (Double.sub (tokens bucket) (Double.ofZ weight)) in
  let limited := Qlt_bool (tokens bucket) (Double.ofZ weight) in
  let '(bucket, store) :=
    if negb limited then
      let tokens' := Double.sub (tokens bucket) (Double.ofZ weight) in
      let resetTime' :=
        if Qeq_bool tokens' 0
        then now + Qceiling (Double.div (Double.ofZ weight) (refillRate self))
        else tb_resetTime bucket in
      let bucket := mkBucket tokens' (lastRefill bucket) resetTime' in
      let store := MemoryStore.assign store storeKey bucket in
      (bucket, MemoryStore.set store storeKey bucket (windowMs self * 2) now)
    else (bucket, store) in
  (mkDecision limited (Qfloor remaining)
              (if limited
               then now + Qceiling (Double.div (Double.sub (Double.ofZ weight) (tokens bucket))
                                               (refillRate self))
               else tb_resetTime bucket)
              (if limited then 0 else weight) None None,
   store).

(** A bucket holds a number of tokens between 0 and [limit]; every
    stored bucket does. *)
Definition inRange (self : t) (b : TokenBucket) : Prop :=
  (0 <= tokens b ∧ tokens b <= Double.ofZ (limit self))%Q
  ∧ (Double.round (tokens b) == tokens b)%Q.

Definition tokensInRange (self : t) (store : MemoryStore.t TokenBucket) : Prop :=
  ∀ k e, MemoryStore.store store !! k = Some e → inRange self (MemoryStore.obj e).

Definition resetKey (key : string) (store : MemoryStore.t TokenBucket)
  : MemoryStore.t TokenBucket :=
  MemoryStore.del store (storeKey key).

Definition resetAll (store : MemoryStore.t TokenBucket)
  : MemoryStore.t TokenBucket :=
  MemoryStore.reset store.

End TokenBucketStrategy.

(** ** strategies/SlidingWindow *)

Module SlidingWindowStrategy.

Record t := Make { limit : Z; windowMs : Z }.

Definition new (options : StrategyOptions) : t :=
  Make (js_or (opt_limit options) 100) (js_or (opt_windowMs options) 60000).

Definition currentWindow (self : t) (now : Z) : Z :=
  now / windowMs self * windowMs self.

Definition previousWindow (self : t) (now : Z) : Z :=
  currentWindow self now - windowMs self.

Definition currentKey (self : t) (key : string) (now : Z) : string :=
  key +:+ ":" +:+ pretty (currentWindow self now).

Definition previousKey (self : t) (key : string) (now : Z) : string :=
  key +:+ ":" +:+ pretty (previousWindow self now).

(** [Math.floor (previousCount * timeRatio)] with
    [timeRatio = 1 - (timeElapsed / windowMs)], as the program computes
    it: a division, a subtraction and a multiplication of doubles. *)
Definition effectivePreviousCount (self : t) (previousCount now : Z) : Z :=
  let timeElapsed := now - currentWindow self now in
  let timeRatio :=
    Double.sub 1 (Double.div (Double.ofZ timeElapsed) (Double.ofZ (windowMs self))) in
  Qfloor (Double.mul (Double.ofZ previousCount) timeRatio).

(** The formula as the specification writes it,
    [floor (previousCount * (1 - (now - currentWindow) / windowMs))],
    over the exact rationals. *)
Definition effectivePreviousCount_spec (self : t) (previousCount now : Z) : Z :=
  let timeElapsed := now - currentWindow self now in
  let timeRatio := (1 - inject_Z timeElapsed / inject_Z (windowMs self))%Q in
  Qfloor (inject_Z previousCount * timeRatio).

(** [currentRecord] and [previousCount] as a call computes them. *)
Definition loadedCurrent (self : t) (key : string) (now : Z)
    (store : MemoryStore.t CounterRecord) : CounterRecord :=
  match MemoryStore.get store (currentKey self key now) with
  | Some e => MemoryStore.obj e
  | None => mkRecord 0 (currentWindow self now + windowMs self)
  end.

Definition loadedPreviousCount (self : t) (key : string) (now : Z)
    (store : MemoryStore.t CounterRecord) : Z :=
  match MemoryStore.get store (previousKey self key now) with
  | Some e => count (MemoryStore.obj e)
  | None => 0
  end.

Definition consume (self : t) (key : string) (weight now : Z)
    (store : MemoryStore.t CounterRecord)
  : Decision * MemoryStore.t CounterRecord :=
  let currentWindow := currentWindow self now in
  let currentKey := currentKey self key now in
  let previousKey := previousKey self key now in
  let currentRecord :=
    match MemoryStore.get store currentKey with
    | Some e => MemoryStore.obj e
    | None => mkRecord 0 (currentWindow + windowMs self)
    end in
  let previousRecord := MemoryStore.get store previousKey in
  let previousCount :=
    match previousRecord with
    | Some e => count (MemoryStore.obj e)
    | None => 0
    end in
  let effectivePreviousCount := effectivePreviousCount self previousCount now in
  let effectiveCurrentCount := count currentRecord in
  let newCount := effectiveCurrentCount + weight in
  let effectiveNewTotal := effectivePreviousCount + newCount in
  let remaining := Z.max 0 (limit self - effectiveNewTotal) in
  let limited := limit self <? effectiveNewTotal in
  let '(currentRecord, store) :=
    if negb limited then
      let currentRecord := mkRecord newCount (cr_resetTime currentRecord) in
      let store := MemoryStore.assign store currentKey currentRecord in
      (currentRecord,
       MemoryStore.set store currentKey currentRecord (windowMs self * 2) now)
    else (currentRecord, store) in
  (mkDecision limited remaining (cr_resetTime currentRecord)
              (if limited then 0 else weight)
              (Some (count currentRecord)) (Some effectivePreviousCount),
   store).

(** No stored record has a negative count. *)
Definition countsNonNegative (store : MemoryStore.t CounterRecord) : Prop :=
  ∀ k e, MemoryStore.store store !! k = Some e → 0 <= count (MemoryStore.obj e).

(** [Promise.all] of the two deletions: both are performed. *)
Definition resetKey (self : t) (key : string) (now : Z)
    (store : MemoryStore.t CounterRecord) : MemoryStore.t CounterRecord :=
  MemoryStore.del (MemoryStore.del store (currentKey self key now))
                  (previousKey self key now).

Definition resetAll (store : MemoryStore.t CounterRecord)
  : MemoryStore.t CounterRecord :=
  MemoryStore.reset store.

End SlidingWindowStrategy.

(** ** The strategy interface

    [consume], [resetKey] and [resetAll] are called on whichever strategy
    object the configuration selected. *)

Module Strategy.

Inductive t :=
| Fixed (self : FixedWindowStrategy.t)
| Sliding (self : SlidingWindowStrategy.t)
| Token (self : TokenBucketStrategy.t).

(** The memory store as the strategy fills it. *)
Definition state (s : t) : Type :=
  match s with
  | Fixed _ | Sliding _ => MemoryStore.t CounterRecord
  | Token _ => MemoryStore.t TokenBucket
  end.

Definition limit (s : t) : Z :=
  match s with
  | Fixed self => FixedWindowStrategy.limit self
  | Sliding self => SlidingWindowStrategy.limit self
  | Token self => TokenBucketStrategy.limit self
  end.

Definition windowMs (s : t) : Z :=
  match s with
  | Fixed self => FixedWindowStrategy.windowMs self
  | Sliding self => SlidingWindowStrategy.windowMs self
  | Token self => TokenBucketStrategy.windowMs self
  end.

Definition consume (s : t) (key : string) (weight now : Z)
  : state s → Decision * state s :=
  match s with
  | Fixed self => FixedWindowStrategy.consume self key weight now
  | Sliding self => SlidingWindowStrategy.consume self key weight now
  | Token self => TokenBucketStrategy.consume self key weight now
  end.

Definition resetKey (s : t) (key : string) (now : Z) : state s → state s :=
  match s with
  | Fixed self => FixedWindowStrategy.resetKey self key now
  | Sliding self => SlidingWindowStrategy.resetKey self key now
  | Token self => TokenBucketStrategy.resetKey key
  end.

Definition resetAll (s : t) : state s → state s :=
  match s with
  | Fixed _ => FixedWindowStrategy.resetAll
  | Sliding _ => SlidingWindowStrategy.resetAll
  | Token _ => TokenBucketStrategy.resetAll
  end.

(** The three classes of the registry, and [new Strategy (store,
    options)] on one of them. *)
Variant class := FixedWindowClass | SlidingWindowClass | TokenBucketClass.

Definition new (c : class) (options : StrategyOptions) : t :=
  match c with
  | FixedWindowClass => Fixed (FixedWindowStrategy.new options)
  | SlidingWindowClass => Sliding (SlidingWindowStrategy.new options)
  | TokenBucketClass => Token (TokenBucketStrategy.new options)
  end.

(** [new MemoryStore (keyPrefix)]: nothing stored yet. *)
Definition empty (s : t) (keyPrefix : string) : state s :=
  match s with
  | Fixed _ => MemoryStore.new keyPrefix
  | Sliding _ => MemoryStore.new keyPrefix
  | Token _ => MemoryStore.new keyPrefix
  end.

(** A sequence of [consume] calls, each with its identity, weight and
    clock reading, run one after the other on the same store. *)
Record call := mkCall { c_key : string; c_weight : Z; c_now : Z }.

Fixpoint run (s : t) (calls : list call) : state s → state s :=
  match calls with
  | [] => λ st, st
  | c :: rest =>
      λ st, run s rest (consume s (c_key c) (c_weight c) (c_now c) st).2
  end.

(** What the store holds for [key] after an admitted call at [now]:
    a count (tokens used, [limit - tokens]) of at most [limit]. *)
Definition withinLimit (s : t) (key : string) (now : Z) : state s → Prop :=
  match s with
  | Fixed self => λ st,
      ∃ e, MemoryStore.get st (FixedWindowStrategy.storeKey self key now) = Some e
           ∧ count (MemoryStore.obj e) <= FixedWindowStrategy.limit self
  | Sliding self => λ st,
      ∃ e, MemoryStore.get st (SlidingWindowStrategy.currentKey self key now) = Some e
           ∧ count (MemoryStore.obj e) <= SlidingWindowStrategy.limit self
  | Token self => λ st,
      ∃ e, MemoryStore.get st (TokenBucketStrategy.storeKey key) = Some e
           ∧ (inject_Z (TokenBucketStrategy.limit self) - tokens (MemoryStore.obj e)
              <= inject_Z (TokenBucketStrategy.limit self))%Q
  end.

(** What a rejected call may have done to the store, from [st] to
    [st'].  The two windows: nothing.  The token bucket: nothing to
    any other key, no bucket created, and on a stored bucket no debit
    and no renewed expiry (its [tokens] are not lower than before). *)
Definition rejectionEffect (s : t) (key : string) : state s → state s → Prop :=
  match s with
  | Fixed _ => λ st st', st' = st
  | Sliding _ => λ st st', st' = st
  | Token self => λ st st',
      MemoryStore.keyPrefix st' = MemoryStore.keyPrefix st
      ∧ (∀ k, k ≠ TokenBucketStrategy.storeKey key →
              MemoryStore.get st' k = MemoryStore.get st k)
      ∧ match MemoryStore.get st (TokenBucketStrategy.storeKey key) with
        | None => MemoryStore.get st' (TokenBucketStrategy.storeKey key) = None
        | Some e =>
            ∃ e', MemoryStore.get st' (TokenBucketStrategy.storeKey key) = Some e'
                  ∧ MemoryStore._expireAt e' = MemoryStore._expireAt e
                  ∧ tb_resetTime (MemoryStore.obj e') = tb_resetTime (MemoryStore.obj e)
                  ∧ (tokens (MemoryStore.obj e) <= tokens (MemoryStore.obj e'))%Q
        end
  end.

End Strategy.

(** ** Path weights ([getPathWeight], [patternMatches]) *)

Module PathWeight.

(** [s.endsWith ('*')] *)
Fixpoint endsWithStar (s : string) : bool :=
  match s with
  | EmptyString => false
  | String a EmptyString => Ascii.eqb a "*"%char
  | String _ s' => endsWithStar s'
  end.

(** [s.slice (0, -1)] *)
Fixpoint slice_0_m1 (s : string) : string :=
  match s with
  | EmptyString => EmptyString
  | String _ EmptyString => EmptyString
  | String a s' => String a (slice_0_m1 s')
  end.

(** [path.startsWith (prefix)] *)
Definition startsWith (path prefix : string) : bool := String.prefix prefix path.

(** [path.includes (needle)] *)
Fixpoint includes (path needle : string) : bool :=
  if String.prefix needle path then true
  else match path with
       | EmptyString => false
       | String _ rest => includes rest needle
       end.

(** The characters with a meaning in regular-expression syntax. *)
Definition syntaxCharacter (c : ascii) : bool :=
  existsb (Ascii.eqb c)
    ["^"; "$"; "\"; "."; "*"; "+"; "?"; "("; ")"; "["; "]"; "{"; "}"; "|"]%char.

Fixpoint literalPattern (s : string) : bool :=
  match s with
  | EmptyString => true
  | String a s' => negb (syntaxCharacter a) && literalPattern s'
  end.

Section Resolver.
(** The regular-expression engine of the host for patterns that use
    syntax characters: [compile pattern] is [None] when
    [new RegExp (pattern)] raises a SyntaxError, and otherwise the
    [test] method of the compiled expression. *)
Variable compile : string → option (string → bool).

(** [new RegExp (pattern).test (path)]; [None] is the exception.  A
    pattern without syntax characters always compiles and matches
    the paths that contain it. *)
Definition RegExp_test (pattern path : string) : option bool :=
  if literalPattern pattern then Some (includes path pattern)
  else match compile pattern with
       | Some test => Some (test path)
       | None => None
       end.

Definition patternMatches (pattern path : string) : bool :=
  if String.eqb pattern path then true
  else if endsWithStar pattern then startsWith path (slice_0_m1 pattern)
  else match RegExp_test pattern path with
       | Some b => b
       | None => false   (* catch (e) *)
       end.

(** The loop over [Object.entries], which for pattern keys (none is
    an array index) lists the rules in declaration order. *)
Fixpoint firstMatch (entries : list (string * Z)) (path : string) : Z :=
  match entries with
  | [] => 1
  | (pattern, weight) :: rest =>
      if patternMatches pattern path then weight else firstMatch rest path
  end.

(** flame-limit.js: [config.weightByPath] is the switch and
    [config.weights] the rules. *)
Definition getPathWeight (weightByPath : bool)
    (weights : option (list (string * Z))) (path : string) : Z :=
  match weightByPath, weights with
  | true, Some entries => firstMatch entries path
  | _, _ => 1
  end.

(** The earlier single-file middleware: [options.weightByPath || {}]
    holds the rules themselves. *)
Definition getPathWeight_v1 (weightByPath : option (list (string * Z)))
    (path : string) : Z :=
  firstMatch (default [] weightByPath) path.

End Resolver.
End PathWeight.

(** ** RedisStore (constructor) *)

Inductive JsError :=
| Error (message : string)
| TypeError (message : string).

Module RedisStore.

(** The client handle handed in by the application.  Construction only
    looks at whether one was given. *)
Variant client := Client.

Record t := Make { client_of : client; keyPrefix : string }.

Definition new (redisClient : option client) (keyPrefix : string) : JsError + t :=
  match redisClient with
  | None => inl (Error "Redis client is required for RedisStore")
  | Some c => inr (Make c keyPrefix)
  end.

End RedisStore.

(** ** flame-limit.js: the orchestrator *)

Module FlameLimit.

Record Options := mkOptions {
  o_limit : option Z;
  o_windowMs : option Z;
  o_backend : option string;
  o_strategy : option string;
  o_keyPrefix : option string;
  o_redisClient : option RedisStore.client;
  o_weightByPath : bool;
  o_weights : option (list (string * Z))
}.

(** [{ ...DEFAULT_OPTIONS, ...options }] *)
Record Config := mkConfig {
  limit : Z;
  windowMs : Z;
  backend : string;
  strategy : string;
  keyPrefix : string;
  redisClient : option RedisStore.client;
  weightByPath : bool;
  weights : option (list (string * Z))
}.

Definition mergeDefaults (options : Options) : Config :=
  mkConfig (default 100 (o_limit options))
           (default 60000 (o_windowMs options))
           (default "memory" (o_backend options))
           (default "fixed" (o_strategy options))
           (default "flame-limit:" (o_keyPrefix options))
           (o_redisClient options)
           (o_weightByPath options)
           (o_weights options).

(** The value of [table[name]] for a table written as an object
    literal.  Such an object inherits from [Object.prototype], so a
    name that is not an own key can still yield a value. *)
Inductive Property (C : Type) :=
| Own (c : C)          (* an own key of the table *)
| ObjectFunction       (* ["constructor"]: the global [Object] *)
| NotAConstructor      (* another inherited member: truthy, [new] on it raises *)
| Undefined.
Arguments Own {C} _.
Arguments ObjectFunction {C}.
Arguments NotAConstructor {C}.
Arguments Undefined {C}.

Definition objectPrototypeMembers : list string :=
  ["__defineGetter__"; "__defineSetter__"; "hasOwnProperty";
   "__lookupGetter__"; "__lookupSetter__"; "isPrototypeOf";
   "propertyIsEnumerable"; "toString"; "valueOf"; "__proto__";
   "toLocaleString"].

Definition inherited {C : Type} (name : string) : Property C :=
  if String.eqb name "constructor" then ObjectFunction
  else if existsb (String.eqb name) objectPrototypeMembers then NotAConstructor
  else Undefined.

Variant StoreClass := MemoryStoreClass | RedisStoreClass.

Definition STORES (name : string) : Property StoreClass :=
  if String.eqb name "memory" then Own MemoryStoreClass
  else if String.eqb name "redis" then Own RedisStoreClass
  else inherited name.

Definition STRATEGIES (name : string) : Property Strategy.class :=
  if String.eqb name "fixed" then Own Strategy.FixedWindowClass
  else if String.eqb name "sliding" then Own Strategy.SlidingWindowClass
  else if String.eqb name "token" then Own Strategy.TokenBucketClass
  else inherited name.

(** What [new Store (...)] evaluates to. *)
Inductive StoreObject :=
| MemoryStoreObject (keyPrefix : string)
| RedisStoreObject (s : RedisStore.t)
| StringObject (s : string).        (* [new Object (keyPrefix)] *)

(** What [new Strategy (store, {limit, windowMs})] evaluates to. *)
Inductive StrategyObject :=
| Instance (s : Strategy.t)
| SameObject (o : StoreObject).     (* [new Object (store, ...)] is [store] *)

Record Limiter := mkLimiter {
  l_config : Config;
  l_store : StoreObject;
  l_strategy : StrategyObject
}.

Definition newStore (config : Config) (c : Property StoreClass)
  : JsError + StoreObject :=
  match c with
  | Undefined =>
      inl (Error ("Unknown backend: " +:+ backend config
                  +:+ ". Use 'memory' or 'redis'."))
  | Own MemoryStoreClass => inr (MemoryStoreObject (keyPrefix config))
  | Own RedisStoreClass =>
      match RedisStore.new (redisClient config) (keyPrefix config) with
      | inl e => inl e
      | inr s => inr (RedisStoreObject s)
      end
  | ObjectFunction => inr (StringObject (keyPrefix config))
  | NotAConstructor => inl (TypeError "Store is not a constructor")
  end.

Definition newStrategy (config : Config) (store : StoreObject)
    (c : Property Strategy.class) : JsError + StrategyObject :=
  let options := mkStrategyOptions (Some (limit config)) (Some (windowMs config)) in
  match c with
  | Undefined =>
      inl (Error ("Unknown strategy: " +:+ strategy config
                  +:+ ". Use 'fixed', 'sliding', or 'token'."))
  | Own c => inr (Instance (Strategy.new c options))
  | ObjectFunction => inr (SameObject store)
  | NotAConstructor => inl (TypeError "Strategy is not a constructor")
  end.

(** The construction part of [flameLimit (options)]: [inl] is the
    exception it raises, [inr] the wiring the returned middleware
    closes over. *)
Definition flameLimit (options : Options) : JsError + Limiter :=
  let config := mergeDefaults options in
  match newStore config (STORES (backend config)) with
  | inl e => inl e
  | inr store =>
      match newStrategy config store (STRATEGIES (strategy config)) with
      | inl e => inl e
      | inr strategy => inr (mkLimiter config store strategy)
      end
  end.

(** [strategy.consume (identifier, weight)] in the middleware, as far as
    the wiring decides it: the exception raised before any counting
    when the object has no [consume] method, or when the strategy's
    store has no [get]. *)
Definition consumeTypeError (l : Limiter) : option JsError :=
  match l_strategy l with
  | SameObject _ => Some (TypeError "strategy.consume is not a function")
  | Instance _ =>
      match l_store l with
      | StringObject _ => Some (TypeError "this.store.get is not a function")
      | _ => None
      end
  end.

End FlameLimit.

(** ** Store keys and accounting over sequences of calls *)

Module Keys.

(** Every character of [s] satisfies [P]. *)
Fixpoint allChars (P : ascii → bool) (s : string) : bool :=
  match s with
  | EmptyString => true
  | String a s' => P a && allChars P s'
  end.

(** The characters an integer prints with. *)
Definition decimalChar (c : ascii) : bool :=
  existsb (Ascii.eqb c)
    ["0"; "1"; "2"; "3"; "4"; "5"; "6"; "7"; "8"; "9"; "-"]%char.

Definition notColon (c : ascii) : bool := negb (Ascii.eqb c ":"%char).

End Keys.

Module Accounting.

(** The weight that a sequence of calls is granted, summed over the
    calls that [select] picks: the sum of [consumed] of their
    decisions. *)
Fixpoint consumedBy (s : Strategy.t) (select : Strategy.call → bool)
    (calls : list Strategy.call) : Strategy.state s → Z :=
  match calls with
  | [] => λ _, 0
  | c :: rest => λ st,
      let r := Strategy.consume s (Strategy.c_key c) (Strategy.c_weight c)
                                (Strategy.c_now c) st in
      (if select c then consumed r.1 else 0) + consumedBy s select rest r.2
  end.

(** The calls of one identity. *)
Definition ofKey (key : string) (c : Strategy.call) : bool :=
  String.eqb (Strategy.c_key c) key.

(** The calls of one identity in the window that starts at
    [windowStart], for a window length [windowMs]. *)
Definition inWindow (windowMs : Z) (key : string) (windowStart : Z)
    (c : Strategy.call) : bool :=
  String.eqb (Strategy.c_key c) key
  && (Strategy.c_now c / windowMs * windowMs =? windowStart).

(** The count stored under a store key, 0 when nothing is stored. *)
Definition storedCount (st : MemoryStore.t CounterRecord) (storeKey : string) : Z :=
  match MemoryStore.get st storeKey with
  | Some e => count (MemoryStore.obj e)
  | None => 0
  end.

(** No stored record counts more than [limit]. *)
Definition countsAtMost (limit : Z) (st : MemoryStore.t CounterRecord) : Prop :=
  ∀ k e, MemoryStore.store st !! k = Some e → count (MemoryStore.obj e) <= limit.

End Accounting.

(** ** Histories of a memory-backed strategy *)

Module History.

(** What happens to the store of a strategy over time: [consume]
    calls, runs of the store's sweep ([gc], on the timer), and the
    administrative [resetKey] and [resetAll]. *)
Inductive event :=
| Call (c : Strategy.call)
| Sweep (now : Z)
| ResetKey (key : string) (now : Z)
| ResetAll.

Definition sweep (s : Strategy.t) (now : Z) : Strategy.state s → Strategy.state s :=
  match s with
  | Strategy.Fixed _ => λ st, MemoryStore.gc st now
  | Strategy.Sliding _ => λ st, MemoryStore.gc st now
  | Strategy.Token _ => λ st, MemoryStore.gc st now
  end.

Definition step (s : Strategy.t) (e : event) (st : Strategy.state s)
  : Strategy.state s :=
  match e with
  | Call c =>
      (Strategy.consume s (Strategy.c_key c) (Strategy.c_weight c)
                        (Strategy.c_now c) st).2
  | Sweep now => sweep s now st
  | ResetKey key now => Strategy.resetKey s key now st
  | ResetAll => Strategy.resetAll s st
  end.

Fixpoint run (s : Strategy.t) (events : list event) (st : Strategy.state s)
  : Strategy.state s :=
  match events with
  | [] => st
  | e :: rest => run s rest (step s e st)
  end.

(** The records of a window strategy sit where their window says: the
    one stored for the window starting at [ws] resets at the end of
    that window and does not expire before [ws + ttlWindows * windowMs]. *)
Definition recordsAligned (windowMs ttlWindows : Z)
    (st : MemoryStore.t CounterRecord) : Prop :=
  ∀ key ws e,
    MemoryStore.get st (key +:+ ":" +:+ pretty ws) = Some e →
    cr_resetTime (MemoryStore.obj e) = ws + windowMs
    ∧ ws + ttlWindows * windowMs <= MemoryStore._expireAt e.

(** The event is a [consume] or a [resetKey] for an identity other
    than [key]. *)
Definition ofAnotherClient (key : string) (e : event) : Prop :=
  match e with
  | Call c => Strategy.c_key c ≠ key
  | ResetKey k _ => k ≠ key
  | Sweep _ | ResetAll => False
  end.

End History.

(** ** Requests, identities and the two middlewares *)

Module Js.

(** [x || d] on an optional string: [undefined] and the empty string
    are falsy. *)
Definition or_string (x : option string) (d : string) : string :=
  match x with
  | Some EmptyString | None => d
  | Some v => v
  end.

(** [Math.ceil (a / b)] on integers, for a positive [b]. *)
Definition ceilDiv (a b : Z) : Z := - ((- a) / b).

(** White space as [String.prototype.trim] sees it, among the
    characters of one byte: tab, line feed, vertical tab, form feed,
    carriage return, space and no-break space. *)
Definition isWhiteSpace (c : ascii) : bool :=
  existsb (N.eqb (N_of_ascii c)) [9; 10; 11; 12; 13; 32; 160]%N.

Fixpoint trimStart (s : string) : string :=
  match s with
  | EmptyString => EmptyString
  | String a s' => if isWhiteSpace a then trimStart s' else s
  end.

(** [trimEnd]: a character is kept when something other than white
    space follows it or it is not white space itself. *)
Fixpoint trimEnd (s : string) : string :=
  match s with
  | EmptyString => EmptyString
  | String a s' =>
      match trimEnd s' with
      | EmptyString => if isWhiteSpace a then EmptyString else String a EmptyString
      | rest => String a rest
      end
  end.

Definition trim (s : string) : string := trimEnd (trimStart s).

(** [s.split (',')[0]]: what precedes the first comma. *)
Fixpoint firstField (s : string) : string :=
  match s with
  | EmptyString => EmptyString
  | String a s' => if Ascii.eqb a ","%char then EmptyString else String a (firstField s')
  end.

End Js.

(** The single-file middleware that precedes the strategies: one
    counter per client in a [Map], charged on every request. *)
Module LegacyFlameLimit.

Record Options := mkOptions {
  o_limit : option Z;
  o_windowMs : option Z;
  o_weightByPath : option (list (string * Z));
  o_tokenBased : bool;
  o_onLimit : bool          (* whether [options.onLimit] is a function *)
}.

Definition limit (options : Options) : Z := js_or (o_limit options) 100.
Definition windowMs (options : Options) : Z := js_or (o_windowMs options) 60000.
Definition weightByPath (options : Options) : list (string * Z) :=
  default [] (o_weightByPath options).

(** The fields of the request the middleware looks at; [None] is a
    missing property (or a missing object on the way to it). *)
Record Request := mkRequest {
  ip : option string;
  connection_remoteAddress : option string;
  socket_remoteAddress : option string;
  connection_socket_remoteAddress : option string;
  headers_authorization : option string;
  path : option string;
  url : option string
}.

Record ClientData := mkClientData { count : Z; resetTime : Z }.

Definition getClientIdentifier (options : Options) (req : Request) : string :=
  if o_tokenBased options then
    Js.or_string (headers_authorization req) "anonymous"
  else
    Js.or_string (ip req)
      (Js.or_string (connection_remoteAddress req)
         (Js.or_string (socket_remoteAddress req)
            (Js.or_string (connection_socket_remoteAddress req) "unknown"))).

(** The body of the [setInterval] callback, run every
    [Math.min (windowMs, 60000)] ms. *)
Definition cleanup (now : Z) (clients : gmap string ClientData)
  : gmap string ClientData :=
  filter (λ kv, (resetTime kv.2 <? now) = false) clients.

Definition cleanupEvery (options : Options) : Z := Z.min (windowMs options) 60000.

(** What the middleware does with the request once it has counted it. *)
Inductive Result :=
| CallOnLimit                                      (* [onLimit (req, res, next)] *)
| TooManyRequests (retryAfter limitResetAt : Z)    (* status 429 *)
| CallNext                                         (* [next ()] *)
| ReturnTrue.

Section Middleware.
Variable compile : string → option (string → bool).

(** [now] is the clock the middleware reads on entry; [sentAt] is the
    clock [sendLimitExceededResponse] reads for the Retry-After header. *)
Definition middleware (options : Options) (req : Request) (hasNext : bool)
    (now sentAt : Z) (clients : gmap string ClientData)
  : Result * gmap string ClientData :=
  let clientId := getClientIdentifier options req in
  let path := Js.or_string (path req) (Js.or_string (url req) "/") in
  let requestWeight :=
    PathWeight.getPathWeight_v1 compile (Some (weightByPath options)) path in
  let clientData :=
    match clients !! clientId with
    | Some data => data
    | None => mkClientData 0 (now + windowMs options)
    end in
  let clientData :=
    if resetTime clientData <? now
    then mkClientData 0 (now + windowMs options)
    else clientData in
  let clientData := mkClientData (count clientData + requestWeight) (resetTime clientData) in
  (* the object in the map is the one that was assigned to *)
  let clients := <[clientId := clientData]> clients in
  if limit options <? count clientData then
    if o_onLimit options then (CallOnLimit, clients)
    else (TooManyRequests (Js.ceilDiv (resetTime clientData - sentAt) 1000)
                          (resetTime clientData),
          clients)
  else if hasNext then (CallNext, clients)
  else (ReturnTrue, clients).

End Middleware.

Definition isLimited (r : Result) : bool :=
  match r with
  | CallOnLimit | TooManyRequests _ _ => true
  | CallNext | ReturnTrue => false
  end.

End LegacyFlameLimit.

(** flame-limit.js: the middleware the orchestrator returns, over a
    strategy on the memory store. *)
Module Middleware.

Record Request := mkRequest {
  headers_xForwardedFor : option string;
  ip : option string;
  socket_remoteAddress : option string;
  connection_remoteAddress : option string;
  connection_socket_remoteAddress : option string;
  path : option string;
  url : option string
}.

(** The default of [config.identifierFn]. *)
Definition getIdentifier (trustProxy : bool) (req : Request) : string :=
  match (if trustProxy then headers_xForwardedFor req else None) with
  | Some (String a xff') => Js.trim (Js.firstField (String a xff'))
  | _ =>
      Js.or_string (ip req)
        (Js.or_string (socket_remoteAddress req)
           (Js.or_string (connection_remoteAddress req)
              (Js.or_string (connection_socket_remoteAddress req) "unknown")))
  end.

(** The three headers set on every response. *)
Record Headers := mkHeaders {
  xRateLimitLimit : Z;
  xRateLimitRemaining : Z;
  xRateLimitReset : Z
}.

Inductive Outcome :=
| CallOnLimit (resetTime : Z)                      (* [config.onLimit (req, res, next, resetTime)] *)
| TooManyRequests (retryAfter limitResetAt : Z)    (* status 429 *)
| CallNext
| ReturnTrue.

(** [sentAt] is the clock read for the Retry-After header. *)
Definition sendLimitExceededResponse (onLimit : bool) (sentAt resetTime : Z) : Outcome :=
  if onLimit then CallOnLimit resetTime
  else TooManyRequests (Js.ceilDiv (resetTime - sentAt) 1000) resetTime.

Section Middleware.
Variable compile : string → option (string → bool).

(** [trustProxy] and [onLimit] are the two options of the
    configuration that [FlameLimit.Config] does not carry;
    [config.identifierFn] is left at its default.  [now] is the clock
    the strategy reads, [sentAt] the one read when the rejection is
    written.  The strategies on the memory store do not throw, so the
    [catch] branch is not entered. *)
Definition middleware (config : FlameLimit.Config) (trustProxy onLimit : bool)
    (s : Strategy.t) (req : Request) (hasNext : bool) (now sentAt : Z)
    (st : Strategy.state s) : (Headers * Outcome) * Strategy.state s :=
  let identifier := getIdentifier trustProxy req in
  let path := Js.or_string (path req) (Js.or_string (url req) "/") in
  let weight :=
    PathWeight.getPathWeight compile (FlameLimit.weightByPath config)
                             (FlameLimit.weights config) path in
  let '(result, st) := Strategy.consume s identifier weight now st in
  let headers :=
    mkHeaders (FlameLimit.limit config) (remaining result)
              (Js.ceilDiv (resetTime result) 1000) in
  if limited result then
    ((headers, sendLimitExceededResponse onLimit sentAt (resetTime result)), st)
  else if hasNext then ((headers, CallNext), st)
  else ((headers, ReturnTrue), st).

End Middleware.

Definition isLimited (o : Outcome) : bool :=
  match o with
  | CallOnLimit _ | TooManyRequests _ _ => true
  | CallNext | ReturnTrue => false
  end.

End Middleware.

(** * Properties *)

(** ** Rounding *)

Section DoubleFacts.
Import Double.
Local Open Scope Q_scope.

Lemma pow2_pos (e : Z) : 0 < Qpower 2 e.
Proof. by apply Qpower_0_lt. Qed.

Lemma pow2_le (e1 e2 : Z) : (e1 <= e2)%Z → Qpower 2 e1 <= Qpower 2 e2.
Proof. intros H. by apply Qpower_le_compat_l. Qed.

Lemma pow2_lt (e1 e2 : Z) : (e1 < e2)%Z → Qpower 2 e1 < Qpower 2 e2.
Proof. intros H. by apply Qpower_lt_compat_l. Qed.

Lemma pow2_lt_inv (e1 e2 : Z) : Qpower 2 e1 < Qpower 2 e2 → (e1 < e2)%Z.
Proof. intros H. by apply (Qpower_lt_compat_l_inv 2). Qed.

Lemma pow2_plus (e1 e2 : Z) : Qpower 2 (e1 + e2) == Qpower 2 e1 * Qpower 2 e2.
Proof. by apply Qpower_plus. Qed.

Lemma pow2_Z (a : Z) : (0 <= a)%Z → inject_Z (2 ^ a) == Qpower 2 a.
Proof. intros H. by apply Zpower_Qpower. Qed.

Lemma log2_bracket (n : Z) :
  (0 < n)%Z → Qpower 2 (Z.log2 n) <= inject_Z n ∧ inject_Z n < Qpower 2 (Z.log2 n + 1).
Proof.
  intros Hn. pose proof (Z.log2_spec n Hn) as [Hlo Hhi].
  pose proof (Z.log2_nonneg n) as H0.
  rewrite <- !pow2_Z by lia. rewrite <- Zle_Qle, <- Zlt_Qlt.
  split; [exact Hlo|]. by rewrite <- Z.add_1_r in Hhi.
Qed.

Lemma exponent_spec (x : Q) :
  0 < x → Qpower 2 (52 + exponent x) <= x ∧ x < Qpower 2 (53 + exponent x).
Proof.
  intros Hx. unfold exponent.
  destruct x as [n d]. cbn [Qnum Qden].
  assert (Hn : (0 < n)%Z). { unfold Qlt in Hx. cbn in Hx. lia. }
  set (a := Z.log2 n). set (b := Z.log2 (Z.pos d)). set (k := (a - b - 52)%Z).
  destruct (log2_bracket n Hn) as [Ha0 Ha1]. fold a in Ha0, Ha1.
  destruct (log2_bracket (Z.pos d) ltac:(lia)) as [Hb0 Hb1]. fold b in Hb0, Hb1.
  assert (Hxd : n # d == inject_Z n / inject_Z (Z.pos d)) by apply Qmake_Qdiv.
  assert (Hd : 0 < inject_Z (Z.pos d)) by (rewrite <- (Zlt_Qlt 0); lia).
  assert (Hmul : (n # d) * inject_Z (Z.pos d) == inject_Z n).
  { rewrite Hxd. field. intros H. rewrite H in Hd. by apply Qlt_irrefl in Hd. }
  pose proof (pow2_pos b) as Hpb. pose proof (pow2_pos (53 + k)) as Hp53.
  pose proof (pow2_pos (51 + k)) as Hp51.
  assert (E1 : Qpower 2 (a + 1) == Qpower 2 (53 + k) * Qpower 2 b).
  { rewrite <- pow2_plus. apply Qpower_comp; [reflexivity|]. unfold k. lia. }
  assert (E2 : Qpower 2 a == Qpower 2 (51 + k) * Qpower 2 (b + 1)).
  { rewrite <- pow2_plus. apply Qpower_comp; [reflexivity|]. unfold k. lia. }
  assert (Hhi : n # d < Qpower 2 (53 + k)).
  { apply Qnot_le_lt. intros Hge.
    assert (Qpower 2 (53 + k) * Qpower 2 b <= (n # d) * inject_Z (Z.pos d)).
    { apply Qle_trans with ((n # d) * Qpower 2 b).
      - apply Qmult_le_compat_r; [exact Hge|by apply Qlt_le_weak].
      - rewrite !(Qmult_comm (n # d)). apply Qmult_le_compat_r; [exact Hb0|].
        by apply Qlt_le_weak. }
    rewrite Hmul, <- E1 in H. lra. }
  assert (Hlo : Qpower 2 (51 + k) < n # d).
  { apply Qnot_le_lt. intros Hle.
    assert ((n # d) * inject_Z (Z.pos d) <= Qpower 2 (51 + k) * inject_Z (Z.pos d)).
    { apply Qmult_le_compat_r; [exact Hle|by apply Qlt_le_weak]. }
    assert (Qpower 2 (51 + k) * inject_Z (Z.pos d) < Qpower 2 (51 + k) * Qpower 2 (b + 1)).
    { rewrite !(Qmult_comm (Qpower 2 (51 + k))). by apply Qmult_lt_compat_r. }
    rewrite Hmul in H. rewrite <- E2 in H0. lra. }
  destruct (Qle_bool (Qpower 2 (52 + k)) (n # d)) eqn:E.
  - apply Qle_bool_iff in E. by split.
  - assert (Hlt : n # d < Qpower 2 (52 + k)).
    { apply Qnot_le_lt. intros H. apply Qle_bool_iff in H. congruence. }
    replace (52 + (k - 1))%Z with (51 + k)%Z by lia.
    replace (53 + (k - 1))%Z with (52 + k)%Z by lia.
    split; [by apply Qlt_le_weak|done].
Qed.

Lemma exponent_unique (x : Q) (e : Z) :
  Qpower 2 (52 + e) <= x → x < Qpower 2 (53 + e) → exponent x = e.
Proof.
  intros Hlo Hhi.
  assert (Hx : 0 < x) by (eapply Qlt_le_trans; [apply (pow2_pos (52 + e))|done]).
  destruct (exponent_spec x Hx) as [Hlo' Hhi'].
  assert (52 + e < 53 + exponent x)%Z by (apply pow2_lt_inv; lra).
  assert (52 + exponent x < 53 + e)%Z by (apply pow2_lt_inv; lra).
  lia.
Qed.

Lemma exponent_comp (x y : Q) : x == y → 0 < x → exponent x = exponent y.
Proof.
  intros Hxy Hx. symmetry. apply exponent_unique.
  - rewrite <- Hxy. by apply exponent_spec.
  - rewrite <- Hxy. by apply exponent_spec.
Qed.

Lemma exponent_mono (x y : Q) : 0 < x → x <= y → (exponent x <= exponent y)%Z.
Proof.
  intros Hx Hxy.
  destruct (exponent_spec x Hx) as [Hlo _].
  destruct (exponent_spec y ltac:(lra)) as [_ Hhi].
  assert (52 + exponent x < 53 + exponent y)%Z by (apply pow2_lt_inv; lra).
  lia.
Qed.

Lemma nearestEven_bounds (y : Q) :
  (Qfloor y <= nearestEven y <= Qfloor y + 1)%Z.
Proof.
  unfold nearestEven. destruct (y - inject_Z (Qfloor y) ?= 1 # 2); [|lia|lia].
  destruct (Z.even _); lia.
Qed.

Lemma nearestEven_comp (y y' : Q) : y == y' → nearestEven y = nearestEven y'.
Proof.
  intros H. unfold nearestEven. rewrite (Qfloor_comp _ _ H).
  assert (Hc : (y - inject_Z (Qfloor y') ?= 1 # 2) = (y' - inject_Z (Qfloor y') ?= 1 # 2)).
  { apply Qcompare_comp; [by rewrite H|reflexivity]. }
  by rewrite Hc.
Qed.

Lemma nearestEven_Z (n : Z) : nearestEven (inject_Z n) = n.
Proof.
  unfold nearestEven. rewrite Qfloor_Z.
  assert (Hc : (inject_Z n - inject_Z n ?= 1 # 2) = Lt).
  { apply (proj1 (Qlt_alt _ _)). generalize (inject_Z n). intros q. lra. }
  by rewrite Hc.
Qed.

Lemma nearestEven_mono (y1 y2 : Q) : y1 <= y2 → (nearestEven y1 <= nearestEven y2)%Z.
Proof.
  intros Hle. pose proof (Qfloor_resp_le _ _ Hle) as Hf.
  pose proof (nearestEven_bounds y1) as H1. pose proof (nearestEven_bounds y2) as H2.
  destruct (Z.eq_dec (Qfloor y1) (Qfloor y2)) as [Heq|Hne]; [|lia].
  unfold nearestEven. rewrite Heq. clear H1 H2 Hf.
  set (q := inject_Z (Qfloor y2)). clearbody q.
  destruct (Qcompare_spec (y1 - q) (1 # 2)) as [E1|E1|E1];
    destruct (Qcompare_spec (y2 - q) (1 # 2)) as [E2|E2|E2];
    try (destruct (Z.even _); lia); try lia; exfalso; lra.
Qed.

Lemma roundPositive_eq (x : Q) :
  roundPositive x == inject_Z (nearestEven (x / Qpower 2 (exponent x))) * Qpower 2 (exponent x).
Proof. unfold roundPositive. apply Qred_correct. Qed.

Lemma significand_bounds (x : Q) :
  0 < x →
  (2 ^ 52 <= nearestEven (x / Qpower 2 (exponent x)) <= 2 ^ 53)%Z.
Proof.
  intros Hx. destruct (exponent_spec x Hx) as [Hlo Hhi].
  set (e := exponent x) in *. pose proof (pow2_pos e) as He.
  rewrite pow2_plus in Hlo, Hhi.
  assert (H52 : inject_Z (2 ^ 52) <= x / Qpower 2 e).
  { apply Qle_shift_div_l; [done|]. by rewrite (pow2_Z 52). }
  assert (H53 : x / Qpower 2 e <= inject_Z (2 ^ 53)).
  { apply Qle_shift_div_r; [done|]. rewrite (pow2_Z 53) by done. by apply Qlt_le_weak. }
  apply nearestEven_mono in H52, H53. by rewrite nearestEven_Z in H52, H53.
Qed.

Lemma roundPositive_bounds (x : Q) :
  0 < x →
  Qpower 2 (52 + exponent x) <= roundPositive x ∧ roundPositive x <= Qpower 2 (53 + exponent x).
Proof.
  intros Hx. destruct (significand_bounds x Hx) as [Hlo Hhi].
  rewrite roundPositive_eq, !pow2_plus.
  pose proof (pow2_pos (exponent x)) as He.
  split; (apply Qmult_le_compat_r; [|by apply Qlt_le_weak]).
  - rewrite <- (pow2_Z 52) by done. by rewrite <- Zle_Qle.
  - rewrite <- (pow2_Z 53) by done. by rewrite <- Zle_Qle.
Qed.

Lemma roundPositive_pos (x : Q) : 0 < x → 0 < roundPositive x.
Proof.
  intros Hx. destruct (roundPositive_bounds x Hx) as [Hlo _].
  eapply Qlt_le_trans; [apply pow2_pos|exact Hlo].
Qed.

Lemma roundPositive_mono (x y : Q) :
  0 < x → x <= y → roundPositive x <= roundPositive y.
Proof.
  intros Hx Hxy. assert (Hy : 0 < y) by lra.
  pose proof (exponent_mono x y Hx Hxy) as He.
  destruct (Z.eq_dec (exponent x) (exponent y)) as [Heq|Hne].
  - rewrite !roundPositive_eq, Heq.
    pose proof (pow2_pos (exponent y)) as Hp.
    apply Qmult_le_compat_r; [|by apply Qlt_le_weak].
    rewrite <- Zle_Qle. apply nearestEven_mono.
    apply Qmult_le_compat_r; [done|]. apply Qlt_le_weak. by apply Qinv_lt_0_compat.
  - destruct (roundPositive_bounds x Hx) as [_ Hhi].
    destruct (roundPositive_bounds y Hy) as [Hlo _].
    eapply Qle_trans; [exact Hhi|]. eapply Qle_trans; [|exact Hlo].
    apply pow2_le. lia.
Qed.

Lemma roundPositive_comp (x y : Q) : 0 < x → x == y → roundPositive x = roundPositive y.
Proof.
  intros Hx Hxy. unfold roundPositive. apply Qred_complete.
  rewrite (exponent_comp x y Hxy Hx).
  rewrite (nearestEven_comp (x / Qpower 2 (exponent y)) (y / Qpower 2 (exponent y)));
    [reflexivity|by rewrite Hxy].
Qed.

Lemma Qnum_pos (x : Q) : 0 < x ↔ (0 < Qnum x)%Z.
Proof. unfold Qlt. cbn. lia. Qed.

Lemma Qnum_neg (x : Q) : x < 0 ↔ (Qnum x < 0)%Z.
Proof. unfold Qlt. cbn. lia. Qed.

Lemma Qnum_zero (x : Q) : x == 0 ↔ Qnum x = 0%Z.
Proof. unfold Qeq. cbn. lia. Qed.

Lemma round_0 (x : Q) : x == 0 → round x = 0.
Proof. intros H%Qnum_zero. unfold round. by rewrite H. Qed.

Lemma round_of_pos (x : Q) : 0 < x → round x = roundPositive x.
Proof. intros H%Qnum_pos. unfold round. by destruct (Qnum x). Qed.

Lemma round_of_neg (x : Q) : x < 0 → round x = - roundPositive (- x).
Proof. intros H%Qnum_neg. unfold round. by destruct (Qnum x). Qed.

Lemma round_pos (x : Q) : 0 < x → 0 < round x.
Proof. intros Hx. rewrite round_of_pos by done. by apply roundPositive_pos. Qed.

Lemma round_neg (x : Q) : x < 0 → round x < 0.
Proof.
  intros Hx. rewrite round_of_neg by done.
  pose proof (roundPositive_pos (- x) ltac:(lra)). lra.
Qed.

Lemma round_comp (x y : Q) : x == y → round x = round y.
Proof.
  intros Hxy.
  destruct (Q_dec x 0) as [[Hx|Hx]|Hx].
  - rewrite !round_of_neg by lra. f_equal. apply roundPositive_comp; [lra|by rewrite Hxy].
  - rewrite !round_of_pos by lra. by apply roundPositive_comp.
  - rewrite !round_0; [done|by rewrite <- Hxy|done].
Qed.

Lemma round_opp (x : Q) : round (- x) == - round x.
Proof.
  destruct (Q_dec x 0) as [[Hx|Hx]|Hx].
  - rewrite (round_of_pos (- x)) by lra. rewrite (round_of_neg x) by done. lra.
  - rewrite (round_of_neg (- x)) by lra. rewrite (round_of_pos x) by done.
    rewrite (roundPositive_comp (- - x) x); [reflexivity|lra|lra].
  - rewrite !round_0; [reflexivity|done|lra].
Qed.

Lemma round_le (x y : Q) : x <= y → round x <= round y.
Proof.
  intros Hxy.
  destruct (Q_dec x 0) as [[Hx|Hx]|Hx]; destruct (Q_dec y 0) as [[Hy|Hy]|Hy]; try lra.
  - rewrite !round_of_neg by done.
    pose proof (roundPositive_mono (- y) (- x) ltac:(lra) ltac:(lra)). lra.
  - pose proof (round_neg x Hx). pose proof (round_pos y Hy). lra.
  - pose proof (round_neg x Hx). rewrite (round_0 y Hy). lra.
  - rewrite !round_of_pos by done. by apply roundPositive_mono.
  - pose proof (round_pos y Hy). rewrite (round_0 x Hx). lra.
  - rewrite !round_0 by done. lra.
Qed.

Lemma round_nonneg (x : Q) : 0 <= x → 0 <= round x.
Proof. intros H. apply round_le in H. by rewrite (round_0 0) in H. Qed.

Lemma round_nonpos (x : Q) : x <= 0 → round x <= 0.
Proof. intros H. apply round_le in H. by rewrite (round_0 0) in H. Qed.

(** Integers of at most 53 bits are numbers: rounding leaves them as
    they are. *)
Lemma round_Z (n : Z) : (Z.abs n <= 2 ^ 53)%Z → round (inject_Z n) == inject_Z n.
Proof.
  assert (Hpos : ∀ n, (0 < n <= 2 ^ 53)%Z → roundPositive (inject_Z n) == inject_Z n).
  { clear n. intros n [Hn0 Hn1].
    assert (Hx : 0 < inject_Z n) by (rewrite <- (Zlt_Qlt 0); lia).
    destruct (exponent_spec _ Hx) as [Hlo Hhi].
    set (e := exponent (inject_Z n)) in *.
    pose proof (pow2_pos e) as He.
    rewrite roundPositive_eq. fold e.
    destruct (Z_le_gt_dec e 0) as [Hle|Hgt].
    - (* the quotient is the integer [n * 2 ^ (- e)] *)
      assert (Hq : inject_Z n / Qpower 2 e == inject_Z (n * 2 ^ (- e))).
      { rewrite inject_Z_mult, pow2_Z by lia. rewrite Qpower_opp. by field; apply Qpower_not_0. }
      rewrite (nearestEven_comp _ _ Hq), nearestEven_Z.
      rewrite inject_Z_mult, pow2_Z by lia. rewrite Qpower_opp. by field; apply Qpower_not_0.
    - (* only [n = 2 ^ 53] has a positive exponent *)
      assert (He1 : e = 1%Z).
      { assert (Qpower 2 (52 + e) <= Qpower 2 53).
        { eapply Qle_trans; [exact Hlo|]. rewrite <- (pow2_Z 53) by done. rewrite <- Zle_Qle. lia. }
        destruct (Z_le_gt_dec e 1) as [?|Hgt1]; [lia|].
        pose proof (pow2_lt 53 (52 + e) ltac:(lia)). lra. }
      assert (Hn : n = (2 ^ 53)%Z).
      { rewrite He1 in Hlo. change (52 + 1)%Z with 53%Z in Hlo.
        rewrite <- (pow2_Z 53) in Hlo by done. rewrite <- Zle_Qle in Hlo.
        lia. }
      rewrite He1, Hn. vm_compute. reflexivity. }
  intros Hn. destruct (Z.lt_trichotomy n 0) as [Hneg|[->|Hp]].
  - rewrite round_of_neg by (rewrite <- (Zlt_Qlt _ 0); lia).
    rewrite <- inject_Z_opp. rewrite Hpos by lia. rewrite inject_Z_opp. lra.
  - reflexivity.
  - rewrite round_of_pos by (rewrite <- (Zlt_Qlt 0); lia). apply Hpos. lia.
Qed.

Lemma round_1 : round 1 = 1.
Proof. reflexivity. Qed.

Lemma roundPositive_idem (x : Q) :
  0 < x → roundPositive (roundPositive x) == roundPositive x.
Proof.
  intros Hx. destruct (significand_bounds x Hx) as [Hm0 Hm1].
  pose proof (roundPositive_eq x) as Hy.
  set (e := exponent x) in *. set (m := nearestEven (x / Qpower 2 e)) in *.
  set (y := roundPositive x) in *. clearbody y.
  pose proof (pow2_pos e) as He.
  assert (Hne : ¬ Qpower 2 e == 0) by (intros H; rewrite H in He; by apply Qlt_irrefl in He).
  assert (Hlo : Qpower 2 (52 + e) <= y).
  { rewrite Hy, pow2_plus. apply Qmult_le_compat_r; [|by apply Qlt_le_weak].
    rewrite <- (pow2_Z 52) by done. by rewrite <- Zle_Qle. }
  destruct (Z_lt_le_dec m (2 ^ 53)) as [Hlt|Hge].
  - assert (Hhi : y < Qpower 2 (53 + e)).
    { rewrite Hy, pow2_plus. apply Qmult_lt_compat_r; [done|].
      rewrite <- (pow2_Z 53) by done. by rewrite <- Zlt_Qlt. }
    rewrite roundPositive_eq. rewrite (exponent_unique y e Hlo Hhi).
    rewrite (nearestEven_comp (y / Qpower 2 e) (inject_Z m)).
    + rewrite nearestEven_Z. by rewrite Hy.
    + rewrite Hy. by field.
  - assert (Hm : m = (2 ^ 53)%Z) by lia.
    assert (Hy' : y == Qpower 2 (52 + (e + 1))).
    { rewrite Hy, Hm. rewrite (pow2_Z 53) by done. rewrite <- pow2_plus.
      apply Qpower_comp; [reflexivity|lia]. }
    assert (He1 : exponent y = (e + 1)%Z).
    { apply exponent_unique; [rewrite Hy'; apply Qle_refl|].
      rewrite Hy'. apply pow2_lt. lia. }
    rewrite roundPositive_eq, He1.
    pose proof (pow2_pos (e + 1)) as He'.
    rewrite (nearestEven_comp (y / Qpower 2 (e + 1)) (inject_Z (2 ^ 52))).
    + rewrite nearestEven_Z. rewrite Hy'. rewrite (pow2_Z 52) by done.
      symmetry. apply pow2_plus.
    + rewrite Hy', pow2_plus. rewrite (pow2_Z 52) by done. field.
      intros H. rewrite H in He'. by apply Qlt_irrefl in He'.
Qed.

(** A rounded result is a number: rounding it again changes nothing. *)
Lemma round_idem (x : Q) : round (round x) == round x.
Proof.
  destruct (Q_dec x 0) as [[Hx|Hx]|Hx].
  - rewrite (round_of_neg x Hx).
    pose proof (roundPositive_pos (- x) ltac:(lra)) as Hp.
    rewrite round_of_neg by lra.
    rewrite (roundPositive_comp (- - roundPositive (- x)) (roundPositive (- x))); [|lra|lra].
    rewrite roundPositive_idem by lra. reflexivity.
  - rewrite (round_of_pos x Hx). pose proof (roundPositive_pos x Hx) as Hp.
    rewrite round_of_pos by done. by apply roundPositive_idem.
  - rewrite (round_0 x Hx). reflexivity.
Qed.

Lemma ofZ_le (a b : Z) : (a <= b)%Z → ofZ a <= ofZ b.
Proof. intros H. apply round_le. by rewrite <- Zle_Qle. Qed.

Lemma ofZ_nonneg (z : Z) : (0 <= z)%Z → 0 <= ofZ z.
Proof. intros H. apply round_nonneg. by rewrite <- (Zle_Qle 0). Qed.

Lemma ofZ_pos (z : Z) : (0 < z)%Z → 0 < ofZ z.
Proof. intros H. apply round_pos. by rewrite <- (Zlt_Qlt 0). Qed.

Lemma ofZ_idem (z : Z) : round (ofZ z) == ofZ z.
Proof. apply round_idem. Qed.

(** Up to 2^53 an integer is the number it is. *)
Lemma ofZ_exact (z : Z) : (Z.abs z <= 2 ^ 53)%Z → ofZ z == inject_Z z.
Proof. apply round_Z. Qed.

Lemma ofZ_le_exact (a b : Z) : (a <= b)%Z → (Z.abs b <= 2 ^ 53)%Z → ofZ a <= inject_Z b.
Proof. intros Hab Hb. rewrite <- (ofZ_exact b Hb). by apply ofZ_le. Qed.

Lemma ofZ_ge_exact (a b : Z) : (a <= b)%Z → (Z.abs a <= 2 ^ 53)%Z → inject_Z a <= ofZ b.
Proof. intros Hab Ha. rewrite <- (ofZ_exact a Ha). by apply ofZ_le. Qed.

Lemma nearestEven_error (y : Q) :
  y - (1 # 2) <= inject_Z (nearestEven y) ∧ inject_Z (nearestEven y) <= y + (1 # 2).
Proof.
  pose proof (Qfloor_le y) as Hlo. pose proof (Qlt_floor y) as Hhi.
  rewrite inject_Z_plus in Hhi. change (inject_Z 1) with 1 in Hhi.
  unfold nearestEven.
  destruct (Qcompare_spec (y - inject_Z (Qfloor y)) (1 # 2)) as [E|E|E];
    [destruct (Z.even _)|..]; rewrite ?inject_Z_plus; change (inject_Z 1) with 1;
    set (f := inject_Z (Qfloor y)) in *; clearbody f; split; lra.
Qed.

(** Rounding moves a non-negative number by at most one part in 2^53. *)
Lemma round_error (x : Q) :
  0 <= x →
  x - x * (1 # 2 ^ 53) <= round x ∧ round x <= x + x * (1 # 2 ^ 53).
Proof.
  intros Hx0. destruct (Qle_lt_or_eq _ _ Hx0) as [Hx|Hx].
  2:{ rewrite (round_0 x) by (symmetry; exact Hx). rewrite <- Hx. split; lra. }
  rewrite round_of_pos by done. rewrite roundPositive_eq.
  destruct (exponent_spec x Hx) as [Hlo _].
  set (e := exponent x) in *. pose proof (pow2_pos e) as He.
  destruct (nearestEven_error (x / Qpower 2 e)) as [Hm0 Hm1].
  set (m := inject_Z (nearestEven (x / Qpower 2 e))) in *. clearbody m.
  rewrite pow2_plus in Hlo.
  assert (H52 : Qpower 2 52 == 4503599627370496) by reflexivity.
  rewrite H52 in Hlo.
  change (1 # 2 ^ 53) with (1 # 9007199254740992).
  set (g := Qpower 2 e) in *. clearbody g.
  assert (Hmg0 : x - g * (1 # 2) <= m * g).
  { assert (E0 : x - g * (1 # 2) == (x / g - (1 # 2)) * g) by (field; lra).
    rewrite E0. apply Qmult_le_compat_r; lra. }
  assert (Hmg1 : m * g <= x + g * (1 # 2)).
  { assert (E1 : x + g * (1 # 2) == (x / g + (1 # 2)) * g) by (field; lra).
    rewrite E1. apply Qmult_le_compat_r; lra. }
  set (mg := m * g) in *. clearbody mg. clear Hm0 Hm1 H52. clearbody e.
  split; lra.
Qed.

End DoubleFacts.

(** ** MemoryStore *)

Section MemoryStoreFacts.
Context {V : Type}.
Implicit Types (s : MemoryStore.t V) (k : string) (v : V).
Import MemoryStore.

Lemma prefixedKey_inj s k1 k2 : prefixedKey s k1 = prefixedKey s k2 → k1 = k2.
Proof. unfold prefixedKey. apply String.app_inj. Qed.

Lemma prefixedKey_ne s k1 k2 : k1 ≠ k2 → prefixedKey s k1 ≠ prefixedKey s k2.
Proof. intros Hne Heq. apply Hne. eapply prefixedKey_inj, Heq. Qed.

Lemma get_set_eq s k v ttl now :
  get (set s k v ttl now) k = Some (Entry v (now + ttl)).
Proof. unfold get, set, prefixedKey. simpl. apply lookup_insert_eq. Qed.

Lemma get_set_ne s k k' v ttl now :
  k ≠ k' → get (set s k v ttl now) k' = get s k'.
Proof.
  intros Hne. unfold get, set. simpl.
  apply lookup_insert_ne. apply (prefixedKey_ne s), Hne.
Qed.

Lemma get_assign_eq s k v :
  get (assign s k v) k = (λ e, Entry v (_expireAt e)) <$> get s k.
Proof. unfold get, assign. simpl. apply lookup_alter_eq. Qed.

Lemma get_assign_ne s k k' v : k ≠ k' → get (assign s k v) k' = get s k'.
Proof.
  intros Hne. unfold get, assign. simpl.
  apply lookup_alter_ne. apply (prefixedKey_ne s), Hne.
Qed.

Lemma assign_absent s k v : get s k = None → assign s k v = s.
Proof.
  unfold get, assign. destruct s as [p m]. simpl. intros Hnone.
  f_equal. apply map_eq. intros i.
  destruct (decide (prefixedKey (Make p m) k = i)) as [<-|Hne].
  - rewrite lookup_alter_eq. simpl in *. unfold prefixedKey in *. simpl in *. by rewrite Hnone.
  - by rewrite lookup_alter_ne.
Qed.

Lemma set_assign s k v v' ttl now :
  set (assign s k v) k v' ttl now = set s k v' ttl now.
Proof.
  unfold set, assign, prefixedKey. simpl. f_equal.
  apply map_eq. intros i.
  destruct (decide (keyPrefix s +:+ k = i)) as [<-|Hne].
  - by rewrite !lookup_insert_eq.
  - rewrite !lookup_insert_ne by done. by rewrite lookup_alter_ne.
Qed.

Lemma get_del_eq s k : get (del s k) k = None.
Proof. unfold get, del. simpl. apply lookup_delete_eq. Qed.

Lemma get_del_ne s k k' : k ≠ k' → get (del s k) k' = get s k'.
Proof.
  intros Hne. unfold get, del. simpl.
  apply lookup_delete_ne. apply (prefixedKey_ne s), Hne.
Qed.

Lemma get_gc s k now e :
  get (gc s now) k = Some e ↔ get s k = Some e ∧ expired now e = false.
Proof. unfold get, gc. simpl. apply map_lookup_filter_Some. Qed.

End MemoryStoreFacts.




(** After the sweep that follows the expiry, the entry of the
    example is gone. *)
Example gc_removes_expired :
  let s := MemoryStore.set (MemoryStore.new "flame-limit:") "ip:token"
                           (mkBucket 10 0 1000) 2000 0 in
  MemoryStore.get (MemoryStore.gc s 60000) "ip:token" = None
  ∧ MemoryStore.get (MemoryStore.gc s 1000) "ip:token" = MemoryStore.get s "ip:token".
Proof. split; vm_compute; reflexivity. Qed.

(** ** Fixed window *)

Section FixedWindowFacts.
Import FixedWindowStrategy.
Implicit Types (self : FixedWindowStrategy.t) (st : MemoryStore.t CounterRecord).

Lemma fixed_consume_limited self key weight now st :
  limit self < count (loaded self key now st) + weight →
  consume self key weight now st
  = (mkDecision true
       (Z.max 0 (limit self - (count (loaded self key now st) + weight)))
       (cr_resetTime (loaded self key now st)) 0 None None,
     st).
Proof.
  intros Hlt. unfold consume. fold (loaded self key now st).
  apply Z.ltb_lt in Hlt. rewrite Hlt. reflexivity.
Qed.

Lemma fixed_consume_accepted self key weight now st :
  count (loaded self key now st) + weight <= limit self →
  consume self key weight now st
  = (mkDecision false
       (Z.max 0 (limit self - (count (loaded self key now st) + weight)))
       (cr_resetTime (loaded self key now st)) weight None None,
     MemoryStore.set st (storeKey self key now)
       (mkRecord (count (loaded self key now st) + weight)
                 (cr_resetTime (loaded self key now st)))
       (windowMs self) now).
Proof.
  intros Hle. unfold consume. fold (loaded self key now st).
  apply Z.ltb_ge in Hle. rewrite Hle. simpl.
  by rewrite set_assign.
Qed.

End FixedWindowFacts.

(** C3, as stated, at a concrete input: with [limit = 5] and a stored
    count of 3, a call of weight 5 is rejected and reports
    [remaining = 0], not [max (0, limit - record.count) = 2]. *)
Lemma C3_rejection_remaining_is_not_pre_count :
  let self := FixedWindowStrategy.Make 5 1000 in
  let st0 : MemoryStore.t CounterRecord := MemoryStore.new "flame-limit:" in
  let st := (FixedWindowStrategy.consume self "ip" 3 0 st0).2 in
  let record := FixedWindowStrategy.loaded self "ip" 10 st in
  let d := (FixedWindowStrategy.consume self "ip" 5 10 st).1 in
  count record = 3
  ∧ FixedWindowStrategy.limit self < count record + 5
  ∧ limited d = true
  ∧ consumed d = 0
  ∧ remaining d = 0
  ∧ Z.max 0 (FixedWindowStrategy.limit self - count record) = 2.
Proof. vm_compute. repeat split; reflexivity. Qed.

(** C3 (amended): whenever a fixed-window [consume] of weight [w] finds
    [record.count + w > limit], it rejects with [consumed = 0] and
    [remaining = max (0, limit - (record.count + w)) = 0]: the reported
    remaining is computed from the count the call would have reached,
    and the store is left as it was. *)
Theorem C3_fixed_rejection (self : FixedWindowStrategy.t) (key : string)
    (weight now : Z) (st : MemoryStore.t CounterRecord) :
  let record := FixedWindowStrategy.loaded self key now st in
  FixedWindowStrategy.limit self < count record + weight →
  let d := (FixedWindowStrategy.consume self key weight now st).1 in
  limited d = true
  ∧ consumed d = 0
  ∧ remaining d = Z.max 0 (FixedWindowStrategy.limit self - (count record + weight))
  ∧ remaining d = 0
  ∧ (FixedWindowStrategy.consume self key weight now st).2 = st.
Proof.
  intros record Hlt d. subst d record.
  rewrite (fixed_consume_limited _ _ _ _ _ Hlt). simpl.
  repeat split; try reflexivity. lia.
Qed.

Lemma C3_fixed_rejection_witness :
  let self := FixedWindowStrategy.Make 5 1000 in
  let st := MemoryStore.set (MemoryStore.new "flame-limit:") "ip:0" (mkRecord 3 1000) 1000 0 in
  let d := (FixedWindowStrategy.consume self "ip" 5 10 st).1 in
  limited d = true ∧ consumed d = 0
  ∧ remaining d = Z.max 0 (5 - (3 + 5)) ∧ remaining d = 0
  ∧ (FixedWindowStrategy.consume self "ip" 5 10 st).2 = st.
Proof.
  intros self st.
  apply (C3_fixed_rejection self "ip" 5 10 st).
  vm_compute. reflexivity.
Defined.

(** ** Token bucket *)

Section TokenBucketFacts.
Import TokenBucketStrategy.
Implicit Types (self : TokenBucketStrategy.t) (st : MemoryStore.t TokenBucket).

Lemma token_consume_limited self key weight now st :
  let b := refill self (loaded self key now st) now in
  Qlt_bool (tokens b) (Double.ofZ weight) = true →
  consume self key weight now st
  = (mkDecision true (Qfloor (Qmax 0 (Double.sub (tokens b) (Double.ofZ weight))))
       (now + Qceiling (Double.div (Double.sub (Double.ofZ weight) (tokens b))
                                   (refillRate self)))
       0 None None,
     afterRefill self key now st).
Proof.
  intros b Hlt. subst b. revert Hlt.
  unfold consume, afterRefill, refill. fold (loaded self key now st).
  destruct (0 <? now - lastRefill (loaded self key now st)); simpl;
    intros ->; reflexivity.
Qed.

Lemma token_consume_accepted self key weight now st :
  let b := refill self (loaded self key now st) now in
  Qlt_bool (tokens b) (Double.ofZ weight) = false →
  let resetTime' :=
    if Qeq_bool (Double.sub (tokens b) (Double.ofZ weight)) 0
    then now + Qceiling (Double.div (Double.ofZ weight) (refillRate self))
    else tb_resetTime b in
  consume self key weight now st
  = (mkDecision false (Qfloor (Qmax 0 (Double.sub (tokens b) (Double.ofZ weight))))
       resetTime' weight None None,
     MemoryStore.set st (storeKey key)
       (mkBucket (Double.sub (tokens b) (Double.ofZ weight)) (lastRefill b) resetTime')
       (windowMs self * 2) now).
Proof.
  intros b Hlt. subst b. revert Hlt.
  unfold consume, refill. fold (loaded self key now st).
  destruct (0 <? now - lastRefill (loaded self key now st)); simpl;
    intros ->; simpl; by rewrite !set_assign.
Qed.

End TokenBucketFacts.

(** ** Sliding window *)

Section SlidingWindowFacts.
Import SlidingWindowStrategy.
Implicit Types (self : SlidingWindowStrategy.t) (st : MemoryStore.t CounterRecord).

(** [currentRecord.count + weight + effectivePreviousCount] *)
Lemma sliding_consume_limited self key weight now st :
  let c := loadedCurrent self key now st in
  let eff := effectivePreviousCount self (loadedPreviousCount self key now st) now in
  limit self < eff + (count c + weight) →
  consume self key weight now st
  = (mkDecision true (Z.max 0 (limit self - (eff + (count c + weight))))
       (cr_resetTime c) 0 (Some (count c)) (Some eff),
     st).
Proof.
  intros c eff Hlt. subst c eff. unfold consume.
  fold (loadedCurrent self key now st). fold (loadedPreviousCount self key now st).
  apply Z.ltb_lt in Hlt. rewrite Hlt. reflexivity.
Qed.

Lemma sliding_consume_accepted self key weight now st :
  let c := loadedCurrent self key now st in
  let eff := effectivePreviousCount self (loadedPreviousCount self key now st) now in
  eff + (count c + weight) <= limit self →
  consume self key weight now st
  = (mkDecision false (Z.max 0 (limit self - (eff + (count c + weight))))
       (cr_resetTime c) weight (Some (count c + weight)) (Some eff),
     MemoryStore.set st (currentKey self key now)
       (mkRecord (count c + weight) (cr_resetTime c)) (windowMs self * 2) now).
Proof.
  intros c eff Hle. subst c eff. unfold consume.
  fold (loadedCurrent self key now st). fold (loadedPreviousCount self key now st).
  apply Z.ltb_ge in Hle. rewrite Hle. simpl. by rewrite set_assign.
Qed.

Lemma windowMs_new_nonzero options : windowMs (new options) ≠ 0.
Proof.
  unfold new, js_or. simpl. destruct (opt_windowMs options) as [v|]; [|lia].
  destruct (v =? 0) eqn:E; [lia|]. by apply Z.eqb_neq.
Qed.

Lemma currentKey_ne_previousKey self key now :
  windowMs self ≠ 0 → currentKey self key now ≠ previousKey self key now.
Proof.
  intros Hw Heq. unfold currentKey, previousKey, previousWindow in Heq.
  apply String.app_inj in Heq. apply String.app_inj in Heq.
  apply (inj pretty) in Heq. lia.
Qed.

Lemma effectivePreviousCount_0 self now : effectivePreviousCount self 0 now = 0.
Proof.
  unfold effectivePreviousCount, Double.mul.
  rewrite (round_0 (Double.ofZ 0 * _)%Q); [reflexivity|].
  change (Double.ofZ 0) with 0%Q. ring.
Qed.

(** On integers the formula of the specification is an integer
    division. *)
Lemma effectivePreviousCount_spec_div self previousCount now :
  0 < windowMs self →
  effectivePreviousCount_spec self previousCount now
  = previousCount * (windowMs self - (now - currentWindow self now)) / windowMs self.
Proof.
  intros Hw. unfold effectivePreviousCount_spec.
  set (e := now - currentWindow self now).
  rewrite Zdiv_Qdiv. apply Qfloor_comp.
  rewrite inject_Z_mult.
  replace (windowMs self - e) with (windowMs self + - e) by lia.
  rewrite inject_Z_plus, inject_Z_opp. field.
  intros H. unfold Qeq in H. simpl in H. lia.
Qed.

Lemma elapsed_in_window self now :
  0 < windowMs self → 0 <= now - currentWindow self now < windowMs self.
Proof.
  intros Hw. unfold currentWindow.
  pose proof (Z.mod_pos_bound now (windowMs self) Hw) as Hm.
  rewrite Z.mod_eq in Hm by lia. lia.
Qed.

(** The program's blend and the formula over the rationals differ by
    less than 1 before the floor is taken, for counts up to 2^50 and a
    window up to 2^53 ms: three roundings of one part in 2^53 each. *)
Lemma blend_near_exact self p now :
  0 < windowMs self → windowMs self <= 2 ^ 53 → 0 <= p → p <= 2 ^ 50 →
  Z.abs (effectivePreviousCount self p now - effectivePreviousCount_spec self p now) <= 1.
Proof.
  intros HW HW53 Hp0 Hp50.
  pose proof (elapsed_in_window self now HW) as [He0 He1].
  unfold effectivePreviousCount, effectivePreviousCount_spec.
  set (e := now - currentWindow self now) in *.
  assert (HE : (Double.ofZ e == inject_Z e)%Q) by (apply ofZ_exact; lia).
  assert (HWq : (Double.ofZ (windowMs self) == inject_Z (windowMs self))%Q)
    by (apply ofZ_exact; lia).
  assert (HP : (Double.ofZ p == inject_Z p)%Q) by (apply ofZ_exact; lia).
  assert (HW0 : (0 < inject_Z (windowMs self))%Q) by (rewrite <- (Zlt_Qlt 0); lia).
  assert (HE0 : (0 <= inject_Z e)%Q) by (rewrite <- (Zle_Qle 0); lia).
  assert (HEW : (inject_Z e <= inject_Z (windowMs self))%Q) by (rewrite <- Zle_Qle; lia).
  assert (HP0 : (0 <= inject_Z p)%Q) by (rewrite <- (Zle_Qle 0); lia).
  assert (HP50 : (inject_Z p <= 1125899906842624)%Q).
  { change 1125899906842624%Q with (inject_Z (2 ^ 50)). rewrite <- Zle_Qle. lia. }
  unfold Double.mul, Double.sub, Double.div.
  rewrite (round_comp (Double.ofZ e / Double.ofZ (windowMs self))
                      (inject_Z e / inject_Z (windowMs self)))%Q by (by rewrite HE, HWq).
  set (E := inject_Z e) in *. set (W := inject_Z (windowMs self)) in *.
  set (P := inject_Z p) in *. clearbody E W P.
  set (q := (E / W)%Q).
  assert (Hq0 : (0 <= q)%Q).
  { subst q. apply Qle_shift_div_l; [done|]. by rewrite Qmult_0_l. }
  assert (Hq1 : (q <= 1)%Q).
  { subst q. apply Qle_shift_div_r; [done|]. by rewrite Qmult_1_l. }
  clearbody q.
  destruct (round_error q Hq0) as [Hqa Hqb].
  pose proof (round_le _ _ Hq1) as Hq1'. rewrite round_1 in Hq1'.
  change (1 # 2 ^ 53)%Q with (1 # 9007199254740992)%Q in *.
  set (q' := Double.round q) in *. clearbody q'.
  assert (Hr0 : (0 <= 1 - q')%Q) by lra.
  destruct (round_error (1 - q') Hr0) as [Hra Hrb].
  change (1 # 2 ^ 53)%Q with (1 # 9007199254740992)%Q in *.
  set (r' := Double.round (1 - q')) in *. clearbody r'.
  rewrite (round_comp (Double.ofZ p * r') (P * r'))%Q by (by rewrite HP).
  assert (Hr'0 : (0 <= r')%Q) by lra.
  assert (Hv0 : (0 <= P * r')%Q) by (by apply Qmult_le_0_compat).
  destruct (round_error (P * r') Hv0) as [Hva Hvb].
  change (1 # 2 ^ 53)%Q with (1 # 9007199254740992)%Q in *.
  set (v' := Double.round (P * r')) in *. clearbody v'.
  (* [P * r'] against [P * (1 - q)] *)
  assert (Hup : (P * r' <= P * (1 - q + (2 # 9007199254740992)))%Q).
  { rewrite !(Qmult_comm P). apply Qmult_le_compat_r; [lra|done]. }
  assert (Hlo : (P * (1 - q - (2 # 9007199254740992)) <= P * r')%Q).
  { rewrite !(Qmult_comm P). apply Qmult_le_compat_r; [lra|done]. }
  assert (HvP : (P * r' <= P * (1 + (1 # 9007199254740992)))%Q).
  { rewrite !(Qmult_comm P). apply Qmult_le_compat_r; [lra|done]. }
  assert (Eup : (P * (1 - q + (2 # 9007199254740992))
                 == P * (1 - q) + P * (2 # 9007199254740992))%Q) by ring.
  assert (Elo : (P * (1 - q - (2 # 9007199254740992))
                 == P * (1 - q) - P * (2 # 9007199254740992))%Q) by ring.
  assert (EvP : (P * (1 + (1 # 9007199254740992)) == P + P * (1 # 9007199254740992))%Q)
    by ring.
  rewrite Eup in Hup. rewrite Elo in Hlo. rewrite EvP in HvP.
  assert (Hvu : (P * r' * (1 # 9007199254740992)
                 <= (P + P * (1 # 9007199254740992)) * (1 # 9007199254740992))%Q).
  { apply Qmult_le_compat_r; [done|lra]. }
  assert (Ex : ((P + P * (1 # 9007199254740992)) * (1 # 9007199254740992)
                == P * ((1 # 9007199254740992) + (1 # 9007199254740992) * (1 # 9007199254740992)))%Q)
    by ring.
  rewrite Ex in Hvu.
  pose proof (Qfloor_le v') as Hf1. pose proof (Qlt_floor v') as Hf2.
  pose proof (Qfloor_le (P * (1 - q))) as Hg1. pose proof (Qlt_floor (P * (1 - q))) as Hg2.
  rewrite inject_Z_plus in Hf2, Hg2. change (inject_Z 1) with 1%Q in Hf2, Hg2.
  set (x := (P * (1 - q))%Q) in *. set (v := (P * r')%Q) in *.
  set (a := Qfloor v') in *. set (b := Qfloor x) in *.
  assert (Hab : (inject_Z a < inject_Z (b + 2))%Q ∧ (inject_Z b < inject_Z (a + 2))%Q).
  { rewrite !inject_Z_plus. change (inject_Z 2) with 2%Q.
    set (A := inject_Z a) in *. set (B := inject_Z b) in *.
    set (t1 := (P * (2 # 9007199254740992))%Q) in *.
    set (t2 := (P * ((1 # 9007199254740992)
                     + (1 # 9007199254740992) * (1 # 9007199254740992)))%Q) in *.
    set (t3 := (v * (1 # 9007199254740992))%Q) in *.
    assert (Ht1 : (0 <= t1 <= 1 # 4)%Q).
    { subst t1. split; [apply Qmult_le_0_compat; [done|lra]|].
      apply Qle_trans with (1125899906842624 * (2 # 9007199254740992))%Q; [|by vm_compute].
      apply Qmult_le_compat_r; [done|lra]. }
    assert (Ht2 : (0 <= t2 <= 1 # 4)%Q).
    { subst t2. split; [apply Qmult_le_0_compat; [done|by vm_compute]|].
      apply Qle_trans with (1125899906842624
                            * ((1 # 9007199254740992)
                               + (1 # 9007199254740992) * (1 # 9007199254740992)))%Q;
        [|by vm_compute].
      apply Qmult_le_compat_r; [done|by vm_compute]. }
    clearbody A B t1 t2 t3 x v. split; lra. }
  destruct Hab as [H1 H2]. rewrite <- Zlt_Qlt in H1, H2. lia.
Qed.

End SlidingWindowFacts.

(** ** Decisions of the three strategies *)

Lemma Qlt_bool_true_iff (a b : Q) :
  TokenBucketStrategy.Qlt_bool a b = true ↔ (a < b)%Q.
Proof.
  unfold TokenBucketStrategy.Qlt_bool. rewrite negb_true_iff.
  split.
  - intros H. apply Qnot_le_lt. intros Hle. apply Qle_bool_iff in Hle. congruence.
  - intros H. destruct (Qle_bool b a) eqn:E; [|done].
    apply Qle_bool_iff in E. exfalso. by apply (Qlt_not_le a b).
Qed.

Lemma Qlt_bool_false_iff (a b : Q) :
  TokenBucketStrategy.Qlt_bool a b = false ↔ (b <= a)%Q.
Proof.
  unfold TokenBucketStrategy.Qlt_bool. rewrite negb_false_iff. apply Qle_bool_iff.
Qed.

Lemma Qfloor_Qmax_0_neg (x : Q) : (x < 0)%Q → Qfloor (Qmax 0 x) = 0.
Proof.
  intros Hx. rewrite (Qfloor_comp (Qmax 0 x) 0); [reflexivity|].
  apply Q.max_l. by apply Qlt_le_weak.
Qed.

(** C5: for each of the three strategies and every call, the decision
    has [consumed = 0] when [limited] is true and [consumed = weight]
    when it is false. *)
Theorem C5_consumed_follows_limited (s : Strategy.t) (key : string)
    (weight now : Z) (st : Strategy.state s) :
  let d := (Strategy.consume s key weight now st).1 in
  consumed d = if limited d then 0 else weight.
Proof.
  destruct s as [self|self|self]; simpl in *.
  - unfold FixedWindowStrategy.consume.
    destruct (_ <? _); reflexivity.
  - unfold SlidingWindowStrategy.consume.
    destruct (_ <? _); reflexivity.
  - unfold TokenBucketStrategy.consume.
    destruct (0 <? _); simpl; destruct (TokenBucketStrategy.Qlt_bool _ _); reflexivity.
Qed.

(** C10: for each of the three strategies, a decision with
    [limited = true] has [remaining = 0]: [remaining] is the clamp at
    zero of the limit minus the count the call would have reached (of
    the tokens minus the weight), which is negative on a rejection. *)
Theorem C10_limited_remaining_zero (s : Strategy.t) (key : string)
    (weight now : Z) (st : Strategy.state s) :
  limited (Strategy.consume s key weight now st).1 = true →
  remaining (Strategy.consume s key weight now st).1 = 0.
Proof.
  destruct s as [self|self|self]; simpl in *.
  - unfold FixedWindowStrategy.consume.
    destruct (_ <? _) eqn:E; simpl; [|discriminate].
    intros _. apply Z.ltb_lt in E. lia.
  - unfold SlidingWindowStrategy.consume.
    destruct (_ <? _) eqn:E; simpl; [|discriminate].
    intros _. apply Z.ltb_lt in E. lia.
  - set (b := TokenBucketStrategy.refill self (TokenBucketStrategy.loaded self key now st) now).
    destruct (TokenBucketStrategy.Qlt_bool (tokens b) (Double.ofZ weight)) eqn:E.
    + rewrite (token_consume_limited self key weight now st E). simpl. intros _.
      apply Qfloor_Qmax_0_neg. apply Qlt_bool_true_iff in E.
      fold b. clearbody b. apply round_neg. lra.
    + rewrite (token_consume_accepted self key weight now st E). simpl. discriminate.
Qed.

Lemma C10_limited_remaining_zero_witness :
  let s := Strategy.Sliding (SlidingWindowStrategy.Make 10 1000) in
  let st : Strategy.state s :=
    MemoryStore.set (MemoryStore.new "flame-limit:") "ip:0" (mkRecord 10 1000) 2000 999 in
  limited (Strategy.consume s "ip" 1 1000 st).1 = true
  ∧ remaining (Strategy.consume s "ip" 1 1000 st).1 = 0.
Proof.
  intros s st. split.
  - vm_compute. reflexivity.
  - apply (C10_limited_remaining_zero s "ip" 1 1000 st). vm_compute. reflexivity.
Defined.

(** C9: for each strategy and identity, with [limit >= 1], [resetKey]
    followed at the same instant by a [consume] of weight 1 is
    admitted, whatever the store held before. *)
Theorem C9_reset_then_consume_passes (s : Strategy.t) (key : string)
    (now : Z) (st : Strategy.state s) :
  1 <= Strategy.limit s →
  limited (Strategy.consume s key 1 now (Strategy.resetKey s key now st)).1 = false.
Proof.
  destruct s as [self|self|self]; simpl in *; intros Hlimit.
  - rewrite fixed_consume_accepted; [reflexivity|].
    unfold FixedWindowStrategy.loaded, FixedWindowStrategy.resetKey.
    rewrite get_del_eq. simpl. lia.
  - assert (Hcur : SlidingWindowStrategy.loadedCurrent self key now
                     (SlidingWindowStrategy.resetKey self key now st)
                   = mkRecord 0 (SlidingWindowStrategy.currentWindow self now
                                 + SlidingWindowStrategy.windowMs self)).
    { unfold SlidingWindowStrategy.loadedCurrent, SlidingWindowStrategy.resetKey.
      destruct (decide (SlidingWindowStrategy.previousKey self key now
                        = SlidingWindowStrategy.currentKey self key now)) as [->|Hne].
      - by rewrite get_del_eq.
      - rewrite get_del_ne by done. by rewrite get_del_eq. }
    assert (Hprev : SlidingWindowStrategy.loadedPreviousCount self key now
                      (SlidingWindowStrategy.resetKey self key now st) = 0).
    { unfold SlidingWindowStrategy.loadedPreviousCount, SlidingWindowStrategy.resetKey.
      by rewrite get_del_eq. }
    rewrite sliding_consume_accepted; [reflexivity|].
    rewrite Hcur, Hprev, effectivePreviousCount_0. simpl. lia.
  - assert (Hb : TokenBucketStrategy.refill self
                   (TokenBucketStrategy.loaded self key now
                      (TokenBucketStrategy.resetKey key st)) now
                 = mkBucket (Double.ofZ (TokenBucketStrategy.limit self)) now
                            (now + TokenBucketStrategy.windowMs self)).
    { unfold TokenBucketStrategy.loaded, TokenBucketStrategy.resetKey.
      rewrite get_del_eq. unfold TokenBucketStrategy.refill. simpl.
      rewrite Z.sub_diag. reflexivity. }
    rewrite token_consume_accepted; [reflexivity|].
    rewrite Hb. simpl. apply Qlt_bool_false_iff.
    apply ofZ_le. exact Hlimit.
Qed.

Lemma C9_reset_then_consume_passes_witness :
  let s := Strategy.Token (TokenBucketStrategy.new (mkStrategyOptions (Some 10) (Some 1000))) in
  let st0 : Strategy.state s := MemoryStore.new "flame-limit:" in
  let st := (Strategy.consume s "ip" 10 0 st0).2 in
  limited (Strategy.consume s "ip" 1 0 st).1 = true
  ∧ limited (Strategy.consume s "ip" 1 0 (Strategy.resetKey s "ip" 0 st)).1 = false.
Proof.
  intros s st0 st. split.
  - vm_compute. reflexivity.
  - apply (C9_reset_then_consume_passes s "ip" 0 st). vm_compute. discriminate.
Defined.

(** ** Sliding window: admission test and writes *)

(** C6, as stated, at a concrete input ([limit = 10],
    [windowMs = 1000]).  Ten units are granted at 999; at 1900 the
    previous window weighs [floor (10 * (1 - 900 / 1000)) = 1] by the
    formula over the reals, and a call of weight 10 exceeds the limit
    by that 1.  The program computes the same expression in doubles:
    [900 / 1000] rounds up, [1 - 0.9] is [0.09999999999999998], the
    product is just below 1, its floor is 0, and the call passes. *)
Lemma C6_blend_is_not_the_exact_floor :
  let self := SlidingWindowStrategy.new (mkStrategyOptions (Some 10) (Some 1000)) in
  let st :=
    (SlidingWindowStrategy.consume self "ip" 10 999 (MemoryStore.new "flame-limit:")).2 in
  let d := (SlidingWindowStrategy.consume self "ip" 10 1900 st).1 in
  let exact := SlidingWindowStrategy.effectivePreviousCount_spec self 10 1900 in
  SlidingWindowStrategy.loadedPreviousCount self "ip" 1900 st = 10
  ∧ count (SlidingWindowStrategy.loadedCurrent self "ip" 1900 st) = 0
  ∧ exact = 1
  ∧ (SlidingWindowStrategy.limit self <? 0 + 10 + exact) = true
  ∧ previousCount d = Some 0
  ∧ limited d = false.
Proof. vm_compute. repeat split. Qed.

(** The admission test and the writes of a sliding-window [consume],
    in terms of the blend the program computes. *)
Lemma sliding_consume_test_and_writes (options : StrategyOptions)
    (key : string) (weight now : Z) (st : MemoryStore.t CounterRecord) :
  let self := SlidingWindowStrategy.new options in
  let windowMs := SlidingWindowStrategy.windowMs self in
  let currentWindow := SlidingWindowStrategy.currentWindow self now in
  let currentKey := SlidingWindowStrategy.currentKey self key now in
  let previousKey := SlidingWindowStrategy.previousKey self key now in
  let currentRecord := SlidingWindowStrategy.loadedCurrent self key now st in
  let previousCount' := SlidingWindowStrategy.loadedPreviousCount self key now st in
  let effectivePreviousCount :=
    Qfloor (Double.mul (Double.ofZ previousCount')
              (Double.sub 1 (Double.div (Double.ofZ (now - currentWindow))
                                        (Double.ofZ windowMs)))) in
  let d := (SlidingWindowStrategy.consume self key weight now st).1 in
  let st' := (SlidingWindowStrategy.consume self key weight now st).2 in
  previousCount d = Some effectivePreviousCount
  ∧ limited d
    = (SlidingWindowStrategy.limit self
       <? count currentRecord + weight + effectivePreviousCount)
  ∧ (if limited d then st' = st
     else MemoryStore.get st' currentKey
          = Some (MemoryStore.Entry
                    (mkRecord (count currentRecord + weight) (cr_resetTime currentRecord))
                    (now + 2 * windowMs))
          ∧ ∀ k, k ≠ currentKey → MemoryStore.get st' k = MemoryStore.get st k)
  ∧ MemoryStore.get st' previousKey = MemoryStore.get st previousKey.
Proof.
  intros self windowMs currentWindow currentKey previousKey currentRecord
         previousCount' effectivePreviousCount d st'.
  assert (Hkeys : currentKey ≠ previousKey).
  { apply currentKey_ne_previousKey, windowMs_new_nonzero. }
  change effectivePreviousCount
    with (SlidingWindowStrategy.effectivePreviousCount self previousCount' now) in *.
  set (eff := SlidingWindowStrategy.effectivePreviousCount self previousCount' now) in *.
  destruct (Z.lt_ge_cases (SlidingWindowStrategy.limit self)
                          (eff + (count currentRecord + weight))) as [Hlt|Hge].
  - subst d st'. rewrite (sliding_consume_limited self key weight now st Hlt).
    cbn [fst snd limited previousCount].
    repeat split; try reflexivity.
    symmetry. apply Z.ltb_lt. lia.
  - subst d st'. rewrite (sliding_consume_accepted self key weight now st Hge).
    cbn [fst snd limited previousCount].
    repeat split.
    + symmetry. apply Z.ltb_ge. lia.
    + rewrite get_set_eq. do 2 f_equal. subst windowMs. lia.
    + intros k Hk. by apply get_set_ne.
    + by apply get_set_ne.
Qed.

(** C6 (amended): a sliding-window [consume] at time [now] with weight
    [w] computes [effectivePreviousCount = Math.floor (previousCount *
    (1 - (now - currentWindow) / windowMs))] in double arithmetic, the
    division, the subtraction and the multiplication each rounded to
    the nearest double (an integer operand being the double nearest to
    it), and rejects exactly when
    [currentRecord.count + w + effectivePreviousCount] exceeds [limit].
    The value computed is the floor of the formula over the reals or
    differs from it by 1, for a previous count between 0 and 2^50 and a
    window of at most 2^53 ms.  On admission only the current window's
    record changes: its count grows by [w] and it is stored with expiry
    [now + 2 * windowMs].  The previous window's record is never
    written, and a rejection leaves the whole store as it was. *)
Theorem C6_sliding_test_and_writes (options : StrategyOptions)
    (key : string) (weight now : Z) (st : MemoryStore.t CounterRecord) :
  let self := SlidingWindowStrategy.new options in
  let windowMs := SlidingWindowStrategy.windowMs self in
  let currentWindow := SlidingWindowStrategy.currentWindow self now in
  let currentKey := SlidingWindowStrategy.currentKey self key now in
  let previousKey := SlidingWindowStrategy.previousKey self key now in
  let currentRecord := SlidingWindowStrategy.loadedCurrent self key now st in
  let previousCount' := SlidingWindowStrategy.loadedPreviousCount self key now st in
  let effectivePreviousCount :=
    Qfloor (Double.mul (Double.ofZ previousCount')
              (Double.sub 1 (Double.div (Double.ofZ (now - currentWindow))
                                        (Double.ofZ windowMs)))) in
  let d := (SlidingWindowStrategy.consume self key weight now st).1 in
  let st' := (SlidingWindowStrategy.consume self key weight now st).2 in
  previousCount d = Some effectivePreviousCount
  ∧ limited d
    = (SlidingWindowStrategy.limit self
       <? count currentRecord + weight + effectivePreviousCount)
  ∧ (0 < windowMs → windowMs <= 2 ^ 53 → 0 <= previousCount' → previousCount' <= 2 ^ 50 →
     Z.abs (effectivePreviousCount
            - SlidingWindowStrategy.effectivePreviousCount_spec self previousCount' now) <= 1)
  ∧ (if limited d then st' = st
     else MemoryStore.get st' currentKey
          = Some (MemoryStore.Entry
                    (mkRecord (count currentRecord + weight) (cr_resetTime currentRecord))
                    (now + 2 * windowMs))
          ∧ ∀ k, k ≠ currentKey → MemoryStore.get st' k = MemoryStore.get st k)
  ∧ MemoryStore.get st' previousKey = MemoryStore.get st previousKey.
Proof.
  intros self windowMs currentWindow currentKey previousKey currentRecord
         previousCount' effectivePreviousCount d st'.
  destruct (sliding_consume_test_and_writes options key weight now st)
    as (Hprev & Hlim & Hst & Hold).
  split; [exact Hprev|]. split; [exact Hlim|]. split; [|split; [exact Hst|exact Hold]].
  intros HW HW53 Hp0 Hp50. by apply blend_near_exact.
Qed.

Lemma C6_sliding_test_and_writes_witness :
  let self := SlidingWindowStrategy.new (mkStrategyOptions (Some 10) (Some 1000)) in
  let st := MemoryStore.set (MemoryStore.new "flame-limit:") "ip:0" (mkRecord 10 1000) 2000 999 in
  let d := (SlidingWindowStrategy.consume self "ip" 1 1500 st).1 in
  let st' := (SlidingWindowStrategy.consume self "ip" 1 1500 st).2 in
  previousCount d = Some 5
  ∧ limited d = false
  ∧ Z.abs (5 - SlidingWindowStrategy.effectivePreviousCount_spec self 10 1500) <= 1
  ∧ MemoryStore.get st' "ip:1000" = Some (MemoryStore.Entry (mkRecord 1 2000) 3500)
  ∧ MemoryStore.get st' "ip:0" = MemoryStore.get st "ip:0".
Proof.
  intros self st d st'.
  pose proof (C6_sliding_test_and_writes
                (mkStrategyOptions (Some 10) (Some 1000)) "ip" 1 1500 st)
    as (Hprev & Hlim & Hnear & Hst & Hold).
  fold self in Hprev, Hlim, Hnear, Hst, Hold. fold d in Hprev, Hlim, Hst.
  fold st' in Hst, Hold.
  assert (Hd : limited d = false) by (rewrite Hlim; vm_compute; reflexivity).
  rewrite Hd in Hst. destruct Hst as [Hcur _].
  split; [|split; [|split; [|split]]].
  - rewrite Hprev. vm_compute. reflexivity.
  - exact Hd.
  - etransitivity; [|apply Hnear; vm_compute; congruence].
    vm_compute. congruence.
  - exact Hcur.
  - exact Hold.
Defined.

(** The scenario of the specification: ten admissions at the end of
    window N fill the limit; at the start of window N+1 one more is
    rejected ([effectivePreviousCount = 10]); at the midpoint the
    previous window counts for 5 and the call is admitted. *)
Example sliding_boundary_scenario :
  let self := SlidingWindowStrategy.new (mkStrategyOptions (Some 10) (Some 1000)) in
  let st := (SlidingWindowStrategy.consume self "ip" 10 999 (MemoryStore.new "flame-limit:")).2 in
  let at_start := (SlidingWindowStrategy.consume self "ip" 1 1000 st).1 in
  let at_middle := (SlidingWindowStrategy.consume self "ip" 1 1500 st).1 in
  (limited at_start, previousCount at_start) = (true, Some 10)
  ∧ (limited at_middle, previousCount at_middle) = (false, Some 5).
Proof. vm_compute. split; reflexivity. Qed.

(** ** Token bucket: what reaches the store *)

(** C4, as stated, at concrete inputs ([limit = 10], [windowMs = 1000]).
    A rejected first call (weight 11) stores nothing: no bucket exists
    afterwards.  A call rejected 50 ms after the bucket was emptied
    changes the stored object in place (tokens 1/2, lastRefill 50) but
    is not followed by [set]: the expiry stays at 2000, where a write at
    time 50 would have put 2050. *)
Lemma C4_rejection_does_not_persist :
  let self := TokenBucketStrategy.new (mkStrategyOptions (Some 10) (Some 1000)) in
  let st0 : MemoryStore.t TokenBucket := MemoryStore.new "flame-limit:" in
  let r0 := TokenBucketStrategy.consume self "ip" 11 0 st0 in
  let st1 := (TokenBucketStrategy.consume self "ip" 10 0 st0).2 in
  let r1 := TokenBucketStrategy.consume self "ip" 1 50 st1 in
  (limited r0.1 = true
   ∧ MemoryStore.get r0.2 "ip:token" = None)
  ∧ (limited r1.1 = true
     ∧ MemoryStore._expireAt <$> MemoryStore.get r1.2 "ip:token" = Some 2000
     ∧ 2000 ≠ 50 + 2 * TokenBucketStrategy.windowMs self).
Proof. vm_compute. repeat split; congruence. Qed.

(** C4 (amended): every token-bucket [consume] first applies the refill
    step.  An admitted call then stores the debited bucket with [set]
    and TTL [2 * windowMs].  A rejected call makes no [set]: a bucket
    that was not stored stays absent; a stored bucket holds the refilled
    [tokens] and [lastRefill] because the stored object itself was
    assigned to, its expiry is not renewed; every other key is
    untouched. *)
Theorem C4_token_refill_and_persistence (self : TokenBucketStrategy.t)
    (key : string) (weight now : Z) (st : MemoryStore.t TokenBucket) :
  let storeKey := TokenBucketStrategy.storeKey key in
  let b := TokenBucketStrategy.refill self (TokenBucketStrategy.loaded self key now st) now in
  let d := (TokenBucketStrategy.consume self key weight now st).1 in
  let st' := (TokenBucketStrategy.consume self key weight now st).2 in
  limited d = TokenBucketStrategy.Qlt_bool (tokens b) (Double.ofZ weight)
  ∧ (if limited d
     then MemoryStore.get st' storeKey
          = (λ e, MemoryStore.Entry b (MemoryStore._expireAt e))
              <$> MemoryStore.get st storeKey
     else ∃ resetTime',
          MemoryStore.get st' storeKey
          = Some (MemoryStore.Entry
                    (mkBucket (Double.sub (tokens b) (Double.ofZ weight)) (lastRefill b)
                              resetTime')
                    (now + 2 * TokenBucketStrategy.windowMs self)))
  ∧ (∀ k, k ≠ storeKey → MemoryStore.get st' k = MemoryStore.get st k).
Proof.
  intros storeKey b d st'.
  destruct (TokenBucketStrategy.Qlt_bool (tokens b) (Double.ofZ weight)) eqn:E.
  - subst d st'. rewrite (token_consume_limited self key weight now st E).
    cbn [fst snd limited]. split; [reflexivity|].
    unfold TokenBucketStrategy.afterRefill. fold b. fold storeKey.
    destruct (0 <? now - lastRefill (TokenBucketStrategy.loaded self key now st)) eqn:El.
    + split; [apply get_assign_eq|]. intros k Hk. by apply get_assign_ne.
    + split; [|done].
      assert (Hb : b = TokenBucketStrategy.loaded self key now st).
      { subst b. unfold TokenBucketStrategy.refill. by rewrite El. }
      rewrite Hb. unfold TokenBucketStrategy.loaded. fold storeKey.
      destruct (MemoryStore.get st storeKey) as [[o x]|]; reflexivity.
  - subst d st'. rewrite (token_consume_accepted self key weight now st E).
    cbn [fst snd limited]. split; [reflexivity|]. split.
    + eexists. fold b. fold storeKey. rewrite get_set_eq. do 2 f_equal. lia.
    + intros k Hk. by apply get_set_ne.
Qed.

Lemma C4_token_refill_and_persistence_witness :
  let self := TokenBucketStrategy.new (mkStrategyOptions (Some 10) (Some 1000)) in
  let st := MemoryStore.set (MemoryStore.new "flame-limit:") "ip:token"
                            (mkBucket 0 0 1000) 2000 0 in
  let d := (TokenBucketStrategy.consume self "ip" 1 50 st).1 in
  let st' := (TokenBucketStrategy.consume self "ip" 1 50 st).2 in
  limited d = true
  ∧ MemoryStore.get st' "ip:token"
    = Some (MemoryStore.Entry (TokenBucketStrategy.refill self (mkBucket 0 0 1000) 50) 2000)
  ∧ MemoryStore.get st' "other:token" = MemoryStore.get st "other:token".
Proof.
  intros self st d st'.
  destruct (C4_token_refill_and_persistence self "ip" 1 50 st) as (Hd & Hkey & Hother).
  fold d in Hd, Hkey. fold st' in Hkey, Hother.
  assert (Hlim : limited d = true) by (rewrite Hd; vm_compute; reflexivity).
  rewrite Hlim in Hkey.
  split; [exact Hlim|]. split.
  - etransitivity; [exact Hkey|]. reflexivity.
  - apply Hother. discriminate.
Defined.

(** ** Invariants along sequences of calls *)

Section SlidingInvariant.
Import SlidingWindowStrategy.
Implicit Types (self : SlidingWindowStrategy.t) (st : MemoryStore.t CounterRecord).

(** [timeRatio] lies between 0 and 1, rounding included. *)
Lemma timeRatio_range self now :
  0 < windowMs self →
  (0 <= Double.sub 1 (Double.div (Double.ofZ (now - currentWindow self now))
                                 (Double.ofZ (windowMs self))) <= 1)%Q.
Proof.
  intros Hw. pose proof (elapsed_in_window self now Hw) as [He0 He1].
  set (e := now - currentWindow self now) in *.
  pose proof (ofZ_pos _ Hw) as HW. pose proof (ofZ_nonneg _ He0) as He.
  pose proof (ofZ_le e (windowMs self) ltac:(lia)) as HeW.
  set (E := Double.ofZ e) in *. set (W := Double.ofZ (windowMs self)) in *.
  clearbody E W.
  assert (Hq0 : (0 <= E / W)%Q).
  { apply Qle_shift_div_l; [done|]. by rewrite Qmult_0_l. }
  assert (Hq1 : (E / W <= 1)%Q).
  { apply Qle_shift_div_r; [done|]. by rewrite Qmult_1_l. }
  unfold Double.sub, Double.div.
  pose proof (round_nonneg _ Hq0) as Hr0.
  pose proof (round_le _ _ Hq1) as Hr1. rewrite round_1 in Hr1.
  set (r := Double.round (E / W)) in *. clearbody r.
  split.
  - apply round_nonneg. lra.
  - apply Qle_trans with (Double.round 1); [apply round_le; lra|].
    rewrite round_1. apply Qle_refl.
Qed.

Lemma effectivePreviousCount_nonneg self p now :
  0 < windowMs self → 0 <= p → 0 <= effectivePreviousCount self p now.
Proof.
  intros Hw Hp. unfold effectivePreviousCount.
  destruct (timeRatio_range self now Hw) as [Hr0 _].
  rewrite <- (Qfloor_Z 0). apply Qfloor_resp_le.
  unfold Double.mul. apply round_nonneg.
  apply Qmult_le_0_compat; [|done]. by apply ofZ_nonneg.
Qed.

Lemma loadedCurrent_nonneg self key now st :
  countsNonNegative st → 0 <= count (loadedCurrent self key now st).
Proof.
  intros Hinv. unfold loadedCurrent, MemoryStore.get.
  destruct (MemoryStore.store st !! _) as [e|] eqn:E; simpl; [|lia].
  by apply (Hinv _ _ E).
Qed.

Lemma loadedPreviousCount_nonneg self key now st :
  countsNonNegative st → 0 <= loadedPreviousCount self key now st.
Proof.
  intros Hinv. unfold loadedPreviousCount, MemoryStore.get.
  destruct (MemoryStore.store st !! _) as [e|] eqn:E; simpl; [|lia].
  by apply (Hinv _ _ E).
Qed.

Lemma sliding_consume_preserves self key weight now st :
  0 <= weight → countsNonNegative st →
  countsNonNegative (consume self key weight now st).2.
Proof.
  intros Hw Hinv.
  destruct (Z.lt_ge_cases (limit self)
              (effectivePreviousCount self (loadedPreviousCount self key now st) now
               + (count (loadedCurrent self key now st) + weight))) as [Hlt|Hge].
  - by rewrite (sliding_consume_limited self key weight now st Hlt).
  - rewrite (sliding_consume_accepted self key weight now st Hge).
    cbn [snd]. intros k e. unfold MemoryStore.set. cbn [MemoryStore.store].
    rewrite lookup_insert. case_decide.
    + intros [= <-]. cbn. pose proof (loadedCurrent_nonneg self key now st Hinv). lia.
    + apply Hinv.
Qed.

Lemma sliding_run_preserves self calls st :
  Forall (λ c, 0 <= Strategy.c_weight c) calls → countsNonNegative st →
  countsNonNegative (Strategy.run (Strategy.Sliding self) calls st).
Proof.
  intros Hcalls. revert st.
  induction Hcalls as [|c rest Hc _ IH]; intros st Hinv; [done|].
  cbn [Strategy.run]. apply IH. by apply sliding_consume_preserves.
Qed.

Lemma countsNonNegative_new prefix :
  countsNonNegative (MemoryStore.new prefix).
Proof. intros k e. unfold MemoryStore.new. cbn. by rewrite lookup_empty. Qed.

End SlidingInvariant.

Lemma inject_Z_nonneg (z : Z) : 0 <= z → (0 <= inject_Z z)%Q.
Proof. intros Hz. unfold Qle. simpl. lia. Qed.

Lemma inject_Z_pos (z : Z) : 0 < z → (0 < inject_Z z)%Q.
Proof. intros Hz. unfold Qlt. simpl. lia. Qed.

Section TokenInvariant.
Import TokenBucketStrategy.
Implicit Types (self : TokenBucketStrategy.t) (st : MemoryStore.t TokenBucket).

Lemma refillRate_new_nonneg options :
  0 < limit (new options) → 0 < windowMs (new options) →
  (0 <= refillRate (new options))%Q.
Proof.
  unfold new. cbn [limit windowMs refillRate]. intros Hl Hw.
  unfold Double.div. apply round_nonneg. apply Qle_shift_div_l.
  - by apply ofZ_pos.
  - rewrite Qmult_0_l. apply ofZ_nonneg. lia.
Qed.

Lemma round_Qmin (a b : Q) :
  (Double.round a == a)%Q → (Double.round b == b)%Q →
  (Double.round (Qmin a b) == Qmin a b)%Q.
Proof.
  intros Ha Hb. destruct (Q.min_spec a b) as [[_ H]|[_ H]].
  - rewrite (round_comp _ _ H). by rewrite H.
  - rewrite (round_comp _ _ H). by rewrite H.
Qed.

Lemma refill_grows self b now :
  0 <= limit self → (0 <= refillRate self)%Q → inRange self b →
  inRange self (refill self b now) ∧ (tokens b <= tokens (refill self b now))%Q
  ∧ tb_resetTime (refill self b now) = tb_resetTime b.
Proof.
  intros Hl Hr [[Hb0 Hb1] Hb]. unfold refill.
  destruct (0 <? now - lastRefill b) eqn:E.
  - apply Z.ltb_lt in E. cbn [tokens tb_resetTime].
    assert (Hadd : (0 <= Double.mul (Double.ofZ (now - lastRefill b)) (refillRate self))%Q).
    { unfold Double.mul. apply round_nonneg.
      apply Qmult_le_0_compat; [|done]. apply ofZ_nonneg. lia. }
    set (add := Double.mul (Double.ofZ (now - lastRefill b)) (refillRate self)) in *.
    clearbody add.
    assert (Hsum : (tokens b <= Double.add (tokens b) add)%Q).
    { rewrite <- Hb at 1. unfold Double.add. apply round_le. lra. }
    pose proof (ofZ_nonneg _ Hl) as Hl'.
    split; [split; [split|]|split]; try reflexivity.
    + apply Q.min_glb; [done|]. lra.
    + apply Q.le_min_l.
    + apply round_Qmin; [apply ofZ_idem|apply round_idem].
    + apply Q.min_glb; [done|]. lra.
  - split; [done|]. split; [apply Qle_refl|reflexivity].
Qed.

Lemma loaded_inRange self key now st :
  0 <= limit self → tokensInRange self st → inRange self (loaded self key now st).
Proof.
  intros Hl Hinv. unfold loaded, MemoryStore.get.
  destruct (MemoryStore.store st !! _) as [e|] eqn:E.
  - apply (Hinv _ _ E).
  - cbn. split; [split; [|apply Qle_refl]|apply ofZ_idem]. by apply ofZ_nonneg.
Qed.

Lemma token_consume_preserves self key weight now st :
  0 <= limit self → (0 <= refillRate self)%Q → 0 <= weight →
  tokensInRange self st →
  tokensInRange self (consume self key weight now st).2.
Proof.
  intros Hl Hr Hw Hinv.
  pose proof (loaded_inRange self key now st Hl Hinv) as Hload.
  destruct (refill_grows self _ now Hl Hr Hload) as ([[Hb0 Hb1] Hb] & _ & _).
  set (b := refill self (loaded self key now st) now) in *.
  destruct (Qlt_bool (tokens b) (Double.ofZ weight)) eqn:E.
  - rewrite (token_consume_limited self key weight now st E). cbn [snd].
    unfold afterRefill. destruct (0 <? _); [|done].
    intros k e. unfold MemoryStore.assign. cbn [MemoryStore.store].
    rewrite lookup_alter. case_decide.
    + destruct (MemoryStore.store st !! _) as [e0|]; cbn; [|done].
      intros [= <-]. by split.
    + apply Hinv.
  - rewrite (token_consume_accepted self key weight now st E). cbn [snd].
    apply Qlt_bool_false_iff in E.
    pose proof (ofZ_nonneg _ Hw) as Hw'.
    intros k e. unfold MemoryStore.set. cbn [MemoryStore.store].
    rewrite lookup_insert. case_decide.
    + intros [= <-]. cbn [MemoryStore.obj]. split; [split|]; cbn [tokens]; fold b.
      * unfold Double.sub. apply round_nonneg. lra.
      * eapply Qle_trans; [|exact Hb1].
        apply Qle_trans with (Double.round (tokens b)); [|rewrite Hb; apply Qle_refl].
        unfold Double.sub. apply round_le. lra.
      * apply round_idem.
    + apply Hinv.
Qed.

Lemma token_run_preserves self calls st :
  0 <= limit self → (0 <= refillRate self)%Q →
  Forall (λ c, 0 <= Strategy.c_weight c) calls → tokensInRange self st →
  tokensInRange self (Strategy.run (Strategy.Token self) calls st).
Proof.
  intros Hl Hr Hcalls. revert st.
  induction Hcalls as [|c rest Hc _ IH]; intros st Hinv; [done|].
  cbn [Strategy.run]. apply IH. by apply token_consume_preserves.
Qed.

Lemma tokensInRange_new self prefix : tokensInRange self (MemoryStore.new prefix).
Proof. intros k e. unfold MemoryStore.new. cbn. by rewrite lookup_empty. Qed.

End TokenInvariant.

(** C1, as stated, at a concrete input ([limit = 10], [windowMs =
    1000], token bucket).  After a call of weight 10 at time 0 has
    emptied the bucket, a call of weight 1 at time 50 is rejected, and
    the stored state of the identity is not what it was: the bucket
    read from the map was refilled in place (tokens 0 to 1/2,
    lastRefill 0 to 50). *)
Lemma C1_rejected_call_changes_stored_bucket :
  let self := TokenBucketStrategy.new (mkStrategyOptions (Some 10) (Some 1000)) in
  let st0 : MemoryStore.t TokenBucket := MemoryStore.new "flame-limit:" in
  let st := (TokenBucketStrategy.consume self "ip" 10 0 st0).2 in
  let d := (TokenBucketStrategy.consume self "ip" 1 50 st).1 in
  let st' := (TokenBucketStrategy.consume self "ip" 1 50 st).2 in
  limited d = true
  ∧ st' ≠ st
  ∧ (lastRefill ∘ MemoryStore.obj) <$> MemoryStore.get st "ip:token" = Some 0
  ∧ (lastRefill ∘ MemoryStore.obj) <$> MemoryStore.get st' "ip:token" = Some 50
  ∧ (∃ e, MemoryStore.get st "ip:token" = Some e ∧ (tokens (MemoryStore.obj e) == 0)%Q)
  ∧ (∃ e, MemoryStore.get st' "ip:token" = Some e ∧ (tokens (MemoryStore.obj e) == 1 # 2)%Q).
Proof.
  intros self st0 st d st'.
  assert (H0 : (lastRefill ∘ MemoryStore.obj) <$> MemoryStore.get st "ip:token" = Some 0)
    by (vm_compute; reflexivity).
  assert (H1 : (lastRefill ∘ MemoryStore.obj) <$> MemoryStore.get st' "ip:token" = Some 50)
    by (vm_compute; reflexivity).
  split; [vm_compute; reflexivity|].
  split; [intros Heq; rewrite Heq in H1; congruence|].
  split; [exact H0|]. split; [exact H1|].
  split; eexists; (split; [vm_compute; reflexivity|]); reflexivity.
Qed.

(** C1 (amended): for each strategy built by its constructor with a
    positive limit and window, and every sequence of [consume] calls with
    non-negative weights on a memory store that starts empty: after an
    admitted call the count stored for the identity (for the token
    bucket: the tokens used, [limit - tokens]) does not exceed [limit];
    a rejected call performs no [set] and no debit.  For the fixed and
    sliding windows the store is then exactly what it was.  For the
    token bucket every other key is what it was, no bucket is created,
    and a bucket already stored keeps its expiry and reset time and has
    no fewer tokens than before: only the refill step shows in it. *)
Theorem C1_usage_bounded_rejection_without_debit (c : Strategy.class)
    (options : StrategyOptions) (keyPrefix : string) (calls : list Strategy.call)
    (key : string) (weight now : Z) :
  let s := Strategy.new c options in
  0 < Strategy.limit s → 0 < Strategy.windowMs s →
  Forall (λ c, 0 <= Strategy.c_weight c) calls → 0 <= weight →
  let st := Strategy.run s calls (Strategy.empty s keyPrefix) in
  let d := (Strategy.consume s key weight now st).1 in
  let st' := (Strategy.consume s key weight now st).2 in
  if limited d then Strategy.rejectionEffect s key st st'
  else Strategy.withinLimit s key now st'.
Proof.
  destruct c; cbv zeta;
    cbn [Strategy.new Strategy.limit Strategy.windowMs Strategy.state Strategy.consume
         Strategy.empty Strategy.rejectionEffect Strategy.withinLimit];
    intros Hl Hw Hcalls Hweight;
    match goal with
    | |- context [Strategy.run ?s calls ?e] => set (st := Strategy.run s calls e)
    end;
    match goal with
    | |- context [(?f key weight now ?x).2] =>
        set (d := (f key weight now x).1); set (st' := (f key weight now x).2)
    end.
  - (* fixed window *)
    set (self := FixedWindowStrategy.new options) in *.
    destruct (Z.lt_ge_cases (FixedWindowStrategy.limit self)
                (count (FixedWindowStrategy.loaded self key now st) + weight)) as [Hlt|Hge].
    + subst d st'. by rewrite (fixed_consume_limited self key weight now st Hlt).
    + subst d st'. rewrite (fixed_consume_accepted self key weight now st Hge).
      cbn [fst snd limited]. eexists. rewrite get_set_eq. split; [reflexivity|].
      cbn [count MemoryStore.obj]. lia.
  - (* sliding window *)
    set (self := SlidingWindowStrategy.new options) in *.
    assert (Hinv : SlidingWindowStrategy.countsNonNegative st).
    { apply (sliding_run_preserves self); [done|]. apply countsNonNegative_new. }
    pose proof (loadedPreviousCount_nonneg self key now st Hinv) as Hp.
    pose proof (effectivePreviousCount_nonneg self _ now Hw Hp) as Heff.
    destruct (Z.lt_ge_cases (SlidingWindowStrategy.limit self)
                (SlidingWindowStrategy.effectivePreviousCount self
                   (SlidingWindowStrategy.loadedPreviousCount self key now st) now
                 + (count (SlidingWindowStrategy.loadedCurrent self key now st) + weight)))
      as [Hlt|Hge].
    + subst d st'. by rewrite (sliding_consume_limited self key weight now st Hlt).
    + subst d st'. rewrite (sliding_consume_accepted self key weight now st Hge).
      cbn [fst snd limited]. eexists. rewrite get_set_eq. split; [reflexivity|].
      cbn [count MemoryStore.obj]. lia.
  - (* token bucket *)
    set (self := TokenBucketStrategy.new options) in *.
    assert (Hr : (0 <= TokenBucketStrategy.refillRate self)%Q)
      by by apply refillRate_new_nonneg.
    assert (Hl0 : 0 <= TokenBucketStrategy.limit self) by lia.
    assert (Hinv : TokenBucketStrategy.tokensInRange self st).
    { apply (token_run_preserves self); [done..|]. apply tokensInRange_new. }
    set (b := TokenBucketStrategy.refill self (TokenBucketStrategy.loaded self key now st) now).
    destruct (TokenBucketStrategy.Qlt_bool (tokens b) (Double.ofZ weight)) eqn:E.
    + subst d st'. rewrite (token_consume_limited self key weight now st E).
      cbn [fst snd limited]. unfold TokenBucketStrategy.afterRefill.
      destruct (0 <? _) eqn:El.
      * split; [reflexivity|]. split; [intros k Hk; by apply get_assign_ne|].
        rewrite get_assign_eq.
        destruct (MemoryStore.get st (TokenBucketStrategy.storeKey key)) as [e|] eqn:Eg;
          [|reflexivity].
        eexists. split; [reflexivity|]. cbn [MemoryStore.obj MemoryStore._expireAt].
        assert (Hload : TokenBucketStrategy.loaded self key now st = MemoryStore.obj e).
        { unfold TokenBucketStrategy.loaded. by rewrite Eg. }
        rewrite Hload.
        assert (He : TokenBucketStrategy.inRange self (MemoryStore.obj e)).
        { unfold MemoryStore.get in Eg. apply (Hinv _ _ Eg). }
        destruct (refill_grows self _ now Hl0 Hr He) as (_ & Hgrow & Hreset).
        by repeat split.
      * split; [reflexivity|]. split; [done|].
        destruct (MemoryStore.get st (TokenBucketStrategy.storeKey key)) as [e|];
          [|reflexivity].
        eexists. split; [reflexivity|]. repeat split. apply Qle_refl.
    + subst d st'. rewrite (token_consume_accepted self key weight now st E).
      cbn [fst snd limited]. eexists. rewrite get_set_eq. split; [reflexivity|].
      cbn [tokens MemoryStore.obj]. fold b. apply Qlt_bool_false_iff in E.
      assert (0 <= Double.sub (tokens b) (Double.ofZ weight))%Q
        by (unfold Double.sub; apply round_nonneg; lra).
      lra.
Qed.

Lemma C1_usage_bounded_rejection_without_debit_witness :
  let s := Strategy.new Strategy.TokenBucketClass (mkStrategyOptions (Some 10) (Some 1000)) in
  let st := Strategy.run s [Strategy.mkCall "ip" 10 0] (Strategy.empty s "flame-limit:") in
  Strategy.rejectionEffect s "ip" st (Strategy.consume s "ip" 1 50 st).2.
Proof.
  intros s st.
  pose proof (C1_usage_bounded_rejection_without_debit Strategy.TokenBucketClass
                (mkStrategyOptions (Some 10) (Some 1000)) "flame-limit:"
                [Strategy.mkCall "ip" 10 0] "ip" 1 50) as H.
  cbv zeta in H. fold s in H. fold st in H.
  assert (Hd : limited (Strategy.consume s "ip" 1 50 st).1 = true)
    by (vm_compute; reflexivity).
  rewrite Hd in H. apply H.
  - vm_compute. reflexivity.
  - vm_compute. reflexivity.
  - repeat constructor. cbn. lia.
  - lia.
Defined.

(** ** Path weights *)

Section PathWeightFacts.
Import PathWeight.
Variable compile : string → option (string → bool).

Lemma firstMatch_none entries path :
  (∀ pattern weight, (pattern, weight) ∈ entries →
                     patternMatches compile pattern path = false) →
  firstMatch compile entries path = 1.
Proof.
  induction entries as [|[pattern weight] rest IH]; intros Hnone; [done|].
  cbn [firstMatch]. rewrite (Hnone pattern weight) by apply list_elem_of_here.
  apply IH. intros p w Hin. apply (Hnone p w). by apply list_elem_of_further.
Qed.

Lemma patternMatches_malformed pattern path :
  pattern ≠ path → endsWithStar pattern = false →
  RegExp_test compile pattern path = None →
  patternMatches compile pattern path = false.
Proof.
  intros Hne Hstar Hre. unfold patternMatches.
  destruct (String.eqb pattern path) eqn:E.
  - apply String.eqb_eq in E. contradiction.
  - by rewrite Hstar, Hre.
Qed.

End PathWeightFacts.

(** C7: with the rules [{"/api/a": 5, "/api/*": 2}] in that order, the
    weight of ["/api/a"] is 5, that of ["/api/b"] is 2, and a path that
    no rule matches weighs 1, in [flame-limit.js] (weighting switched
    on, rules in [weights]) and in the single-file middleware (rules in
    [weightByPath]) alike, whatever the regular-expression engine does
    on patterns with syntax characters.  A pattern that is not the path
    itself, does not end in ['*'] and does not compile matches no path:
    [patternMatches] answers [false]; it has no exceptional result. *)
Theorem C7_path_weight_resolution (compile : string → option (string → bool))
    (pattern path : string) :
  let rules := [("/api/a", 5); ("/api/*", 2)] in
  (PathWeight.getPathWeight compile true (Some rules) "/api/a" = 5
   ∧ PathWeight.getPathWeight compile true (Some rules) "/api/b" = 2
   ∧ ((∀ p w, (p, w) ∈ rules → PathWeight.patternMatches compile p path = false) →
      PathWeight.getPathWeight compile true (Some rules) path = 1))
  ∧ (PathWeight.getPathWeight_v1 compile (Some rules) "/api/a" = 5
     ∧ PathWeight.getPathWeight_v1 compile (Some rules) "/api/b" = 2
     ∧ ((∀ p w, (p, w) ∈ rules → PathWeight.patternMatches compile p path = false) →
        PathWeight.getPathWeight_v1 compile (Some rules) path = 1))
  ∧ (pattern ≠ path → PathWeight.endsWithStar pattern = false →
     PathWeight.RegExp_test compile pattern path = None →
     PathWeight.patternMatches compile pattern path = false).
Proof.
  intros rules. repeat apply conj.
  - reflexivity.
  - reflexivity.
  - apply firstMatch_none.
  - reflexivity.
  - reflexivity.
  - apply firstMatch_none.
  - apply patternMatches_malformed.
Qed.

Lemma C7_path_weight_resolution_witness :
  let compile : string → option (string → bool) := λ _, None in
  let rules := [("/api/a", 5); ("/api/*", 2)] in
  PathWeight.getPathWeight compile true (Some rules) "/other" = 1
  ∧ PathWeight.getPathWeight_v1 compile (Some rules) "/other" = 1
  ∧ PathWeight.patternMatches compile "(" "/api/a" = false.
Proof.
  intros compile rules.
  destruct (C7_path_weight_resolution compile "(" "/other")
    as ((_ & _ & Hnone) & (_ & _ & Hnone1) & _).
  destruct (C7_path_weight_resolution compile "(" "/api/a") as (_ & _ & Hbad).
  assert (Hrules : ∀ p w, (p, w) ∈ rules →
                          PathWeight.patternMatches compile p "/other" = false).
  { intros p w Hin. unfold rules in Hin.
    apply elem_of_cons in Hin as [[= -> ->]|Hin]; [reflexivity|].
    apply elem_of_cons in Hin as [[= -> ->]|Hin]; [reflexivity|].
    by apply not_elem_of_nil in Hin. }
  split; [exact (Hnone Hrules)|]. split; [exact (Hnone1 Hrules)|].
  apply Hbad; [discriminate|reflexivity|reflexivity].
Defined.

(** With weighting switched off, or without rules, every path weighs 1. *)
Lemma getPathWeight_disabled compile weights path :
  PathWeight.getPathWeight compile false weights path = 1
  ∧ PathWeight.getPathWeight compile true None path = 1.
Proof. done. Qed.

(** ** Construction of the limiter *)

Section FlameLimitFacts.
Import FlameLimit.

(** A backend name that the table does not resolve, own or inherited,
    makes construction raise. *)
Lemma flameLimit_unknown_backend options :
  STORES (backend (mergeDefaults options)) = Undefined →
  flameLimit options
  = inl (Error ("Unknown backend: " +:+ backend (mergeDefaults options)
                +:+ ". Use 'memory' or 'redis'.")).
Proof. intros H. unfold flameLimit. by rewrite H. Qed.

Lemma flameLimit_unknown_strategy options store :
  newStore (mergeDefaults options) (STORES (backend (mergeDefaults options)))
  = inr store →
  STRATEGIES (strategy (mergeDefaults options)) = Undefined →
  flameLimit options
  = inl (Error ("Unknown strategy: " +:+ strategy (mergeDefaults options)
                +:+ ". Use 'fixed', 'sliding', or 'token'.")).
Proof. intros Hs H. unfold flameLimit. by rewrite Hs, H. Qed.

Lemma flameLimit_redis_without_client options :
  o_backend options = Some "redis" → o_redisClient options = None →
  flameLimit options = inl (Error "Redis client is required for RedisStore").
Proof.
  intros Hb Hc. unfold flameLimit, mergeDefaults. rewrite Hb, Hc. reflexivity.
Qed.

(** With one of the documented names for each table, and a client
    for redis, construction succeeds and the wiring causes no
    TypeError on a request. *)
Lemma flameLimit_documented_names options c store :
  STRATEGIES (strategy (mergeDefaults options)) = Own c →
  newStore (mergeDefaults options) (STORES (backend (mergeDefaults options)))
  = inr store →
  (∀ s, store ≠ StringObject s) →
  ∃ l, flameLimit options = inr l ∧ consumeTypeError l = None.
Proof.
  intros Hc Hs Hstore. unfold flameLimit. rewrite Hs, Hc. cbn.
  eexists. split; [reflexivity|]. unfold consumeTypeError. cbn.
  destruct store; [done..|]. by destruct (Hstore s).
Qed.

End FlameLimitFacts.

(** C8, evaluated where it fails.  ["constructor"] is neither ['fixed'],
    ['sliding'] nor ['token'], but [STRATEGIES["constructor"]] is the
    inherited [Object], which is truthy: the guard does not fire and
    construction returns a middleware whose strategy is the store object
    itself; the first request then fails when it calls [consume] on
    it.  The same name as backend passes as well and builds a store
    without [get]. *)
Theorem C8_inherited_name_passes_construction :
  let strategyName :=
    FlameLimit.mkOptions None None None (Some "constructor") None None false None in
  let backendName :=
    FlameLimit.mkOptions None None (Some "constructor") None None None false None in
  (∃ l, FlameLimit.flameLimit strategyName = inr l
        ∧ FlameLimit.l_strategy l
          = FlameLimit.SameObject (FlameLimit.MemoryStoreObject "flame-limit:")
        ∧ FlameLimit.consumeTypeError l
          = Some (TypeError "strategy.consume is not a function"))
  ∧ (∃ l, FlameLimit.flameLimit backendName = inr l
          ∧ FlameLimit.l_store l = FlameLimit.StringObject "flame-limit:"
          ∧ FlameLimit.consumeTypeError l
            = Some (TypeError "this.store.get is not a function")).
Proof. split; eexists; repeat split; reflexivity. Qed.

(** The other two cases of the claim hold: a name that resolves to
    nothing, and redis without a client, raise at construction. *)
Example construction_raises :
  FlameLimit.flameLimit
    (FlameLimit.mkOptions None None None (Some "leaky") None None false None)
  = inl (Error "Unknown strategy: leaky. Use 'fixed', 'sliding', or 'token'.")
  ∧ FlameLimit.flameLimit
      (FlameLimit.mkOptions None None (Some "disk") None None None false None)
    = inl (Error "Unknown backend: disk. Use 'memory' or 'redis'.")
  ∧ FlameLimit.flameLimit
      (FlameLimit.mkOptions None None (Some "redis") None None None false None)
    = inl (Error "Redis client is required for RedisStore").
Proof. repeat split; reflexivity. Qed.

(** Which unrecognized strategy names get past construction: with the
    default backend, a name other than the three of the table raises
    unless it is ["constructor"]. *)
Lemma unrecognized_strategy_raises_unless_constructor (name : string) :
  name ≠ "fixed" → name ≠ "sliding" → name ≠ "token" →
  let options := FlameLimit.mkOptions None None None (Some name) None None false None in
  (∃ e, FlameLimit.flameLimit options = inl e) ↔ name ≠ "constructor".
Proof.
  intros Hf Hs Ht options. unfold FlameLimit.flameLimit, options. cbn.
  unfold FlameLimit.STRATEGIES.
  apply String.eqb_neq in Hf, Hs, Ht. rewrite Hf, Hs, Ht.
  unfold FlameLimit.inherited.
  destruct (String.eqb name "constructor") eqn:E.
  - apply String.eqb_eq in E. cbn. split; [intros [e He]; discriminate|contradiction].
  - apply String.eqb_neq in E. split; [done|intros _].
    destruct (existsb _ _); cbn; eauto.
Qed.

Lemma unrecognized_strategy_raises_unless_constructor_check :
  (∃ e, FlameLimit.flameLimit
          (FlameLimit.mkOptions None None None (Some "toString") None None false None)
        = inl e).
Proof.
  apply (unrecognized_strategy_raises_unless_constructor "toString"); discriminate.
Qed.

(** ** The scenarios of the specification *)

(** Fixed window, [limit = 5], [windowMs = 1000]: five calls of weight 1
    in one aligned second pass, the sixth is rejected with
    [remaining = 0], and a call in the next second passes with a count
    of 1. *)
Example fixed_window_scenario :
  let s := Strategy.new Strategy.FixedWindowClass (mkStrategyOptions (Some 5) (Some 1000)) in
  let five := map (λ t, Strategy.mkCall "ip" 1 t) [0; 200; 400; 600; 999] in
  let st := Strategy.run s five (Strategy.empty s "flame-limit:") in
  let sixth := Strategy.consume s "ip" 1 999 st in
  let next := Strategy.consume s "ip" 1 1000 sixth.2 in
  (count ∘ MemoryStore.obj) <$> MemoryStore.get st "ip:0" = Some 5
  ∧ (limited sixth.1, remaining sixth.1, consumed sixth.1) = (true, 0, 0)
  ∧ (limited next.1, remaining next.1) = (false, 4)
  ∧ (count ∘ MemoryStore.obj) <$> MemoryStore.get next.2 "ip:1000" = Some 1.
Proof. vm_compute. repeat split; reflexivity. Qed.

(** Token bucket, [limit = 10], [windowMs = 1000]: a burst of ten calls
    passes at once, the next call is rejected until 100 ms have gone
    by, and then exactly one token is there. *)
Example token_bucket_scenario :
  let s := Strategy.new Strategy.TokenBucketClass (mkStrategyOptions (Some 10) (Some 1000)) in
  let burst := repeat (Strategy.mkCall "ip" 1 0) 10 in
  let st := Strategy.run s burst (Strategy.empty s "flame-limit:") in
  limited (Strategy.consume s "ip" 1 0 st).1 = true
  ∧ limited (Strategy.consume s "ip" 1 99 st).1 = true
  ∧ limited (Strategy.consume s "ip" 1 100 st).1 = false
  ∧ limited (Strategy.consume s "ip" 2 100 st).1 = true.
Proof. vm_compute. repeat split; reflexivity. Qed.

(** Rounding shows in the token bucket ([limit = 5], [windowMs =
    60000]).  After the bucket is emptied at 0, a call of weight 1 at
    3 is rejected with [resetTime = 12000]; the same call at 12000 is
    rejected again: the two refills have added up to
    0.9999999999999999 tokens, not to 1. *)
Example token_bucket_rounding_scenario :
  let self := TokenBucketStrategy.new (mkStrategyOptions (Some 5) (Some 60000)) in
  let st0 : MemoryStore.t TokenBucket := MemoryStore.new "flame-limit:" in
  let st1 := (TokenBucketStrategy.consume self "ip" 5 0 st0).2 in
  let r2 := TokenBucketStrategy.consume self "ip" 1 3 st1 in
  let r3 := TokenBucketStrategy.consume self "ip" 1 12000 r2.2 in
  (limited r2.1, resetTime r2.1) = (true, 12000)
  ∧ limited r3.1 = true
  ∧ (tokens ∘ MemoryStore.obj) <$> MemoryStore.get r3.2 "ip:token"
    = Some (9007199254740991 # 9007199254740992).
Proof. vm_compute. repeat split. Qed.

(** ** Store keys *)

Section KeyFacts.
Import Keys.

Lemma pretty_N_char_decimal x : decimalChar (pretty_N_char x) = true.
Proof. unfold pretty_N_char. by repeat case_match. Qed.

Lemma pretty_N_go_decimal x s :
  allChars decimalChar s = true → allChars decimalChar (pretty_N_go x s) = true.
Proof.
  revert s. induction (N.lt_wf_0 x) as [x _ IH]; intros s Hs.
  assert (x = 0 ∨ 0 < x)%N as [->|Hx] by lia.
  - by rewrite pretty_N_go_0.
  - rewrite pretty_N_go_step by done. apply IH.
    + by apply N.div_lt.
    + cbn [allChars]. by rewrite pretty_N_char_decimal, Hs.
Qed.

Lemma pretty_Z_decimal (z : Z) : allChars decimalChar (pretty z) = true.
Proof.
  destruct z as [|p|p]; unfold pretty, pretty_Z; [reflexivity| |].
  - unfold pretty, pretty_positive, pretty, pretty_N.
    case_decide; [reflexivity|]. by apply pretty_N_go_decimal.
  - change ("-" +:+ pretty p) with (String "-"%char (pretty p)).
    cbn [allChars]. unfold pretty, pretty_positive, pretty, pretty_N.
    case_decide; [reflexivity|]. rewrite pretty_N_go_decimal; done.
Qed.

Lemma allChars_impl (P Q : ascii → bool) s :
  (∀ c, P c = true → Q c = true) → allChars P s = true → allChars Q s = true.
Proof.
  intros HPQ. induction s as [|a s IH]; [done|]. cbn [allChars].
  intros [Ha Hs]%andb_true_iff. by rewrite (HPQ a Ha), IH.
Qed.

Lemma pretty_Z_no_colon (z : Z) : allChars notColon (pretty z) = true.
Proof.
  apply (allChars_impl decimalChar); [|apply pretty_Z_decimal].
  intros c. unfold decimalChar, notColon. cbn [existsb].
  destruct (Ascii.eqb c ":") eqn:E; [|done].
  apply Ascii.eqb_eq in E. by subst c.
Qed.

Lemma allChars_app P s1 s2 :
  allChars P (s1 +:+ s2) = allChars P s1 && allChars P s2.
Proof.
  induction s1 as [|a s1 IH]; [done|].
  change (String a s1 +:+ s2) with (String a (s1 +:+ s2)).
  cbn [allChars]. by rewrite IH, andb_assoc.
Qed.

(** A string is cut in one way only at its last colon. *)
Lemma split_at_last_colon s1 s2 d1 d2 :
  allChars notColon d1 = true → allChars notColon d2 = true →
  s1 +:+ ":" +:+ d1 = s2 +:+ ":" +:+ d2 → s1 = s2 ∧ d1 = d2.
Proof.
  intros Hd1 Hd2. revert s2.
  induction s1 as [|a s1 IH]; intros [|b s2] Heq.
  - change (String ":" d1 = String ":" d2) in Heq. by injection Heq.
  - exfalso. change (String ":" d1 = String b (s2 +:+ ":" +:+ d2)) in Heq.
    injection Heq as Ha Hrest. subst d1.
    rewrite allChars_app in Hd1. apply andb_true_iff in Hd1 as [_ Hd1]. done.
  - exfalso. change (String a (s1 +:+ ":" +:+ d1) = String ":" d2) in Heq.
    injection Heq as Ha Hrest. subst d2.
    rewrite allChars_app in Hd2. apply andb_true_iff in Hd2 as [_ Hd2]. done.
  - change (String a (s1 +:+ ":" +:+ d1) = String b (s2 +:+ ":" +:+ d2)) in Heq.
    injection Heq as -> Hrest. destruct (IH s2 Hrest) as [-> ->]. done.
Qed.

Lemma window_key_inj (k1 k2 : string) (w1 w2 : Z) :
  k1 +:+ ":" +:+ pretty w1 = k2 +:+ ":" +:+ pretty w2 → k1 = k2 ∧ w1 = w2.
Proof.
  intros Heq.
  apply split_at_last_colon in Heq as [-> Hw]; try apply pretty_Z_no_colon.
  split; [done|]. by apply (inj pretty).
Qed.

Lemma token_key_inj (k1 k2 : string) :
  TokenBucketStrategy.storeKey k1 = TokenBucketStrategy.storeKey k2 → k1 = k2.
Proof.
  unfold TokenBucketStrategy.storeKey. intros Heq.
  change (k1 +:+ ":" +:+ "token" = k2 +:+ ":" +:+ "token") in Heq.
  by apply split_at_last_colon in Heq as [-> _].
Qed.

Lemma token_key_not_window_key (k1 k2 : string) (w : Z) :
  TokenBucketStrategy.storeKey k1 ≠ k2 +:+ ":" +:+ pretty w.
Proof.
  unfold TokenBucketStrategy.storeKey. intros Heq.
  change (k1 +:+ ":" +:+ "token" = k2 +:+ ":" +:+ pretty w) in Heq.
  apply split_at_last_colon in Heq as [_ Hw]; [|done|apply pretty_Z_no_colon].
  pose proof (pretty_Z_decimal w) as Hdec. rewrite <- Hw in Hdec. done.
Qed.

End KeyFacts.

(** ** The weight granted within one window *)

Section WindowAccounting.
Import Accounting.

Lemma storedCount_set_eq st k r ttl now :
  storedCount (MemoryStore.set st k r ttl now) k = count r.
Proof. unfold storedCount. by rewrite get_set_eq. Qed.

Lemma storedCount_set_ne st k k' r ttl now :
  k ≠ k' → storedCount (MemoryStore.set st k r ttl now) k' = storedCount st k'.
Proof. intros Hne. unfold storedCount. by rewrite get_set_ne. Qed.

Lemma countsAtMost_new limit prefix : countsAtMost limit (MemoryStore.new prefix).
Proof. intros k e. unfold MemoryStore.new. cbn. by rewrite lookup_empty. Qed.

Lemma countsAtMost_set limit st k r ttl now :
  count r <= limit → countsAtMost limit st →
  countsAtMost limit (MemoryStore.set st k r ttl now).
Proof.
  intros Hr Hinv k' e. unfold MemoryStore.set. cbn [MemoryStore.store].
  rewrite lookup_insert. case_decide; [|apply Hinv].
  by intros [= <-].
Qed.

(** *** Fixed window *)

Lemma fixed_consume_stored self key weight now st K :
  storedCount (FixedWindowStrategy.consume self key weight now st).2 K
  = storedCount st K
    + (if decide (FixedWindowStrategy.storeKey self key now = K)
       then consumed (FixedWindowStrategy.consume self key weight now st).1 else 0).
Proof.
  destruct (Z.lt_ge_cases (FixedWindowStrategy.limit self)
              (count (FixedWindowStrategy.loaded self key now st) + weight)) as [Hlt|Hge].
  - rewrite (fixed_consume_limited self key weight now st Hlt). cbn [fst snd consumed].
    case_decide; lia.
  - rewrite (fixed_consume_accepted self key weight now st Hge). cbn [fst snd consumed].
    case_decide as HK.
    + subst K. rewrite storedCount_set_eq. cbn [count].
      unfold storedCount, FixedWindowStrategy.loaded.
      destruct (MemoryStore.get st _); cbn; lia.
    + rewrite storedCount_set_ne by done. lia.
Qed.

Lemma fixed_consume_countsAtMost self key weight now st :
  countsAtMost (FixedWindowStrategy.limit self) st →
  countsAtMost (FixedWindowStrategy.limit self)
               (FixedWindowStrategy.consume self key weight now st).2.
Proof.
  intros Hinv.
  destruct (Z.lt_ge_cases (FixedWindowStrategy.limit self)
              (count (FixedWindowStrategy.loaded self key now st) + weight)) as [Hlt|Hge].
  - by rewrite (fixed_consume_limited self key weight now st Hlt).
  - rewrite (fixed_consume_accepted self key weight now st Hge). cbn [snd].
    by apply countsAtMost_set.
Qed.

Lemma fixed_run_countsAtMost self calls st :
  countsAtMost (FixedWindowStrategy.limit self) st →
  countsAtMost (FixedWindowStrategy.limit self)
               (Strategy.run (Strategy.Fixed self) calls st).
Proof.
  revert st. induction calls as [|c rest IH]; intros st Hinv; [done|].
  cbn [Strategy.run]. apply IH. by apply fixed_consume_countsAtMost.
Qed.

Lemma fixed_key_selects self key ws c :
  inWindow (FixedWindowStrategy.windowMs self) key ws c = true
  ↔ FixedWindowStrategy.storeKey self (Strategy.c_key c) (Strategy.c_now c)
    = key +:+ ":" +:+ pretty ws.
Proof.
  unfold inWindow, FixedWindowStrategy.storeKey, FixedWindowStrategy.windowStart.
  rewrite andb_true_iff, String.eqb_eq, Z.eqb_eq. split.
  - by intros [-> ->].
  - by intros [? ?]%window_key_inj.
Qed.

Lemma fixed_run_stored self calls st key ws :
  storedCount (Strategy.run (Strategy.Fixed self) calls st) (key +:+ ":" +:+ pretty ws)
  = storedCount st (key +:+ ":" +:+ pretty ws)
    + consumedBy (Strategy.Fixed self)
        (inWindow (FixedWindowStrategy.windowMs self) key ws) calls st.
Proof.
  revert st. induction calls as [|c rest IH]; intros st.
  - cbn. lia.
  - cbn [Strategy.run consumedBy]. rewrite IH. cbn [Strategy.consume].
    rewrite fixed_consume_stored.
    destruct (inWindow _ key ws c) eqn:Esel.
    + apply fixed_key_selects in Esel. rewrite decide_True by done. symmetry. apply Z.add_assoc.
    + rewrite decide_False; [by rewrite Z.add_0_r|]. intros HK. apply fixed_key_selects in HK. congruence.
Qed.


(** *** Sliding window *)

Lemma sliding_consume_stored self key weight now st K :
  storedCount (SlidingWindowStrategy.consume self key weight now st).2 K
  = storedCount st K
    + (if decide (SlidingWindowStrategy.currentKey self key now = K)
       then consumed (SlidingWindowStrategy.consume self key weight now st).1 else 0).
Proof.
  destruct (Z.lt_ge_cases (SlidingWindowStrategy.limit self)
              (SlidingWindowStrategy.effectivePreviousCount self
                 (SlidingWindowStrategy.loadedPreviousCount self key now st) now
               + (count (SlidingWindowStrategy.loadedCurrent self key now st) + weight)))
    as [Hlt|Hge].
  - rewrite (sliding_consume_limited self key weight now st Hlt). cbn [fst snd consumed].
    case_decide; lia.
  - rewrite (sliding_consume_accepted self key weight now st Hge). cbn [fst snd consumed].
    case_decide as HK.
    + subst K. rewrite storedCount_set_eq. cbn [count].
      unfold storedCount, SlidingWindowStrategy.loadedCurrent.
      destruct (MemoryStore.get st _); cbn; lia.
    + rewrite storedCount_set_ne by done. lia.
Qed.

Lemma sliding_key_selects self key ws c :
  inWindow (SlidingWindowStrategy.windowMs self) key ws c = true
  ↔ SlidingWindowStrategy.currentKey self (Strategy.c_key c) (Strategy.c_now c)
    = key +:+ ":" +:+ pretty ws.
Proof.
  unfold inWindow, SlidingWindowStrategy.currentKey, SlidingWindowStrategy.currentWindow.
  rewrite andb_true_iff, String.eqb_eq, Z.eqb_eq. split.
  - by intros [-> ->].
  - by intros [? ?]%window_key_inj.
Qed.

Lemma sliding_run_stored self calls st key ws :
  storedCount (Strategy.run (Strategy.Sliding self) calls st) (key +:+ ":" +:+ pretty ws)
  = storedCount st (key +:+ ":" +:+ pretty ws)
    + consumedBy (Strategy.Sliding self)
        (inWindow (SlidingWindowStrategy.windowMs self) key ws) calls st.
Proof.
  revert st. induction calls as [|c rest IH]; intros st.
  - cbn. lia.
  - cbn [Strategy.run consumedBy]. rewrite IH. cbn [Strategy.consume].
    rewrite sliding_consume_stored.
    destruct (inWindow _ key ws c) eqn:Esel.
    + apply sliding_key_selects in Esel. rewrite decide_True by done.
      symmetry. apply Z.add_assoc.
    + rewrite decide_False; [by rewrite Z.add_0_r|].
      intros HK. apply sliding_key_selects in HK. congruence.
Qed.

End WindowAccounting.

(** X1: in a fixed window, the weight granted to an identity within one
    window is what the store counts for that window, and never more
    than [limit], whatever the calls, their weights, their clock
    readings and the other identities do. *)
Theorem fixed_window_grants_at_most_limit (self : FixedWindowStrategy.t)
    (keyPrefix : string) (calls : list Strategy.call) (key : string) (ws : Z) :
  0 <= FixedWindowStrategy.limit self →
  let s := Strategy.Fixed self in
  let granted :=
    Accounting.consumedBy s
      (Accounting.inWindow (FixedWindowStrategy.windowMs self) key ws)
      calls (MemoryStore.new keyPrefix) in
  granted
  = Accounting.storedCount (Strategy.run s calls (MemoryStore.new keyPrefix))
                           (key +:+ ":" +:+ pretty ws)
  ∧ granted <= FixedWindowStrategy.limit self.
Proof.
  intros Hl s granted. subst s granted.
  pose proof (fixed_run_stored self calls (MemoryStore.new keyPrefix) key ws) as Hrun.
  assert (H0 : Accounting.storedCount (MemoryStore.new keyPrefix)
                 (key +:+ ":" +:+ pretty ws) = 0) by reflexivity.
  rewrite H0, Z.add_0_l in Hrun. split; [done|]. rewrite <- Hrun.
  pose proof (fixed_run_countsAtMost self calls (MemoryStore.new keyPrefix)
                (countsAtMost_new _ _)) as Hinv.
  unfold Accounting.storedCount, MemoryStore.get.
  destruct (MemoryStore.store _ !! _) as [e|] eqn:E; [|done].
  apply (Hinv _ _ E).
Qed.

Lemma fixed_window_grants_at_most_limit_witness :
  let self := FixedWindowStrategy.Make 5 1000 in
  let calls := [Strategy.mkCall "::1" 3 10; Strategy.mkCall "::1" 3 20;
                Strategy.mkCall "10.0.0.7" 4 30; Strategy.mkCall "::1" 2 990;
                Strategy.mkCall "::1" 1 1001] in
  Accounting.consumedBy (Strategy.Fixed self)
    (Accounting.inWindow 1000 "::1" 0) calls (MemoryStore.new "flame-limit:") = 5.
Proof.
  intros self calls.
  destruct (fixed_window_grants_at_most_limit self "flame-limit:" calls "::1" 0) as [Heq _].
  - cbn. lia.
  - etransitivity; [exact Heq|]. vm_compute. reflexivity.
Defined.

(** X2: the sliding window's guarantee in terms of granted weight.
    When a call at time [now] passes, the weight granted to the
    identity in the current window, this call included, plus the
    blended share of the weight granted in the previous window, is at
    most [limit]. *)
Theorem sliding_window_blend_bounds_granted (self : SlidingWindowStrategy.t)
    (keyPrefix : string) (calls : list Strategy.call) (key : string)
    (weight now : Z) :
  let s := Strategy.Sliding self in
  let st0 : Strategy.state s := MemoryStore.new keyPrefix in
  let windowMs := SlidingWindowStrategy.windowMs self in
  let currentWindow := SlidingWindowStrategy.currentWindow self now in
  let grantedCurrent :=
    Accounting.consumedBy s (Accounting.inWindow windowMs key currentWindow) calls st0 in
  let grantedPrevious :=
    Accounting.consumedBy s
      (Accounting.inWindow windowMs key (currentWindow - windowMs)) calls st0 in
  limited (Strategy.consume s key weight now (Strategy.run s calls st0)).1 = false →
  grantedCurrent + weight
  + SlidingWindowStrategy.effectivePreviousCount self grantedPrevious now
  <= SlidingWindowStrategy.limit self.
Proof.
  intros s st0 windowMs currentWindow grantedCurrent grantedPrevious.
  subst s grantedCurrent grantedPrevious windowMs. cbn [Strategy.consume].
  set (st := Strategy.run (Strategy.Sliding self) calls st0).
  assert (Hc : count (SlidingWindowStrategy.loadedCurrent self key now st)
               = Accounting.storedCount st (key +:+ ":" +:+ pretty currentWindow)).
  { unfold Accounting.storedCount, SlidingWindowStrategy.loadedCurrent,
      SlidingWindowStrategy.currentKey. fold currentWindow.
    by destruct (MemoryStore.get st _). }
  assert (Hp : SlidingWindowStrategy.loadedPreviousCount self key now st
               = Accounting.storedCount st
                   (key +:+ ":" +:+ pretty (currentWindow - SlidingWindowStrategy.windowMs self)))
    by reflexivity.
  pose proof (sliding_run_stored self calls st0 key currentWindow) as Hrc.
  pose proof (sliding_run_stored self calls st0 key
                (currentWindow - SlidingWindowStrategy.windowMs self)) as Hrp.
  fold st in Hrc, Hrp.
  assert (H0 : ∀ K, Accounting.storedCount st0 K = 0) by reflexivity.
  rewrite H0, Z.add_0_l in Hrc, Hrp. rewrite <- Hrc, <- Hrp, <- Hc, <- Hp.
  destruct (Z.lt_ge_cases (SlidingWindowStrategy.limit self)
              (SlidingWindowStrategy.effectivePreviousCount self
                 (SlidingWindowStrategy.loadedPreviousCount self key now st) now
               + (count (SlidingWindowStrategy.loadedCurrent self key now st) + weight)))
    as [Hlt|Hge].
  - rewrite (sliding_consume_limited self key weight now st Hlt). cbn. discriminate.
  - intros _. lia.
Qed.

Lemma sliding_window_blend_bounds_granted_witness :
  let self := SlidingWindowStrategy.Make 10 1000 in
  let s := Strategy.Sliding self in
  let st0 : Strategy.state s := MemoryStore.new "flame-limit:" in
  let calls := [Strategy.mkCall "ip" 6 900; Strategy.mkCall "ip" 2 1100] in
  Accounting.consumedBy s (Accounting.inWindow 1000 "ip" 1000) calls st0 + 5
  + SlidingWindowStrategy.effectivePreviousCount self
      (Accounting.consumedBy s (Accounting.inWindow 1000 "ip" (1000 - 1000)) calls st0) 1500
  <= 10.
Proof.
  intros self s st0 calls.
  apply (sliding_window_blend_bounds_granted self "flame-limit:" calls "ip" 5 1500).
  vm_compute. reflexivity.
Defined.

(** ** The bucket of an identity *)

Section TokenAccounting.
Import TokenBucketStrategy.
Implicit Types (self : TokenBucketStrategy.t) (st : MemoryStore.t TokenBucket).

Lemma loaded_fresh self key now st :
  MemoryStore.get st (storeKey key) = None →
  loaded self key now st = mkBucket (Double.ofZ (limit self)) now (now + windowMs self).
Proof. intros H. unfold loaded. by rewrite H. Qed.

(** A call of another identity leaves the bucket of [key] alone. *)
Lemma token_consume_other self key key' weight now st :
  key' ≠ key →
  MemoryStore.get (consume self key' weight now st).2 (storeKey key)
  = MemoryStore.get st (storeKey key).
Proof.
  intros Hne.
  assert (HK : storeKey key' ≠ storeKey key) by (intros H; by apply token_key_inj in H).
  destruct (Qlt_bool (tokens (refill self (loaded self key' now st) now))
                     (Double.ofZ weight)) eqn:E.
  - rewrite (token_consume_limited self key' weight now st E). cbn [snd].
    unfold afterRefill. destruct (0 <? _); [|done]. by apply get_assign_ne.
  - rewrite (token_consume_accepted self key' weight now st E). cbn [snd].
    by apply get_set_ne.
Qed.

End TokenAccounting.

(** ** Sweeps, resets and the records of the window strategies *)

Section Aligned.
Import History.
Implicit Types (st : MemoryStore.t CounterRecord).

Lemma recordsAligned_new W n prefix : recordsAligned W n (MemoryStore.new prefix).
Proof. intros key ws e. unfold MemoryStore.get, MemoryStore.new. cbn. by rewrite lookup_empty. Qed.

Lemma recordsAligned_gc W n st t : recordsAligned W n st → recordsAligned W n (MemoryStore.gc st t).
Proof. intros Hinv key ws e [He _]%get_gc. by apply (Hinv key ws e). Qed.

Lemma recordsAligned_del W n st k : recordsAligned W n st → recordsAligned W n (MemoryStore.del st k).
Proof.
  intros Hinv key ws e. destruct (decide (k = key +:+ ":" +:+ pretty ws)) as [->|Hne].
  - by rewrite get_del_eq.
  - rewrite get_del_ne by done. apply Hinv.
Qed.

Lemma recordsAligned_reset W n st : recordsAligned W n st → recordsAligned W n (MemoryStore.reset st).
Proof. intros _ key ws e. unfold MemoryStore.get, MemoryStore.reset. cbn. by rewrite lookup_empty. Qed.

Lemma recordsAligned_set W n st key0 ws0 r ttl now :
  cr_resetTime r = ws0 + W → ws0 + n * W <= now + ttl →
  recordsAligned W n st →
  recordsAligned W n (MemoryStore.set st (key0 +:+ ":" +:+ pretty ws0) r ttl now).
Proof.
  intros Hr Hexp Hinv key ws e.
  destruct (decide (key0 +:+ ":" +:+ pretty ws0 = key +:+ ":" +:+ pretty ws)) as [Heq|Hne].
  - rewrite <- Heq, get_set_eq. intros [= <-]. cbn.
    apply window_key_inj in Heq as [_ <-]. done.
  - rewrite get_set_ne by done. apply Hinv.
Qed.

Lemma window_start_bounds W now : 0 < W → now / W * W <= now < now / W * W + W.
Proof.
  intros HW. pose proof (Z.mod_pos_bound now W HW) as Hm.
  rewrite Z.mod_eq in Hm by lia. lia.
Qed.

(** An entry that is in the store and not yet due is read the same
    after a sweep. *)
Lemma get_gc_live {V} (s : MemoryStore.t V) k t :
  (∀ e, MemoryStore.get s k = Some e → t < MemoryStore._expireAt e) →
  MemoryStore.get (MemoryStore.gc s t) k = MemoryStore.get s k.
Proof.
  intros Hlive. destruct (MemoryStore.get s k) as [e|] eqn:E.
  - apply get_gc. split; [done|]. unfold MemoryStore.expired.
    specialize (Hlive e eq_refl). apply andb_false_iff. right. apply Z.leb_gt. lia.
  - destruct (MemoryStore.get (MemoryStore.gc s t) k) as [e|] eqn:E'; [|done].
    apply get_gc in E' as [E' _]. congruence.
Qed.

Lemma gc_set_live {V} (s : MemoryStore.t V) k v ttl now t :
  t < now + ttl →
  MemoryStore.gc (MemoryStore.set s k v ttl now) t
  = MemoryStore.set (MemoryStore.gc s t) k v ttl now.
Proof.
  intros Hlive. unfold MemoryStore.gc, MemoryStore.set. cbn. f_equal.
  apply map_filter_insert_True. cbn. unfold MemoryStore.expired. cbn.
  apply andb_false_iff. right. apply Z.leb_gt. lia.
Qed.

(** *** Fixed window *)

Lemma fixed_consume_aligned self key weight now st :
  0 < FixedWindowStrategy.windowMs self →
  recordsAligned (FixedWindowStrategy.windowMs self) 1 st →
  recordsAligned (FixedWindowStrategy.windowMs self) 1
                 (FixedWindowStrategy.consume self key weight now st).2.
Proof.
  intros HW Hinv.
  destruct (Z.lt_ge_cases (FixedWindowStrategy.limit self)
              (count (FixedWindowStrategy.loaded self key now st) + weight)) as [Hlt|Hge].
  - by rewrite (fixed_consume_limited self key weight now st Hlt).
  - rewrite (fixed_consume_accepted self key weight now st Hge). cbn [snd].
    pose proof (window_start_bounds (FixedWindowStrategy.windowMs self) now HW) as Hb.
    apply recordsAligned_set; [|unfold FixedWindowStrategy.windowStart; lia|done].
    cbn [cr_resetTime]. unfold FixedWindowStrategy.loaded, FixedWindowStrategy.storeKey.
    destruct (MemoryStore.get st _) as [e|] eqn:E; [|done].
    by destruct (Hinv _ _ _ E).
Qed.

Lemma fixed_history_aligned self events st :
  0 < FixedWindowStrategy.windowMs self →
  recordsAligned (FixedWindowStrategy.windowMs self) 1 st →
  recordsAligned (FixedWindowStrategy.windowMs self) 1
                 (History.run (Strategy.Fixed self) events st).
Proof.
  intros HW. revert st. induction events as [|e rest IH]; intros st Hinv; [done|].
  cbn [History.run]. apply IH. destruct e as [c|t|k t|]; cbn.
  - by apply fixed_consume_aligned.
  - by apply recordsAligned_gc.
  - by apply recordsAligned_del.
  - by apply recordsAligned_reset.
Qed.

(** *** Sliding window *)

Lemma sliding_consume_aligned self key weight now st :
  0 < SlidingWindowStrategy.windowMs self →
  recordsAligned (SlidingWindowStrategy.windowMs self) 2 st →
  recordsAligned (SlidingWindowStrategy.windowMs self) 2
                 (SlidingWindowStrategy.consume self key weight now st).2.
Proof.
  intros HW Hinv.
  destruct (Z.lt_ge_cases (SlidingWindowStrategy.limit self)
              (SlidingWindowStrategy.effectivePreviousCount self
                 (SlidingWindowStrategy.loadedPreviousCount self key now st) now
               + (count (SlidingWindowStrategy.loadedCurrent self key now st) + weight)))
    as [Hlt|Hge].
  - by rewrite (sliding_consume_limited self key weight now st Hlt).
  - rewrite (sliding_consume_accepted self key weight now st Hge). cbn [snd].
    pose proof (window_start_bounds (SlidingWindowStrategy.windowMs self) now HW) as Hb.
    apply recordsAligned_set; [|unfold SlidingWindowStrategy.currentWindow; lia|done].
    cbn [cr_resetTime]. unfold SlidingWindowStrategy.loadedCurrent, SlidingWindowStrategy.currentKey.
    destruct (MemoryStore.get st _) as [e|] eqn:E; [|done].
    by destruct (Hinv _ _ _ E).
Qed.

Lemma sliding_history_aligned self events st :
  0 < SlidingWindowStrategy.windowMs self →
  recordsAligned (SlidingWindowStrategy.windowMs self) 2 st →
  recordsAligned (SlidingWindowStrategy.windowMs self) 2
                 (History.run (Strategy.Sliding self) events st).
Proof.
  intros HW. revert st. induction events as [|e rest IH]; intros st Hinv; [done|].
  cbn [History.run]. apply IH. destruct e as [c|t|k t|]; cbn.
  - by apply sliding_consume_aligned.
  - by apply recordsAligned_gc.
  - by do 2 apply recordsAligned_del.
  - by apply recordsAligned_reset.
Qed.

End Aligned.

(** X5: in every state a fixed-window store can reach from empty through
    calls, sweeps and resets, a decision's [resetTime] is the end of
    the window the call falls in: later than [now], and at most one
    window length away. *)
Theorem fixed_window_reset_time_is_window_end (self : FixedWindowStrategy.t)
    (keyPrefix : string) (events : list History.event)
    (key : string) (weight now : Z) :
  0 < FixedWindowStrategy.windowMs self →
  let st := History.run (Strategy.Fixed self) events (MemoryStore.new keyPrefix) in
  let d := (FixedWindowStrategy.consume self key weight now st).1 in
  resetTime d = FixedWindowStrategy.windowStart self now + FixedWindowStrategy.windowMs self
  ∧ now < resetTime d <= now + FixedWindowStrategy.windowMs self.
Proof.
  intros HW st d.
  pose proof (fixed_history_aligned self events _ HW (recordsAligned_new _ _ keyPrefix)) as Hinv.
  fold st in Hinv. cbn [Strategy.state] in *.
  assert (Hr : resetTime d = cr_resetTime (FixedWindowStrategy.loaded self key now st)).
  { subst d. unfold FixedWindowStrategy.consume.
    fold (FixedWindowStrategy.loaded self key now st). by destruct (_ <? _). }
  assert (Hl : cr_resetTime (FixedWindowStrategy.loaded self key now st)
               = FixedWindowStrategy.windowStart self now + FixedWindowStrategy.windowMs self).
  { unfold FixedWindowStrategy.loaded, FixedWindowStrategy.storeKey.
    destruct (MemoryStore.get st _) as [e|] eqn:E; [|done].
    by destruct (Hinv _ _ _ E). }
  rewrite Hr, Hl. split; [done|].
  pose proof (window_start_bounds (FixedWindowStrategy.windowMs self) now HW).
  unfold FixedWindowStrategy.windowStart. lia.
Qed.

Lemma fixed_window_reset_time_is_window_end_witness :
  let self := FixedWindowStrategy.Make 5 1000 in
  let events := [History.Call (Strategy.mkCall "ip" 5 1200); History.Sweep 1500;
                 History.Call (Strategy.mkCall "ip" 1 1700)] in
  let st := History.run (Strategy.Fixed self) events (MemoryStore.new "flame-limit:") in
  let d := (FixedWindowStrategy.consume self "ip" 1 1999 st).1 in
  limited d = true ∧ resetTime d = 2000.
Proof.
  intros self events st d. split; [vm_compute; reflexivity|].
  destruct (fixed_window_reset_time_is_window_end self "flame-limit:" events "ip" 1 1999)
    as [Heq _]; [cbn; lia|].
  etransitivity; [exact Heq|]. vm_compute. reflexivity.
Defined.

(** X6: the sweep never changes what a fixed window decides.  In every
    reachable state, sweeping at a time not after the call and then
    calling gives the decision of the call on the unswept store, and
    the store that sweeping after the call would give: a TTL of one
    window keeps every record readable for as long as [consume] reads
    it. *)
Theorem fixed_window_sweep_commutes_with_consume (self : FixedWindowStrategy.t)
    (keyPrefix : string) (events : list History.event)
    (key : string) (weight now sweepAt : Z) :
  0 < FixedWindowStrategy.windowMs self → sweepAt <= now →
  let st := History.run (Strategy.Fixed self) events (MemoryStore.new keyPrefix) in
  FixedWindowStrategy.consume self key weight now (MemoryStore.gc st sweepAt)
  = ((FixedWindowStrategy.consume self key weight now st).1,
     MemoryStore.gc (FixedWindowStrategy.consume self key weight now st).2 sweepAt).
Proof.
  intros HW Ht st.
  pose proof (fixed_history_aligned self events _ HW (recordsAligned_new _ _ keyPrefix)) as Hinv.
  fold st in Hinv. cbn [Strategy.state] in *.
  pose proof (window_start_bounds (FixedWindowStrategy.windowMs self) now HW) as Hb.
  assert (Hload : FixedWindowStrategy.loaded self key now (MemoryStore.gc st sweepAt)
                  = FixedWindowStrategy.loaded self key now st).
  { unfold FixedWindowStrategy.loaded. rewrite get_gc_live; [done|].
    intros e He. destruct (Hinv _ _ _ He) as [_ Hexp].
    unfold FixedWindowStrategy.windowStart in Hexp. lia. }
  destruct (Z.lt_ge_cases (FixedWindowStrategy.limit self)
              (count (FixedWindowStrategy.loaded self key now st) + weight)) as [Hlt|Hge].
  - rewrite (fixed_consume_limited self key weight now st Hlt).
    rewrite fixed_consume_limited by (by rewrite Hload). by rewrite Hload.
  - rewrite (fixed_consume_accepted self key weight now st Hge).
    rewrite fixed_consume_accepted by (by rewrite Hload). rewrite Hload. cbn [fst snd].
    f_equal. symmetry. apply gc_set_live. lia.
Qed.

Lemma fixed_window_sweep_commutes_with_consume_witness :
  let self := FixedWindowStrategy.Make 5 1000 in
  let events := [History.Call (Strategy.mkCall "old" 3 100);
                 History.Call (Strategy.mkCall "ip" 3 2100)] in
  let st := History.run (Strategy.Fixed self) events (MemoryStore.new "flame-limit:") in
  MemoryStore._expireAt <$> MemoryStore.get st "old:0" = Some 1100
  ∧ MemoryStore.get (MemoryStore.gc st 2900) "old:0" = None
  ∧ FixedWindowStrategy.consume self "ip" 3 2950 (MemoryStore.gc st 2900)
    = ((FixedWindowStrategy.consume self "ip" 3 2950 st).1,
       MemoryStore.gc (FixedWindowStrategy.consume self "ip" 3 2950 st).2 2900).
Proof.
  intros self events st.
  split; [vm_compute; reflexivity|]. split; [vm_compute; reflexivity|].
  apply (fixed_window_sweep_commutes_with_consume self "flame-limit:" events "ip" 3 2950 2900).
  - cbn. lia.
  - lia.
Defined.

(** X7: the same for the sliding window, whose calls read two records.
    In every reachable state the decision's [resetTime] is the end of
    the current window, and sweeping at a time not after the call
    commutes with the call: a TTL of two windows keeps the previous
    window's record readable throughout the window that follows. *)
Theorem sliding_window_sweep_commutes_with_consume (self : SlidingWindowStrategy.t)
    (keyPrefix : string) (events : list History.event)
    (key : string) (weight now sweepAt : Z) :
  0 < SlidingWindowStrategy.windowMs self → sweepAt <= now →
  let st := History.run (Strategy.Sliding self) events (MemoryStore.new keyPrefix) in
  let d := (SlidingWindowStrategy.consume self key weight now st).1 in
  (resetTime d
   = SlidingWindowStrategy.currentWindow self now + SlidingWindowStrategy.windowMs self
   ∧ now < resetTime d <= now + SlidingWindowStrategy.windowMs self)
  ∧ SlidingWindowStrategy.consume self key weight now (MemoryStore.gc st sweepAt)
    = (d, MemoryStore.gc (SlidingWindowStrategy.consume self key weight now st).2 sweepAt).
Proof.
  intros HW Ht st d.
  pose proof (sliding_history_aligned self events _ HW (recordsAligned_new _ _ keyPrefix)) as Hinv.
  fold st in Hinv. cbn [Strategy.state] in *.
  pose proof (window_start_bounds (SlidingWindowStrategy.windowMs self) now HW) as Hb.
  fold (SlidingWindowStrategy.currentWindow self now) in Hb.
  assert (Hreset : cr_resetTime (SlidingWindowStrategy.loadedCurrent self key now st)
                   = SlidingWindowStrategy.currentWindow self now
                     + SlidingWindowStrategy.windowMs self).
  { unfold SlidingWindowStrategy.loadedCurrent, SlidingWindowStrategy.currentKey.
    destruct (MemoryStore.get st _) as [e|] eqn:E; [|done].
    by destruct (Hinv _ _ _ E). }
  assert (Hcur : SlidingWindowStrategy.loadedCurrent self key now (MemoryStore.gc st sweepAt)
                 = SlidingWindowStrategy.loadedCurrent self key now st).
  { unfold SlidingWindowStrategy.loadedCurrent. rewrite get_gc_live; [done|].
    intros e He. destruct (Hinv _ _ _ He) as [_ Hexp]. lia. }
  assert (Hprev : SlidingWindowStrategy.loadedPreviousCount self key now
                    (MemoryStore.gc st sweepAt)
                  = SlidingWindowStrategy.loadedPreviousCount self key now st).
  { unfold SlidingWindowStrategy.loadedPreviousCount. rewrite get_gc_live; [done|].
    intros e He. destruct (Hinv _ _ _ He) as [_ Hexp].
    unfold SlidingWindowStrategy.previousWindow in Hexp. lia. }
  subst d.
  destruct (Z.lt_ge_cases (SlidingWindowStrategy.limit self)
              (SlidingWindowStrategy.effectivePreviousCount self
                 (SlidingWindowStrategy.loadedPreviousCount self key now st) now
               + (count (SlidingWindowStrategy.loadedCurrent self key now st) + weight)))
    as [Hlt|Hge].
  - rewrite (sliding_consume_limited self key weight now st Hlt).
    rewrite sliding_consume_limited by (by rewrite Hcur, Hprev).
    rewrite Hcur, Hprev. cbn [fst snd resetTime]. split; [|done].
    rewrite Hreset. split; [done|lia].
  - rewrite (sliding_consume_accepted self key weight now st Hge).
    rewrite sliding_consume_accepted by (by rewrite Hcur, Hprev).
    rewrite Hcur, Hprev. cbn [fst snd resetTime]. split.
    + rewrite Hreset. split; [done|lia].
    + f_equal. symmetry. apply gc_set_live. lia.
Qed.

Lemma sliding_window_sweep_commutes_with_consume_witness :
  let self := SlidingWindowStrategy.Make 10 1000 in
  let events := [History.Call (Strategy.mkCall "ip" 10 999)] in
  let st := History.run (Strategy.Sliding self) events (MemoryStore.new "flame-limit:") in
  let d := (SlidingWindowStrategy.consume self "ip" 1 1999 st).1 in
  (limited d, previousCount d) = (false, Some 0)
  ∧ resetTime d = 2000
  ∧ SlidingWindowStrategy.consume self "ip" 1 1999 (MemoryStore.gc st 1999)
    = (d, MemoryStore.gc (SlidingWindowStrategy.consume self "ip" 1 1999 st).2 1999).
Proof.
  intros self events st d.
  destruct (sliding_window_sweep_commutes_with_consume self "flame-limit:" events
              "ip" 1 1999 1999) as [[Hreset _] Hcomm]; [cbn; lia|lia|].
  split; [vm_compute; reflexivity|]. split; [|exact Hcomm].
  etransitivity; [exact Hreset|]. vm_compute. reflexivity.
Defined.

(** ** Resets *)

(** X8: [resetKey] and [resetAll] give back the whole quota.  After
    either, at the same instant, a call of the identity is rejected
    exactly when its weight alone exceeds [limit]: nothing of what was
    consumed before still counts.  The token bucket compares limit and
    weight as doubles: its limit is one that a number holds exactly
    (below 2^53). *)
Theorem reset_restores_full_quota (s : Strategy.t) (key : string)
    (weight now : Z) (st : Strategy.state s) :
  (∀ self, s = Strategy.Token self → Z.abs (TokenBucketStrategy.limit self) < 2 ^ 53) →
  limited (Strategy.consume s key weight now (Strategy.resetKey s key now st)).1
  = (Strategy.limit s <? weight)
  ∧ limited (Strategy.consume s key weight now (Strategy.resetAll s st)).1
    = (Strategy.limit s <? weight).
Proof.
  intros Hrange.
  assert (Hcases : ∀ b : bool, (Strategy.limit s < weight → b = true) →
                               (weight <= Strategy.limit s → b = false) →
                               b = (Strategy.limit s <? weight)).
  { intros b Ht Hf. destruct (Z.ltb_spec (Strategy.limit s) weight); auto. }
  destruct s as [self|self|self]; cbn [Strategy.consume Strategy.resetKey Strategy.resetAll
                                        Strategy.limit Strategy.state] in *.
  - (* fixed window *)
    assert (Hfresh : ∀ st', MemoryStore.get st' (FixedWindowStrategy.storeKey self key now) = None →
              limited (FixedWindowStrategy.consume self key weight now st').1
              = (FixedWindowStrategy.limit self <? weight)).
    { intros st' Hnone.
      assert (Hc : count (FixedWindowStrategy.loaded self key now st') = 0).
      { unfold FixedWindowStrategy.loaded. by rewrite Hnone. }
      apply Hcases; intros Hw.
      - rewrite fixed_consume_limited; [done|]. rewrite Hc. lia.
      - rewrite fixed_consume_accepted; [done|]. rewrite Hc. lia. }
    split; apply Hfresh.
    + apply get_del_eq.
    + unfold FixedWindowStrategy.resetAll, MemoryStore.reset, MemoryStore.get. cbn.
      apply lookup_empty.
  - (* sliding window *)
    assert (Hfresh : ∀ st',
              MemoryStore.get st' (SlidingWindowStrategy.currentKey self key now) = None →
              MemoryStore.get st' (SlidingWindowStrategy.previousKey self key now) = None →
              limited (SlidingWindowStrategy.consume self key weight now st').1
              = (SlidingWindowStrategy.limit self <? weight)).
    { intros st' Hc Hp.
      assert (Hc0 : count (SlidingWindowStrategy.loadedCurrent self key now st') = 0).
      { unfold SlidingWindowStrategy.loadedCurrent. by rewrite Hc. }
      assert (Hp0 : SlidingWindowStrategy.loadedPreviousCount self key now st' = 0).
      { unfold SlidingWindowStrategy.loadedPreviousCount. by rewrite Hp. }
      apply Hcases; intros Hw.
      - rewrite sliding_consume_limited; [done|].
        rewrite Hc0, Hp0, effectivePreviousCount_0. lia.
      - rewrite sliding_consume_accepted; [done|].
        rewrite Hc0, Hp0, effectivePreviousCount_0. lia. }
    split; apply Hfresh.
    + unfold SlidingWindowStrategy.resetKey.
      destruct (decide (SlidingWindowStrategy.previousKey self key now
                        = SlidingWindowStrategy.currentKey self key now)) as [->|Hne].
      * apply get_del_eq.
      * rewrite get_del_ne by done. apply get_del_eq.
    + apply get_del_eq.
    + unfold SlidingWindowStrategy.resetAll, MemoryStore.reset, MemoryStore.get. cbn.
      apply lookup_empty.
    + unfold SlidingWindowStrategy.resetAll, MemoryStore.reset, MemoryStore.get. cbn.
      apply lookup_empty.
  - (* token bucket *)
    assert (Hfresh : ∀ st', MemoryStore.get st' (TokenBucketStrategy.storeKey key) = None →
              limited (TokenBucketStrategy.consume self key weight now st').1
              = (TokenBucketStrategy.limit self <? weight)).
    { intros st' Hnone.
      assert (Hb : tokens (TokenBucketStrategy.refill self
                             (TokenBucketStrategy.loaded self key now st') now)
                   = Double.ofZ (TokenBucketStrategy.limit self)).
      { rewrite (loaded_fresh self key now st' Hnone).
        unfold TokenBucketStrategy.refill. cbn [lastRefill]. by rewrite Z.sub_diag. }
      apply Hcases; intros Hw.
      - rewrite token_consume_limited; [done|].
        rewrite Hb. apply Qlt_bool_true_iff.
        specialize (Hrange self eq_refl).
        pose proof (ofZ_exact (TokenBucketStrategy.limit self) ltac:(lia)) as Hl.
        pose proof (ofZ_ge_exact (TokenBucketStrategy.limit self + 1) weight
                      ltac:(lia) ltac:(lia)) as Hge.
        rewrite inject_Z_plus in Hge. change (inject_Z 1) with 1%Q in Hge.
        rewrite Hl. set (q := inject_Z (TokenBucketStrategy.limit self)) in *.
        clearbody q. lra.
      - rewrite token_consume_accepted; [done|].
        rewrite Hb. apply Qlt_bool_false_iff. by apply ofZ_le. }
    split; apply Hfresh.
    + apply get_del_eq.
    + unfold TokenBucketStrategy.resetAll, MemoryStore.reset, MemoryStore.get. cbn.
      apply lookup_empty.
Qed.

Lemma reset_restores_full_quota_witness :
  let s := Strategy.new Strategy.TokenBucketClass (mkStrategyOptions (Some 10) (Some 1000)) in
  let st := (Strategy.consume s "ip" 10 0 (Strategy.empty s "flame-limit:")).2 in
  limited (Strategy.consume s "ip" 3 0 st).1 = true
  ∧ limited (Strategy.consume s "ip" 3 0 (Strategy.resetKey s "ip" 0 st)).1 = false
  ∧ limited (Strategy.consume s "ip" 11 0 (Strategy.resetAll s st)).1 = true.
Proof.
  intros s st.
  split; [vm_compute; reflexivity|]. split.
  - destruct (reset_restores_full_quota s "ip" 3 0 st) as [H _];
      [intros self [= <-]; cbn; lia|].
    rewrite H. reflexivity.
  - destruct (reset_restores_full_quota s "ip" 11 0 st) as [_ H];
      [intros self [= <-]; cbn; lia|].
    rewrite H. reflexivity.
Defined.

(** ** The memory store as a map with expiry *)

(** X9: [set] then [get].  A value written under a key is read back
    with the expiry of that write; a later [set] on the same key
    replaces both the value and the expiry, as if the first had not
    happened; no other key is affected, whatever characters the keys
    and the prefix contain. *)
Theorem memory_store_set_overwrites {V : Type} (s : MemoryStore.t V)
    (k k' : string) (v1 v2 : V) (ttl1 ttl2 t1 t2 : Z) :
  MemoryStore.get (MemoryStore.set (MemoryStore.set s k v1 ttl1 t1) k v2 ttl2 t2) k'
  = (if decide (k = k') then Some (MemoryStore.Entry v2 (t2 + ttl2))
     else MemoryStore.get s k')
  ∧ MemoryStore.set (MemoryStore.set s k v1 ttl1 t1) k v2 ttl2 t2
    = MemoryStore.set s k v2 ttl2 t2.
Proof.
  split.
  - case_decide as Hk.
    + subst k'. apply get_set_eq.
    + by rewrite !get_set_ne.
  - unfold MemoryStore.set, MemoryStore.prefixedKey. cbn. f_equal.
    apply insert_insert_eq.
Qed.

(** X10: [del] and [reset].  [del] removes exactly its key, is
    idempotent, leaves a store without the key as it is, and undoes a
    [set]; [reset] leaves no key readable and keeps the prefix. *)
Theorem memory_store_del_and_reset {V : Type} (s : MemoryStore.t V)
    (k k' : string) (v : V) (ttl t : Z) :
  MemoryStore.get (MemoryStore.del s k) k'
  = (if decide (k = k') then None else MemoryStore.get s k')
  ∧ MemoryStore.del (MemoryStore.del s k) k = MemoryStore.del s k
  ∧ (MemoryStore.get s k = None → MemoryStore.del s k = s)
  ∧ MemoryStore.del (MemoryStore.set s k v ttl t) k = MemoryStore.del s k
  ∧ MemoryStore.get (MemoryStore.reset s) k' = None
  ∧ MemoryStore.keyPrefix (MemoryStore.reset s) = MemoryStore.keyPrefix s.
Proof.
  repeat apply conj.
  - case_decide as Hk.
    + subst k'. apply get_del_eq.
    + by apply get_del_ne.
  - unfold MemoryStore.del, MemoryStore.prefixedKey. cbn. f_equal.
    apply delete_delete_eq.
  - unfold MemoryStore.get. intros E.
    destruct s as [p m]. unfold MemoryStore.del. cbn in *. f_equal.
    by apply delete_id.
  - unfold MemoryStore.del, MemoryStore.set, MemoryStore.prefixedKey. cbn. f_equal.
    apply delete_insert_eq.
  - unfold MemoryStore.get, MemoryStore.reset. cbn. apply lookup_empty.
  - reflexivity.
Qed.

(** X11: sweeps.  Sweeping twice is sweeping once at the later time; a
    sweep removes all and only the entries whose stamp is non-zero and
    not after the sweep time, so an entry whose stamp came out as 0 is
    never swept; a sweep never touches an entry written with a TTL
    that has not run out. *)
Theorem memory_store_sweeps_compose {V : Type} (s : MemoryStore.t V)
    (k : string) (v : V) (ttl t t1 t2 : Z) :
  MemoryStore.gc (MemoryStore.gc s t1) t2 = MemoryStore.gc s (Z.max t1 t2)
  ∧ MemoryStore.get (MemoryStore.gc (MemoryStore.set s k v (- t) t) t2) k
    = Some (MemoryStore.Entry v 0)
  ∧ (t2 < t + ttl →
     MemoryStore.get (MemoryStore.gc (MemoryStore.set s k v ttl t) t2) k
     = Some (MemoryStore.Entry v (t + ttl)))
  ∧ (t + ttl <= t2 → t + ttl ≠ 0 →
     MemoryStore.get (MemoryStore.gc (MemoryStore.set s k v ttl t) t2) k = None).
Proof.
  repeat apply conj.
  - unfold MemoryStore.gc. cbn. f_equal. rewrite map_filter_filter.
    apply map_filter_ext. intros i e _. cbn. unfold MemoryStore.expired.
    destruct (MemoryStore._expireAt e =? 0); cbn; [tauto|].
    rewrite !Z.leb_gt. lia.
  - apply get_gc. rewrite get_set_eq. replace (t + - t) with 0 by lia. done.
  - intros E. apply get_gc. rewrite get_set_eq. split; [done|].
    unfold MemoryStore.expired. cbn. apply andb_false_iff. right. by apply Z.leb_gt.
  - intros E E0.
    destruct (MemoryStore.get (MemoryStore.gc _ t2) k) as [e|] eqn:Eg; [|done].
    apply get_gc in Eg as [Eg Hexp]. rewrite get_set_eq in Eg. injection Eg as <-.
    unfold MemoryStore.expired in Hexp. cbn in Hexp.
    apply Z.eqb_neq in E0. rewrite E0 in Hexp. cbn in Hexp.
    apply Z.leb_gt in Hexp. lia.
Qed.

(** ** The sliding window's blend *)

Section SlidingBlend.
Import SlidingWindowStrategy.

(** The later in the window, the smaller [timeRatio], rounding
    included. *)
Lemma timeRatio_antitone (W e1 e2 : Z) :
  0 < W → e1 <= e2 →
  (Double.sub 1 (Double.div (Double.ofZ e2) (Double.ofZ W))
   <= Double.sub 1 (Double.div (Double.ofZ e1) (Double.ofZ W)))%Q.
Proof.
  intros HW He. pose proof (ofZ_pos _ HW) as HW'. pose proof (ofZ_le _ _ He) as He'.
  set (E1 := Double.ofZ e1) in *. set (E2 := Double.ofZ e2) in *.
  set (W' := Double.ofZ W) in *. clearbody E1 E2 W'.
  assert (Hq : (E1 / W' <= E2 / W')%Q).
  { apply Qmult_le_compat_r; [done|]. apply Qlt_le_weak. by apply Qinv_lt_0_compat. }
  unfold Double.sub, Double.div. apply round_le.
  pose proof (round_le _ _ Hq). lra.
Qed.

Lemma blend_mono (p : Z) (r1 r2 : Q) :
  0 <= p → (r1 <= r2)%Q →
  Qfloor (Double.mul (Double.ofZ p) r1) <= Qfloor (Double.mul (Double.ofZ p) r2).
Proof.
  intros Hp Hr. apply Qfloor_resp_le. unfold Double.mul. apply round_le.
  rewrite !(Qmult_comm (Double.ofZ p)). apply Qmult_le_compat_r; [done|].
  by apply ofZ_nonneg.
Qed.

(** A count that a number holds exactly, weighed by a ratio of 1, is
    that count. *)
Lemma blend_whole (p : Z) (r : Q) :
  Z.abs p <= 2 ^ 53 → (r == 1)%Q → Qfloor (Double.mul (Double.ofZ p) r) = p.
Proof.
  intros Hp Hr. rewrite <- (Qfloor_Z p) at 2. apply Qfloor_comp.
  unfold Double.mul.
  rewrite (round_comp (Double.ofZ p * r) (Double.ofZ p)) by (rewrite Hr; ring).
  rewrite ofZ_idem. by apply ofZ_exact.
Qed.

End SlidingBlend.

(** X12: the share of the previous window that the sliding window
    counts, the rounding of the three operations included.  For a
    non-negative previous count it is not negative and it does not
    grow as the window goes on; for a count that a number holds exactly
    (at most 2^53) it is the whole count at the start of the window,
    and never more than the count. *)
Theorem sliding_blend_decays (self : SlidingWindowStrategy.t)
    (previousCount' now later : Z) :
  0 < SlidingWindowStrategy.windowMs self → 0 <= previousCount' →
  now <= later →
  SlidingWindowStrategy.currentWindow self later
  = SlidingWindowStrategy.currentWindow self now →
  0 <= SlidingWindowStrategy.effectivePreviousCount self previousCount' later
  ∧ SlidingWindowStrategy.effectivePreviousCount self previousCount' later
    <= SlidingWindowStrategy.effectivePreviousCount self previousCount' now
  ∧ (previousCount' <= 2 ^ 53 →
     SlidingWindowStrategy.effectivePreviousCount self previousCount' now
     <= previousCount')
  ∧ (previousCount' <= 2 ^ 53 →
     SlidingWindowStrategy.effectivePreviousCount self previousCount'
       (SlidingWindowStrategy.currentWindow self now) = previousCount').
Proof.
  intros HW Hp Hlater Hsame.
  set (W := SlidingWindowStrategy.windowMs self) in *.
  set (cw := SlidingWindowStrategy.currentWindow self now) in *.
  assert (Hcw : SlidingWindowStrategy.currentWindow self cw = cw).
  { subst cw. unfold SlidingWindowStrategy.currentWindow. fold W.
    rewrite Z.div_mul by lia. done. }
  assert (Hstart : previousCount' <= 2 ^ 53 →
                   SlidingWindowStrategy.effectivePreviousCount self previousCount' cw
                   = previousCount').
  { intros Hrange. unfold SlidingWindowStrategy.effectivePreviousCount. rewrite Hcw, Z.sub_diag.
    apply blend_whole; [lia|]. fold W.
    unfold Double.sub, Double.div.
    rewrite (round_0 (Double.ofZ 0 / Double.ofZ W)%Q)
      by (change (Double.ofZ 0) with 0%Q; apply Qmult_0_l).
    rewrite (round_comp (1 - 0) 1)%Q by ring. by rewrite round_1. }
  assert (Hdecay : ∀ t1 t2, cw <= t1 → t1 <= t2 →
            SlidingWindowStrategy.currentWindow self t1 = cw →
            SlidingWindowStrategy.currentWindow self t2 = cw →
            SlidingWindowStrategy.effectivePreviousCount self previousCount' t2
            <= SlidingWindowStrategy.effectivePreviousCount self previousCount' t1).
  { intros t1 t2 H1 H12 Hc1 Hc2. unfold SlidingWindowStrategy.effectivePreviousCount.
    rewrite Hc1, Hc2. fold W. apply blend_mono; [done|].
    apply timeRatio_antitone; [done|lia]. }
  pose proof (elapsed_in_window self now HW) as Hn. fold cw in Hn.
  split; [by apply effectivePreviousCount_nonneg|].
  split; [apply Hdecay; [lia|done|done|done]|].
  split; [|exact Hstart].
  intros Hrange. rewrite <- (Hstart Hrange) at 2. apply Hdecay; [lia|lia|done|done].
Qed.

Lemma sliding_blend_decays_witness :
  let self := SlidingWindowStrategy.Make 10 1000 in
  SlidingWindowStrategy.effectivePreviousCount self 10 1750
  <= SlidingWindowStrategy.effectivePreviousCount self 10 1250
  ∧ SlidingWindowStrategy.effectivePreviousCount self 10 1250 <= 10
  ∧ SlidingWindowStrategy.effectivePreviousCount self 10 1000 = 10.
Proof.
  intros self.
  destruct (sliding_blend_decays self 10 1250 1750) as (_ & H1 & H2 & H3);
    [cbn; lia|lia|lia|reflexivity|].
  split; [exact H1|]. split; [apply H2; lia|apply H3; lia].
Defined.

(** ** The single-file middleware *)

Section LegacyFacts.
Import LegacyFlameLimit.
Variable compile : string → option (string → bool).

Lemma firstMatch_nonneg entries path :
  Forall (λ pw : string * Z, 0 <= pw.2) entries →
  0 <= PathWeight.firstMatch compile entries path.
Proof.
  induction 1 as [|[p w] rest Hw _ IH]; cbn [PathWeight.firstMatch]; [lia|].
  destruct (PathWeight.patternMatches compile p path); [exact Hw|exact IH].
Qed.

(** The record the middleware leaves for the client, and its verdict. *)
Lemma middleware_charges options req hasNext now sentAt clients :
  let id := getClientIdentifier options req in
  let w := PathWeight.getPathWeight_v1 compile (Some (weightByPath options))
             (Js.or_string (path req) (Js.or_string (url req) "/")) in
  let base :=
    match clients !! id with
    | Some data => if resetTime data <? now then mkClientData 0 (now + windowMs options)
                   else data
    | None => mkClientData 0 (now + windowMs options)
    end in
  let r := middleware compile options req hasNext now sentAt clients in
  r.2 = <[id := mkClientData (count base + w) (resetTime base)]> clients
  ∧ isLimited r.1 = (limit options <? count base + w)
  ∧ (∀ ra resetAt, r.1 = TooManyRequests ra resetAt →
                   resetAt = resetTime base
                   ∧ ra = Js.ceilDiv (resetTime base - sentAt) 1000).
Proof.
  intros id w base r. subst r. unfold middleware. fold id. fold w.
  assert (Hbase :
    (if resetTime (match clients !! id with
                   | Some data => data
                   | None => mkClientData 0 (now + windowMs options)
                   end) <? now
     then mkClientData 0 (now + windowMs options)
     else match clients !! id with
          | Some data => data
          | None => mkClientData 0 (now + windowMs options)
          end) = base).
  { subst base. destruct (clients !! id); [done|]. cbn [resetTime]. by destruct (_ <? _). }
  rewrite Hbase. cbn [count resetTime].
  destruct (limit options <? count base + w);
    [destruct (o_onLimit options)|destruct hasNext]; cbn;
    (split; [done|]); (split; [done|]); intros ra resetAt [=]; by subst.
Qed.


Lemma requestWeight_nonneg options p :
  Forall (λ pw : string * Z, 0 <= pw.2) (weightByPath options) →
  0 <= PathWeight.getPathWeight_v1 compile (Some (weightByPath options)) p.
Proof. intros H. unfold PathWeight.getPathWeight_v1. cbn. by apply firstMatch_nonneg. Qed.

End LegacyFacts.

(** X13: the single-file middleware charges every request, the rejected
    ones too.  So once a client is answered "limited", each further
    request of that client is limited as well for as long as the clock
    has not passed the client's reset time, when no path weight is
    negative. *)
Theorem legacy_limited_client_stays_limited
    (compile : string → option (string → bool))
    (options : LegacyFlameLimit.Options) (req1 req2 : LegacyFlameLimit.Request)
    (hasNext1 hasNext2 : bool) (now1 sentAt1 now2 sentAt2 : Z)
    (clients : gmap string LegacyFlameLimit.ClientData) :
  let id := LegacyFlameLimit.getClientIdentifier options req1 in
  let r1 := LegacyFlameLimit.middleware compile options req1 hasNext1 now1 sentAt1 clients in
  Forall (λ pw : string * Z, 0 <= pw.2) (LegacyFlameLimit.weightByPath options) →
  LegacyFlameLimit.getClientIdentifier options req2 = id →
  LegacyFlameLimit.isLimited r1.1 = true →
  (∀ data, r1.2 !! id = Some data → now2 <= LegacyFlameLimit.resetTime data) →
  LegacyFlameLimit.isLimited
    (LegacyFlameLimit.middleware compile options req2 hasNext2 now2 sentAt2 r1.2).1 = true.
Proof.
  intros id r1 Hweights Hid Hlim Hwindow.
  destruct (middleware_charges compile options req1 hasNext1 now1 sentAt1 clients)
    as (Hst1 & Hl1 & _).
  fold id in Hst1, Hl1. fold r1 in Hst1, Hl1.
  destruct (middleware_charges compile options req2 hasNext2 now2 sentAt2 r1.2)
    as (_ & Hl2 & _).
  rewrite Hl2. clear Hl2. rewrite Hid.
  rewrite Hl1 in Hlim. apply Z.ltb_lt in Hlim.
  set (base := match clients !! id with
               | Some data =>
                   if LegacyFlameLimit.resetTime data <? now1
                   then LegacyFlameLimit.mkClientData 0
                          (now1 + LegacyFlameLimit.windowMs options)
                   else data
               | None => LegacyFlameLimit.mkClientData 0
                           (now1 + LegacyFlameLimit.windowMs options)
               end) in *.
  set (w1 := PathWeight.getPathWeight_v1 compile _ _) in Hst1, Hlim.
  assert (Hlook : r1.2 !! id
                  = Some (LegacyFlameLimit.mkClientData (LegacyFlameLimit.count base + w1)
                                                        (LegacyFlameLimit.resetTime base))).
  { rewrite Hst1. apply lookup_insert_eq. }
  rewrite Hlook. specialize (Hwindow _ Hlook). cbn [LegacyFlameLimit.resetTime] in Hwindow.
  cbn [LegacyFlameLimit.resetTime].
  apply Z.ltb_ge in Hwindow. rewrite Hwindow. cbn [LegacyFlameLimit.count].
  apply Z.ltb_lt.
  pose proof (requestWeight_nonneg compile options
                (Js.or_string (LegacyFlameLimit.path req2)
                   (Js.or_string (LegacyFlameLimit.url req2) "/")) Hweights).
  lia.
Qed.

Lemma legacy_limited_client_stays_limited_witness :
  let compile : string → option (string → bool) := λ _, None in
  let options := LegacyFlameLimit.mkOptions (Some 2) (Some 1000)
                   (Some [("/api/*", 2)]) false false in
  let req := LegacyFlameLimit.mkRequest (Some "10.0.0.7") None None None None
                                         (Some "/api/users") None in
  let r1 := LegacyFlameLimit.middleware compile options req true 0 0 ∅ in
  let r2 := LegacyFlameLimit.middleware compile options req true 10 10 r1.2 in
  let r3 := LegacyFlameLimit.middleware compile options req true 1000 1000 r2.2 in
  r1.1 = LegacyFlameLimit.CallNext
  ∧ r2.1 = LegacyFlameLimit.TooManyRequests 1 1000
  ∧ LegacyFlameLimit.isLimited r3.1 = true.
Proof.
  intros compile options req r1 r2 r3.
  split; [vm_compute; reflexivity|]. split; [vm_compute; reflexivity|].
  apply (legacy_limited_client_stays_limited compile options req req true true
           10 10 1000 1000 r1.2).
  - repeat constructor. cbn. lia.
  - reflexivity.
  - vm_compute. reflexivity.
  - intros data. vm_compute. intros [= <-]. discriminate.
Defined.

(** X14: the periodic cleanup of the single-file middleware is
    invisible.  Cleaning up at a time not after a request and then
    serving the request gives the same answer as serving it on the
    uncleaned map, and the map that cleaning up afterwards would give:
    the cleanup only removes clients whom the next request would reset
    anyway. *)
Theorem legacy_cleanup_commutes_with_requests
    (compile : string → option (string → bool))
    (options : LegacyFlameLimit.Options) (req : LegacyFlameLimit.Request)
    (hasNext : bool) (now sentAt cleanedAt : Z)
    (clients : gmap string LegacyFlameLimit.ClientData) :
  0 <= LegacyFlameLimit.windowMs options → cleanedAt <= now →
  LegacyFlameLimit.middleware compile options req hasNext now sentAt
    (LegacyFlameLimit.cleanup cleanedAt clients)
  = ((LegacyFlameLimit.middleware compile options req hasNext now sentAt clients).1,
     LegacyFlameLimit.cleanup cleanedAt
       (LegacyFlameLimit.middleware compile options req hasNext now sentAt clients).2).
Proof.
  intros HW Ht.
  set (id := LegacyFlameLimit.getClientIdentifier options req).
  set (fresh := LegacyFlameLimit.mkClientData 0 (now + LegacyFlameLimit.windowMs options)).
  (* the record the request starts from is the same on both maps *)
  assert (Hbase :
    (if LegacyFlameLimit.resetTime
          (match LegacyFlameLimit.cleanup cleanedAt clients !! id with
           | Some data => data | None => fresh end) <? now
     then fresh
     else match LegacyFlameLimit.cleanup cleanedAt clients !! id with
          | Some data => data | None => fresh end)
    = (if LegacyFlameLimit.resetTime
            (match clients !! id with Some data => data | None => fresh end) <? now
       then fresh
       else match clients !! id with Some data => data | None => fresh end)).
  { unfold LegacyFlameLimit.cleanup.
    destruct (clients !! id) as [data|] eqn:E.
    - destruct (LegacyFlameLimit.resetTime data <? cleanedAt) eqn:Ed.
      + rewrite map_lookup_filter_None_2.
        2:{ right. intros x Hx. cbn. congruence. }
        apply Z.ltb_lt in Ed.
        assert (Hold : (LegacyFlameLimit.resetTime data <? now) = true) by (apply Z.ltb_lt; lia).
        rewrite Hold. by destruct (LegacyFlameLimit.resetTime fresh <? now).
      + erewrite map_lookup_filter_Some_2; [done|exact E|done].
    - rewrite map_lookup_filter_None_2; [done|by left]. }
  unfold LegacyFlameLimit.middleware. fold id fresh. rewrite Hbase.
  set (base := if LegacyFlameLimit.resetTime
                    (match clients !! id with Some data => data | None => fresh end) <? now
               then fresh
               else match clients !! id with Some data => data | None => fresh end).
  assert (Hlive : now <= LegacyFlameLimit.resetTime base).
  { subst base.
    match goal with |- context [if ?c then _ else _] => destruct c eqn:E end.
    - subst fresh. cbn [LegacyFlameLimit.resetTime]. lia.
    - by apply Z.ltb_ge in E. }
  set (w := PathWeight.getPathWeight_v1 compile _ _).
  cbn [LegacyFlameLimit.count LegacyFlameLimit.resetTime].
  assert (Hmap : LegacyFlameLimit.cleanup cleanedAt
                   (<[id := LegacyFlameLimit.mkClientData (LegacyFlameLimit.count base + w)
                              (LegacyFlameLimit.resetTime base)]> clients)
                 = <[id := LegacyFlameLimit.mkClientData (LegacyFlameLimit.count base + w)
                              (LegacyFlameLimit.resetTime base)]>
                     (LegacyFlameLimit.cleanup cleanedAt clients)).
  { unfold LegacyFlameLimit.cleanup. apply map_filter_insert_True. cbn.
    apply Z.ltb_ge. lia. }
  destruct (LegacyFlameLimit.limit options <? LegacyFlameLimit.count base + w);
    [destruct (LegacyFlameLimit.o_onLimit options)|destruct hasNext];
    cbn [fst snd]; by rewrite Hmap.
Qed.

Lemma legacy_cleanup_commutes_with_requests_witness :
  let compile : string → option (string → bool) := λ _, None in
  let options := LegacyFlameLimit.mkOptions (Some 2) (Some 1000) None false false in
  let req := LegacyFlameLimit.mkRequest (Some "10.0.0.7") None None None None None None in
  let clients : gmap string LegacyFlameLimit.ClientData :=
    {[ "10.0.0.7" := LegacyFlameLimit.mkClientData 3 1000;
       "10.0.0.8" := LegacyFlameLimit.mkClientData 1 900 ]} in
  LegacyFlameLimit.cleanup 1500 clients = ∅
  ∧ LegacyFlameLimit.middleware compile options req true 1600 1601
      (LegacyFlameLimit.cleanup 1500 clients)
    = ((LegacyFlameLimit.middleware compile options req true 1600 1601 clients).1,
       LegacyFlameLimit.cleanup 1500
         (LegacyFlameLimit.middleware compile options req true 1600 1601 clients).2).
Proof.
  intros compile options req clients.
  split; [vm_compute; reflexivity|].
  apply (legacy_cleanup_commutes_with_requests compile options req true 1600 1601 1500
           clients);
    [cbn; lia|lia].
Defined.

(** ** Identities *)

Section IdentityFacts.
Import Js.

Lemma append_empty_r (s : string) : s +:+ EmptyString = s.
Proof.
  induction s as [|a s IH]; [done|].
  change (String a s +:+ EmptyString) with (String a (s +:+ EmptyString)). by rewrite IH.
Qed.

Lemma or_string_nonempty x d : d ≠ EmptyString → or_string x d ≠ EmptyString.
Proof. intros Hd. destruct x as [[|a s]|]; cbn; congruence. Qed.

Lemma whiteSpace_not_comma c : isWhiteSpace c = true → negb (Ascii.eqb c ","%char) = true.
Proof.
  intros Hw. destruct (Ascii.eqb c ",") eqn:E; [|done].
  apply Ascii.eqb_eq in E. subst c. discriminate.
Qed.

Lemma firstField_app p s :
  Keys.allChars (λ c, negb (Ascii.eqb c ","%char)) p = true →
  firstField (p +:+ s) = p +:+ firstField s.
Proof.
  induction p as [|a p IH]; [done|]. cbn [Keys.allChars].
  intros [Ha Hp]%andb_true_iff.
  change (String a p +:+ s) with (String a (p +:+ s)). cbn [firstField].
  apply negb_true_iff in Ha. rewrite Ha, IH by done. done.
Qed.

Lemma firstField_no_comma p :
  Keys.allChars (λ c, negb (Ascii.eqb c ","%char)) p = true → firstField p = p.
Proof.
  induction p as [|a p IH]; [done|]. cbn [Keys.allChars firstField].
  intros [Ha Hp]%andb_true_iff. apply negb_true_iff in Ha. by rewrite Ha, IH.
Qed.

Lemma trimStart_whiteSpace p s :
  Keys.allChars isWhiteSpace p = true → trimStart (p +:+ s) = trimStart s.
Proof.
  induction p as [|a p IH]; [done|]. cbn [Keys.allChars].
  intros [Ha Hp]%andb_true_iff.
  change (String a p +:+ s) with (String a (p +:+ s)). cbn [trimStart].
  by rewrite Ha, IH.
Qed.

Lemma trimStart_length s : (String.length (trimStart s) <= String.length s)%nat.
Proof.
  induction s as [|a s IH]; [done|]. cbn [trimStart].
  destruct (isWhiteSpace a); cbn; lia.
Qed.

(** A non-empty string that [trimStart] leaves alone starts with a
    character that is not white space, and stays so when extended. *)
Lemma trimStart_fixed_app a s :
  a ≠ EmptyString → trimStart a = a → trimStart (a +:+ s) = a +:+ s.
Proof.
  destruct a as [|c a]; [done|]. intros _ Hfix. cbn [trimStart] in Hfix.
  change (String c a +:+ s) with (String c (a +:+ s)). cbn [trimStart].
  destruct (isWhiteSpace c); [|done].
  pose proof (trimStart_length a) as Hlen. rewrite Hfix in Hlen. cbn in Hlen. lia.
Qed.

Lemma trimEnd_whiteSpace p : Keys.allChars isWhiteSpace p = true → trimEnd p = EmptyString.
Proof.
  induction p as [|a p IH]; [done|]. cbn [Keys.allChars trimEnd].
  intros [Ha Hp]%andb_true_iff. by rewrite IH, Ha.
Qed.

Lemma trimEnd_app_whiteSpace a p :
  Keys.allChars isWhiteSpace p = true → trimEnd (a +:+ p) = trimEnd a.
Proof.
  intros Hp. induction a as [|c a IH].
  - change (EmptyString +:+ p) with p. by rewrite trimEnd_whiteSpace.
  - change (String c a +:+ p) with (String c (a +:+ p)). cbn [trimEnd]. by rewrite IH.
Qed.

End IdentityFacts.

(** X15: the identity taken from a trusted X-Forwarded-For header is the
    first hop, whatever white space surrounds it and whatever hops
    follow: for an address without comma and without white space at
    its ends, every padding of it with white space, followed or not by
    a comma and more, yields that address. *)
Theorem forwarded_identity_is_first_hop (req : Middleware.Request)
    (before address after rest : string) (more : bool) :
  Middleware.headers_xForwardedFor req
  = Some (before +:+ address +:+ after
          +:+ (if more then String ","%char rest else EmptyString)) →
  Keys.allChars Js.isWhiteSpace before = true →
  Keys.allChars Js.isWhiteSpace after = true →
  Keys.allChars (λ c, negb (Ascii.eqb c ","%char)) address = true →
  address ≠ EmptyString →
  Js.trimStart address = address → Js.trimEnd address = address →
  Middleware.getIdentifier true req = address.
Proof.
  intros Hxff Hb Ha Hcomma Hne Hstart Hend.
  assert (Hfield : Js.firstField (before +:+ address +:+ after
                     +:+ (if more then String ","%char rest else EmptyString))
                   = before +:+ address +:+ after).
  { rewrite firstField_app
      by (apply (allChars_impl Js.isWhiteSpace); [apply whiteSpace_not_comma|done]).
    rewrite firstField_app by done.
    rewrite firstField_app
      by (apply (allChars_impl Js.isWhiteSpace); [apply whiteSpace_not_comma|done]).
    destruct more; cbn [Js.firstField]; [rewrite Ascii.eqb_refl|];
      by rewrite append_empty_r. }
  unfold Middleware.getIdentifier. rewrite Hxff.
  destruct (before +:+ address +:+ after
            +:+ (if more then String ","%char rest else EmptyString)) as [|c s] eqn:E.
  { exfalso. destruct before; [|discriminate].
    destruct address; [done|discriminate]. }
  rewrite Hfield. unfold Js.trim.
  rewrite trimStart_whiteSpace by done.
  rewrite trimStart_fixed_app by done.
  rewrite trimEnd_app_whiteSpace by done. exact Hend.
Qed.

Lemma forwarded_identity_is_first_hop_witness :
  Middleware.getIdentifier true
    (Middleware.mkRequest (Some "  203.0.113.9 , 10.0.0.1, 10.0.0.2") (Some "10.0.0.2")
                          None None None None None)
  = "203.0.113.9".
Proof.
  apply (forwarded_identity_is_first_hop _ "  " "203.0.113.9" " " " 10.0.0.1, 10.0.0.2" true);
    try reflexivity.
  discriminate.
Defined.

(** X16: without a trusted forwarding header an identity is never the
    empty string: both middlewares fall back to a fixed name.  With a
    trusted header whose first field is blank the identity is the
    empty string, so all such requests share one counter. *)
Theorem blank_forwarded_field_gives_empty_identity
    (options : LegacyFlameLimit.Options) (legacyReq : LegacyFlameLimit.Request)
    (req : Middleware.Request) (blank rest : string) :
  (0 < String.length (LegacyFlameLimit.getClientIdentifier options legacyReq))%nat
  ∧ (0 < String.length (Middleware.getIdentifier false req))%nat
  ∧ (Middleware.headers_xForwardedFor req = Some (blank +:+ String ","%char rest) →
     Keys.allChars Js.isWhiteSpace blank = true →
     Middleware.getIdentifier true req = EmptyString).
Proof.
  assert (Hlen : ∀ s, s ≠ EmptyString → (0 < String.length s)%nat).
  { intros [|a s] Hs; [done|]. cbn. lia. }
  repeat apply conj.
  - apply Hlen. unfold LegacyFlameLimit.getClientIdentifier.
    destruct (LegacyFlameLimit.o_tokenBased options); repeat apply or_string_nonempty; done.
  - apply Hlen. unfold Middleware.getIdentifier. repeat apply or_string_nonempty. done.
  - intros Hxff Hblank. unfold Middleware.getIdentifier. rewrite Hxff.
    destruct (blank +:+ String ","%char rest) as [|c s] eqn:E.
    { destruct blank; discriminate. }
    rewrite <- E. rewrite firstField_app
      by (apply (allChars_impl Js.isWhiteSpace); [apply whiteSpace_not_comma|done]).
    cbn [Js.firstField]. rewrite Ascii.eqb_refl, append_empty_r.
    unfold Js.trim. rewrite <- (append_empty_r blank).
    rewrite trimStart_whiteSpace by done. done.
Qed.

(** ** What the orchestrator's middleware answers *)

Lemma ceilDiv_1000_bounds (x : Z) :
  1000 * (Js.ceilDiv x 1000 - 1) < x <= 1000 * Js.ceilDiv x 1000.
Proof.
  unfold Js.ceilDiv.
  pose proof (Z.div_mod (- x) 1000 ltac:(lia)) as Hdm.
  pose proof (Z.mod_pos_bound (- x) 1000 ltac:(lia)) as Hm.
  lia.
Qed.

Lemma refillRate_new_pos options :
  0 < TokenBucketStrategy.limit (TokenBucketStrategy.new options) →
  0 < TokenBucketStrategy.windowMs (TokenBucketStrategy.new options) →
  (0 < TokenBucketStrategy.refillRate (TokenBucketStrategy.new options))%Q.
Proof.
  unfold TokenBucketStrategy.new.
  cbn [TokenBucketStrategy.limit TokenBucketStrategy.windowMs TokenBucketStrategy.refillRate].
  intros Hl Hw. unfold Double.div. apply round_pos.
  apply Qlt_shift_div_l; [by apply ofZ_pos|].
  rewrite Qmult_0_l. by apply ofZ_pos.
Qed.

Lemma token_rejection_resetTime_later self key weight now st :
  (0 < TokenBucketStrategy.refillRate self)%Q →
  limited (TokenBucketStrategy.consume self key weight now st).1 = true →
  now < resetTime (TokenBucketStrategy.consume self key weight now st).1.
Proof.
  intros Hr.
  set (b := TokenBucketStrategy.refill self (TokenBucketStrategy.loaded self key now st) now).
  destruct (TokenBucketStrategy.Qlt_bool (tokens b) (Double.ofZ weight)) eqn:E.
  2:{ rewrite (token_consume_accepted self key weight now st E). cbn. discriminate. }
  rewrite (token_consume_limited self key weight now st E). cbn [fst limited resetTime].
  intros _. fold b. apply Qlt_bool_true_iff in E.
  set (x := Double.div (Double.sub (Double.ofZ weight) (tokens b))
                       (TokenBucketStrategy.refillRate self)).
  assert (Hx : (0 < x)%Q).
  { subst x. unfold Double.div, Double.sub. apply round_pos.
    apply Qlt_shift_div_l; [done|]. rewrite Qmult_0_l. apply round_pos. lra. }
  pose proof (Qle_ceiling x) as Hceil.
  assert (0 < Qceiling x); [|lia].
  rewrite Zlt_Qlt. eapply Qlt_le_trans; [exact Hx|exact Hceil].
Qed.

Lemma fixed_resetTime_aligned self key weight now st :
  History.recordsAligned (FixedWindowStrategy.windowMs self) 1 st →
  resetTime (FixedWindowStrategy.consume self key weight now st).1
  = FixedWindowStrategy.windowStart self now + FixedWindowStrategy.windowMs self.
Proof.
  intros Hinv.
  assert (Hr : resetTime (FixedWindowStrategy.consume self key weight now st).1
               = cr_resetTime (FixedWindowStrategy.loaded self key now st)).
  { unfold FixedWindowStrategy.consume.
    fold (FixedWindowStrategy.loaded self key now st). by destruct (_ <? _). }
  rewrite Hr. unfold FixedWindowStrategy.loaded, FixedWindowStrategy.storeKey.
  destruct (MemoryStore.get st _) as [e|] eqn:E; [|done].
  by destruct (Hinv _ _ _ E).
Qed.

Lemma sliding_resetTime_aligned self key weight now st :
  History.recordsAligned (SlidingWindowStrategy.windowMs self) 2 st →
  resetTime (SlidingWindowStrategy.consume self key weight now st).1
  = SlidingWindowStrategy.currentWindow self now + SlidingWindowStrategy.windowMs self.
Proof.
  intros Hinv.
  assert (Hr : resetTime (SlidingWindowStrategy.consume self key weight now st).1
               = cr_resetTime (SlidingWindowStrategy.loadedCurrent self key now st)).
  { unfold SlidingWindowStrategy.consume.
    fold (SlidingWindowStrategy.loadedCurrent self key now st). by destruct (_ <? _). }
  rewrite Hr. unfold SlidingWindowStrategy.loadedCurrent, SlidingWindowStrategy.currentKey.
  destruct (MemoryStore.get st _) as [e|] eqn:E; [|done].
  by destruct (Hinv _ _ _ E).
Qed.

(** In every reachable state a rejection names a reset time that is
    still to come. *)
Lemma rejection_resetTime_later (c : Strategy.class) (options : StrategyOptions)
    (keyPrefix : string) (events : list History.event) (key : string) (weight now : Z) :
  let s := Strategy.new c options in
  0 < Strategy.limit s → 0 < Strategy.windowMs s →
  let st := History.run s events (Strategy.empty s keyPrefix) in
  limited (Strategy.consume s key weight now st).1 = true →
  now < resetTime (Strategy.consume s key weight now st).1.
Proof.
  destruct c; cbv zeta;
    cbn [Strategy.new Strategy.limit Strategy.windowMs Strategy.consume Strategy.empty];
    intros Hl HW Hlim.
  - rewrite fixed_resetTime_aligned.
    + pose proof (window_start_bounds _ now HW). unfold FixedWindowStrategy.windowStart. lia.
    + apply fixed_history_aligned; [done|]. apply recordsAligned_new.
  - rewrite sliding_resetTime_aligned.
    + pose proof (window_start_bounds _ now HW). unfold SlidingWindowStrategy.currentWindow. lia.
    + apply sliding_history_aligned; [done|]. apply recordsAligned_new.
  - apply token_rejection_resetTime_later; [|done]. by apply refillRate_new_pos.
Qed.

(** The middleware's answer in terms of the strategy's decision. *)
Lemma middleware_answer compile config trustProxy onLimit s req hasNext now sentAt
    (st : Strategy.state s) :
  let d := (Strategy.consume s (Middleware.getIdentifier trustProxy req)
              (PathWeight.getPathWeight compile (FlameLimit.weightByPath config)
                 (FlameLimit.weights config)
                 (Js.or_string (Middleware.path req)
                    (Js.or_string (Middleware.url req) "/")))
              now st).1 in
  let r := Middleware.middleware compile config trustProxy onLimit s req hasNext
             now sentAt st in
  r.1.1 = Middleware.mkHeaders (FlameLimit.limit config) (remaining d)
                               (Js.ceilDiv (resetTime d) 1000)
  ∧ r.1.2 = (if limited d
             then Middleware.sendLimitExceededResponse onLimit sentAt (resetTime d)
             else if hasNext then Middleware.CallNext else Middleware.ReturnTrue).
Proof.
  intros d r. subst d r. unfold Middleware.middleware.
  destruct (Strategy.consume s _ _ now st) as [result st'] eqn:E. cbn [fst].
  destruct (limited result); [|destruct hasNext]; done.
Qed.

(** X17: a 429 of the orchestrator's middleware always says when to come
    back.  In every state the memory store can reach from empty, for a
    strategy built with a positive limit and window, the reset time
    handed to the rejection (to [onLimit], or as [limitResetAt]) is
    later than the instant [now] at which the strategy decided.  The
    Retry-After header is the delay from the instant [sentAt] at which
    the response is written, in whole seconds rounded up: at least 1
    while the reset time is still ahead, and 0 or negative once it has
    passed. *)
Theorem rejection_says_when_to_retry (compile : string → option (string → bool))
    (config : FlameLimit.Config) (trustProxy onLimit : bool)
    (c : Strategy.class) (options : StrategyOptions) (keyPrefix : string)
    (events : list History.event) (req : Middleware.Request) (hasNext : bool)
    (now sentAt : Z) :
  let s := Strategy.new c options in
  0 < Strategy.limit s → 0 < Strategy.windowMs s →
  let st := History.run s events (Strategy.empty s keyPrefix) in
  match (Middleware.middleware compile config trustProxy onLimit s req hasNext
           now sentAt st).1.2 with
  | Middleware.TooManyRequests retryAfter limitResetAt =>
      now < limitResetAt
      ∧ 1000 * (retryAfter - 1) < limitResetAt - sentAt <= 1000 * retryAfter
      ∧ (sentAt < limitResetAt ↔ 1 <= retryAfter)
  | Middleware.CallOnLimit resetTime => now < resetTime
  | Middleware.CallNext | Middleware.ReturnTrue => True
  end.
Proof.
  intros s Hl HW st.
  destruct (middleware_answer compile config trustProxy onLimit s req hasNext now sentAt st)
    as [_ Hout].
  rewrite Hout. clear Hout.
  set (key := Middleware.getIdentifier trustProxy req).
  set (weight := PathWeight.getPathWeight compile _ _ _).
  pose proof (rejection_resetTime_later c options keyPrefix events key weight now Hl HW) as Hlater.
  cbv zeta in Hlater. fold s st in Hlater.
  destruct (limited (Strategy.consume s key weight now st).1) eqn:E; [|by destruct hasNext].
  specialize (Hlater eq_refl). unfold Middleware.sendLimitExceededResponse.
  destruct onLimit; [done|].
  pose proof (ceilDiv_1000_bounds (resetTime (Strategy.consume s key weight now st).1 - sentAt)).
  lia.
Qed.

Lemma rejection_says_when_to_retry_witness :
  let compile : string → option (string → bool) := λ _, None in
  let config := FlameLimit.mergeDefaults
                  (FlameLimit.mkOptions (Some 10) (Some 1000) None (Some "token")
                                        None None false None) in
  let s := Strategy.new Strategy.TokenBucketClass (mkStrategyOptions (Some 10) (Some 1000)) in
  let events := [History.Call (Strategy.mkCall "10.0.0.7" 10 0)] in
  let req := Middleware.mkRequest None (Some "10.0.0.7") None None None None None in
  let st := History.run s events (Strategy.empty s "flame-limit:") in
  (0 < Strategy.limit s ∧ 0 < Strategy.windowMs s)
  ∧ (Middleware.middleware compile config false false s req true 1 2 st).1.2
    = Middleware.TooManyRequests 1 100
  ∧ match (Middleware.middleware compile config false false s req true 1 2 st).1.2 with
    | Middleware.TooManyRequests retryAfter limitResetAt =>
        1 < limitResetAt
        ∧ 1000 * (retryAfter - 1) < limitResetAt - 2 <= 1000 * retryAfter
        ∧ (2 < limitResetAt ↔ 1 <= retryAfter)
    | Middleware.CallOnLimit resetTime => 1 < resetTime
    | Middleware.CallNext | Middleware.ReturnTrue => True
    end.
Proof.
  intros compile config s events req st.
  split; [split; cbn; lia|].
  split; [vm_compute; reflexivity|].
  apply (rejection_says_when_to_retry compile config false false
           Strategy.TokenBucketClass (mkStrategyOptions (Some 10) (Some 1000))
           "flame-limit:" events req true 1 2); cbn; lia.
Defined.

(** X18: what the response headers report.  X-RateLimit-Limit is the
    configured [limit] as given, while the strategy that
    [flameLimit] builds enforces 100 when the configured limit is 0 (and a
    window of 60000 ms when the configured window is 0); the two agree
    exactly when the configured limit is not 0.  X-RateLimit-Remaining
    is never negative, and X-RateLimit-Reset, in seconds, is never
    earlier than the decision's reset time. *)
Theorem headers_report_configured_limit (compile : string → option (string → bool))
    (options : FlameLimit.Options) (l : FlameLimit.Limiter) (s : Strategy.t)
    (trustProxy onLimit : bool) (req : Middleware.Request) (hasNext : bool)
    (now sentAt : Z) (st : Strategy.state s) :
  FlameLimit.flameLimit options = inr l →
  FlameLimit.l_strategy l = FlameLimit.Instance s →
  let config := FlameLimit.l_config l in
  let r := Middleware.middleware compile config trustProxy onLimit s req hasNext
             now sentAt st in
  Strategy.limit s = (if FlameLimit.limit config =? 0 then 100 else FlameLimit.limit config)
  ∧ Strategy.windowMs s
    = (if FlameLimit.windowMs config =? 0 then 60000 else FlameLimit.windowMs config)
  ∧ Middleware.xRateLimitLimit r.1.1 = FlameLimit.limit config
  ∧ 0 <= Middleware.xRateLimitRemaining r.1.1
  ∧ 1000 * (Middleware.xRateLimitReset r.1.1 - 1)
    < resetTime (Strategy.consume s (Middleware.getIdentifier trustProxy req)
                   (PathWeight.getPathWeight compile (FlameLimit.weightByPath config)
                      (FlameLimit.weights config)
                      (Js.or_string (Middleware.path req)
                         (Js.or_string (Middleware.url req) "/"))) now st).1
    <= 1000 * Middleware.xRateLimitReset r.1.1.
Proof.
  intros Hbuild Hs config r.
  assert (Hnew : ∃ c, s = Strategy.new c
                          (mkStrategyOptions (Some (FlameLimit.limit config))
                                             (Some (FlameLimit.windowMs config)))).
  { unfold FlameLimit.flameLimit in Hbuild.
    destruct (FlameLimit.newStore _ _) as [e|store]; [discriminate|].
    unfold FlameLimit.newStrategy in Hbuild.
    destruct (FlameLimit.STRATEGIES _) as [c| | |]; try discriminate.
    - injection Hbuild as <-. cbn in Hs. injection Hs as <-. by exists c.
    - injection Hbuild as <-. cbn in Hs. discriminate. }
  destruct Hnew as [c ->].
  destruct (middleware_answer compile config trustProxy onLimit _ req hasNext now sentAt st)
    as [Hhead _].
  fold r in Hhead. rewrite Hhead.
  cbn [Middleware.xRateLimitLimit Middleware.xRateLimitRemaining Middleware.xRateLimitReset].
  repeat apply conj.
  - by destruct c.
  - by destruct c.
  - done.
  - set (key := Middleware.getIdentifier trustProxy req).
    set (weight := PathWeight.getPathWeight compile _ _ _).
    destruct c; cbn [Strategy.new Strategy.consume Strategy.state] in *.
    + unfold FixedWindowStrategy.consume. destruct (_ <? _); cbn; lia.
    + unfold SlidingWindowStrategy.consume. destruct (_ <? _); cbn; lia.
    + assert (Hq : ∀ q, (0 <= q)%Q → 0 <= Qfloor q).
      { intros q Hq. rewrite <- (Qfloor_Z 0). by apply Qfloor_resp_le. }
      unfold TokenBucketStrategy.consume.
      destruct (0 <? _); cbn -[Qmax]; destruct (TokenBucketStrategy.Qlt_bool _ _);
        cbn -[Qmax]; apply Hq, Q.le_max_l.
  - apply ceilDiv_1000_bounds.
  - apply ceilDiv_1000_bounds.
Qed.

Lemma headers_report_configured_limit_witness :
  let compile : string → option (string → bool) := λ _, None in
  let options := FlameLimit.mkOptions (Some 0) None None None None None false None in
  let s := Strategy.new Strategy.FixedWindowClass (mkStrategyOptions (Some 0) (Some 60000)) in
  let req := Middleware.mkRequest None (Some "10.0.0.7") None None None None None in
  let r := Middleware.middleware compile (FlameLimit.mergeDefaults options) false false s
             req true 5 5 (Strategy.empty s "flame-limit:") in
  Strategy.limit s = 100
  ∧ r.1 = (Middleware.mkHeaders 0 99 60, Middleware.CallNext).
Proof.
  intros compile options s req r.
  destruct (headers_report_configured_limit compile options
              (FlameLimit.mkLimiter (FlameLimit.mergeDefaults options)
                 (FlameLimit.MemoryStoreObject "flame-limit:") (FlameLimit.Instance s))
              s false false req true 5 5 (Strategy.empty s "flame-limit:"))
    as (Hlimit & _); [reflexivity|reflexivity|].
  split; [exact Hlimit|]. vm_compute. reflexivity.
Defined.

(** X19: a 429 of the single-file middleware names a reset time that
    the clock has not passed: on any map of clients, [limitResetAt] is
    not earlier than the instant [now] of the request, and it is the
    reset time left in the map for the client.  Retry-After is the
    delay from the instant the response is written, in whole seconds
    rounded up, so it is 0 when the request arrives in the very
    millisecond of the reset time. *)
Theorem legacy_rejection_names_unpassed_reset
    (compile : string → option (string → bool))
    (options : LegacyFlameLimit.Options) (req : LegacyFlameLimit.Request)
    (hasNext : bool) (now sentAt : Z)
    (clients : gmap string LegacyFlameLimit.ClientData) :
  let r := LegacyFlameLimit.middleware compile options req hasNext now sentAt clients in
  0 <= LegacyFlameLimit.windowMs options →
  match r.1 with
  | LegacyFlameLimit.TooManyRequests retryAfter limitResetAt =>
      now <= limitResetAt
      ∧ (∃ data, r.2 !! LegacyFlameLimit.getClientIdentifier options req = Some data
                 ∧ LegacyFlameLimit.resetTime data = limitResetAt
                 ∧ LegacyFlameLimit.limit options < LegacyFlameLimit.count data)
      ∧ 1000 * (retryAfter - 1) < limitResetAt - sentAt <= 1000 * retryAfter
      ∧ (sentAt = limitResetAt → retryAfter = 0)
  | _ => True
  end.
Proof.
  intros r HW.
  destruct (middleware_charges compile options req hasNext now sentAt clients)
    as (Hst & Hlim & Hra).
  fold r in Hst, Hlim, Hra.
  destruct r.1 as [|ra resetAt| |] eqn:E; try done.
  destruct (Hra ra resetAt eq_refl) as [-> ->]. cbn in Hlim. symmetry in Hlim.
  apply Z.ltb_lt in Hlim.
  set (base := match clients !! _ with Some _ => _ | None => _ end) in *.
  assert (Hlive : now <= LegacyFlameLimit.resetTime base).
  { subst base. destruct (clients !! _) as [data|]; cbn [LegacyFlameLimit.resetTime]; [|lia].
    destruct (LegacyFlameLimit.resetTime data <? now) eqn:Ed;
      cbn [LegacyFlameLimit.resetTime]; [lia|by apply Z.ltb_ge in Ed]. }
  pose proof (ceilDiv_1000_bounds (LegacyFlameLimit.resetTime base - sentAt)) as Hc.
  split; [exact Hlive|]. split; [|split; [exact Hc|intros ->; lia]].
  eexists. split; [rewrite Hst; apply lookup_insert_eq|]. by cbn.
Qed.

Lemma legacy_rejection_names_unpassed_reset_witness :
  let compile : string → option (string → bool) := λ _, None in
  let options := LegacyFlameLimit.mkOptions (Some 2) (Some 1000) None false false in
  let req := LegacyFlameLimit.mkRequest (Some "10.0.0.7") None None None None None None in
  let clients : gmap string LegacyFlameLimit.ClientData :=
    {[ "10.0.0.7" := LegacyFlameLimit.mkClientData 2 1000 ]} in
  let r := LegacyFlameLimit.middleware compile options req true 1000 1000 clients in
  r.1 = LegacyFlameLimit.TooManyRequests 0 1000
  ∧ match r.1 with
    | LegacyFlameLimit.TooManyRequests retryAfter limitResetAt =>
        1000 <= limitResetAt
        ∧ (∃ data, r.2 !! LegacyFlameLimit.getClientIdentifier options req = Some data
                   ∧ LegacyFlameLimit.resetTime data = limitResetAt
                   ∧ LegacyFlameLimit.limit options < LegacyFlameLimit.count data)
        ∧ 1000 * (retryAfter - 1) < limitResetAt - 1000 <= 1000 * retryAfter
        ∧ (1000 = limitResetAt → retryAfter = 0)
    | _ => True
    end.
Proof.
  intros compile options req clients r.
  split; [vm_compute; reflexivity|].
  apply (legacy_rejection_names_unpassed_reset compile options req true 1000 1000 clients).
  cbn. lia.
Defined.

(** ** Clients do not see each other *)

Section Isolation.

Lemma fixed_consume_get_other self key weight now st K :
  K ≠ FixedWindowStrategy.storeKey self key now →
  MemoryStore.get (FixedWindowStrategy.consume self key weight now st).2 K
  = MemoryStore.get st K.
Proof.
  intros HK.
  destruct (Z.lt_ge_cases (FixedWindowStrategy.limit self)
              (count (FixedWindowStrategy.loaded self key now st) + weight)) as [Hlt|Hge].
  - by rewrite (fixed_consume_limited self key weight now st Hlt).
  - rewrite (fixed_consume_accepted self key weight now st Hge). cbn [snd].
    by apply get_set_ne.
Qed.

Lemma fixed_decision_reads_own_record self key weight now st st' :
  MemoryStore.get st' (FixedWindowStrategy.storeKey self key now)
  = MemoryStore.get st (FixedWindowStrategy.storeKey self key now) →
  (FixedWindowStrategy.consume self key weight now st').1
  = (FixedWindowStrategy.consume self key weight now st).1.
Proof.
  intros Hget. unfold FixedWindowStrategy.consume. rewrite Hget.
  by destruct (_ <? _).
Qed.

Lemma sliding_consume_get_other self key weight now st K :
  K ≠ SlidingWindowStrategy.currentKey self key now →
  MemoryStore.get (SlidingWindowStrategy.consume self key weight now st).2 K
  = MemoryStore.get st K.
Proof.
  intros HK.
  destruct (Z.lt_ge_cases (SlidingWindowStrategy.limit self)
              (SlidingWindowStrategy.effectivePreviousCount self
                 (SlidingWindowStrategy.loadedPreviousCount self key now st) now
               + (count (SlidingWindowStrategy.loadedCurrent self key now st) + weight)))
    as [Hlt|Hge].
  - by rewrite (sliding_consume_limited self key weight now st Hlt).
  - rewrite (sliding_consume_accepted self key weight now st Hge). cbn [snd].
    by apply get_set_ne.
Qed.

Lemma sliding_decision_reads_own_records self key weight now st st' :
  MemoryStore.get st' (SlidingWindowStrategy.currentKey self key now)
  = MemoryStore.get st (SlidingWindowStrategy.currentKey self key now) →
  MemoryStore.get st' (SlidingWindowStrategy.previousKey self key now)
  = MemoryStore.get st (SlidingWindowStrategy.previousKey self key now) →
  (SlidingWindowStrategy.consume self key weight now st').1
  = (SlidingWindowStrategy.consume self key weight now st).1.
Proof.
  intros Hc Hp. unfold SlidingWindowStrategy.consume. rewrite Hc, Hp.
  by destruct (_ <? _).
Qed.

Lemma token_decision_reads_own_bucket self key weight now st st' :
  MemoryStore.get st' (TokenBucketStrategy.storeKey key)
  = MemoryStore.get st (TokenBucketStrategy.storeKey key) →
  (TokenBucketStrategy.consume self key weight now st').1
  = (TokenBucketStrategy.consume self key weight now st).1.
Proof.
  intros Hget. unfold TokenBucketStrategy.consume. rewrite Hget.
  destruct (0 <? _); cbn -[Qmax]; by destruct (TokenBucketStrategy.Qlt_bool _ _).
Qed.

Lemma fixed_step_untouched self key e st (ws : Z) :
  History.ofAnotherClient key e →
  MemoryStore.get (History.step (Strategy.Fixed self) e st) (key +:+ ":" +:+ pretty ws)
  = MemoryStore.get st (key +:+ ":" +:+ pretty ws).
Proof.
  destruct e as [c|t|k t|]; cbn [History.ofAnotherClient History.step]; intros Hne; try done.
  - cbn [Strategy.consume]. apply fixed_consume_get_other.
    unfold FixedWindowStrategy.storeKey. intros [? _]%window_key_inj. by apply Hne.
  - cbn [Strategy.resetKey]. unfold FixedWindowStrategy.resetKey. apply get_del_ne.
    unfold FixedWindowStrategy.storeKey. intros [? _]%window_key_inj. by apply Hne.
Qed.

Lemma sliding_step_untouched self key e st (ws : Z) :
  History.ofAnotherClient key e →
  MemoryStore.get (History.step (Strategy.Sliding self) e st) (key +:+ ":" +:+ pretty ws)
  = MemoryStore.get st (key +:+ ":" +:+ pretty ws).
Proof.
  destruct e as [c|t|k t|]; cbn [History.ofAnotherClient History.step]; intros Hne; try done.
  - cbn [Strategy.consume]. apply sliding_consume_get_other.
    unfold SlidingWindowStrategy.currentKey. intros [? _]%window_key_inj. by apply Hne.
  - cbn [Strategy.resetKey]. unfold SlidingWindowStrategy.resetKey.
    rewrite !get_del_ne; [done| |].
    + unfold SlidingWindowStrategy.currentKey. intros [? _]%window_key_inj. by apply Hne.
    + unfold SlidingWindowStrategy.previousKey. intros [? _]%window_key_inj. by apply Hne.
Qed.

Lemma token_step_untouched self key e st :
  History.ofAnotherClient key e →
  MemoryStore.get (History.step (Strategy.Token self) e st) (TokenBucketStrategy.storeKey key)
  = MemoryStore.get st (TokenBucketStrategy.storeKey key).
Proof.
  destruct e as [c|t|k t|]; cbn [History.ofAnotherClient History.step]; intros Hne; try done.
  - cbn [Strategy.consume]. by apply token_consume_other.
  - cbn [Strategy.resetKey]. unfold TokenBucketStrategy.resetKey. apply get_del_ne.
    intros ?%token_key_inj. by apply Hne.
Qed.

Lemma fixed_run_untouched self key events st (ws : Z) :
  Forall (History.ofAnotherClient key) events →
  MemoryStore.get (History.run (Strategy.Fixed self) events st) (key +:+ ":" +:+ pretty ws)
  = MemoryStore.get st (key +:+ ":" +:+ pretty ws).
Proof.
  intros H. revert st. induction H as [|e rest He _ IH]; intros st; [done|].
  cbn [History.run]. rewrite IH. by apply fixed_step_untouched.
Qed.

Lemma sliding_run_untouched self key events st (ws : Z) :
  Forall (History.ofAnotherClient key) events →
  MemoryStore.get (History.run (Strategy.Sliding self) events st) (key +:+ ":" +:+ pretty ws)
  = MemoryStore.get st (key +:+ ":" +:+ pretty ws).
Proof.
  intros H. revert st. induction H as [|e rest He _ IH]; intros st; [done|].
  cbn [History.run]. rewrite IH. by apply sliding_step_untouched.
Qed.

Lemma token_run_untouched self key events st :
  Forall (History.ofAnotherClient key) events →
  MemoryStore.get (History.run (Strategy.Token self) events st)
    (TokenBucketStrategy.storeKey key)
  = MemoryStore.get st (TokenBucketStrategy.storeKey key).
Proof.
  intros H. revert st. induction H as [|e rest He _ IH]; intros st; [done|].
  cbn [History.run]. rewrite IH. by apply token_step_untouched.
Qed.

End Isolation.

(** X20: clients do not see each other.  Whatever the store holds, any
    sequence of [consume] and [resetKey] calls for other identities
    leaves the decision of the next call for [key] as it would have
    been without them, under each of the three strategies: a store key
    [key:window] or [key:token] determines its identity, also when
    identities contain colons. *)
Theorem other_clients_do_not_change_decision (s : Strategy.t) (key : string)
    (events : list History.event) (weight now : Z) (st : Strategy.state s) :
  Forall (History.ofAnotherClient key) events →
  (Strategy.consume s key weight now (History.run s events st)).1
  = (Strategy.consume s key weight now st).1.
Proof.
  intros Hothers. destruct s as [self|self|self]; cbn [Strategy.consume].
  - apply fixed_decision_reads_own_record. by apply fixed_run_untouched.
  - apply sliding_decision_reads_own_records; by apply sliding_run_untouched.
  - apply token_decision_reads_own_bucket. by apply token_run_untouched.
Qed.

Lemma other_clients_do_not_change_decision_witness :
  let s := Strategy.new Strategy.SlidingWindowClass (mkStrategyOptions (Some 3) (Some 1000)) in
  let st := History.run s [History.Call (Strategy.mkCall "10.0.0.7" 2 900)]
              (Strategy.empty s "flame-limit:") in
  let events := [History.Call (Strategy.mkCall "10.0.0.7:1000" 3 1200);
                 History.ResetKey "10.0.0" 1300;
                 History.Call (Strategy.mkCall "10.0.0.8" 1 1400)] in
  limited (Strategy.consume s "10.0.0.7" 2 1500 (History.run s events st)).1 = false
  ∧ remaining (Strategy.consume s "10.0.0.7" 2 1500 (History.run s events st)).1 = 0.
Proof.
  intros s st events.
  rewrite (other_clients_do_not_change_decision s "10.0.0.7" events 2 1500 st).
  - split; vm_compute; reflexivity.
  - repeat constructor; cbn; discriminate.
Defined.
